(** * Orchestration state machine of the package-processing back end

    A shallow embedding of [src/backend/orchestration/index.ts]: the Step
    Functions state machine built by the [Orchestration] construct, run on
    JSON documents, with the Lambda functions it invokes taken as oracles.

    The generated function constructs of [src/backend/ingestion/ingestion.ts]
    and its siblings come after it, as the object literals they pass on.

    The file has four parts: JSON documents and the [States.StringToJson]
    intrinsic; the execution monad and the retry loop of a task state; the
    states of the machine, in the order of the source; the properties. *)

From Stdlib Require Import List String Ascii NArith Arith Bool Lia.
Import ListNotations.
Local Open Scope string_scope.

(* ===================================================================== *)
(** ** JSON documents *)
(* ===================================================================== *)

(** Numbers keep their literal: no state of this machine computes with one.
    No proof below goes by induction on a document. *)
#[local] Unset Elimination Schemes.
Inductive json : Type :=
| JNull
| JBool (b : bool)
| JNumber (literal : string)
| JString (s : string)
| JArray (items : list json)
| JObject (members : list (string * json)).
#[local] Set Elimination Schemes.

(** The fields of a JSON object, in the order they were written. *)
Definition object := list (string * json).

Fixpoint lookup (key : string) (o : object) : option json :=
  match o with
  | [] => None
  | (k, v) :: rest => if String.eqb k key then Some v else lookup key rest
  end.

(** Writing a field: the value of an existing field is replaced in place, a
    new field is added at the end.  This is what a [resultPath] of the form
    [$.key] does to the input of a state. *)
Fixpoint put (key : string) (value : json) (o : object) : object :=
  match o with
  | [] => [(key, value)]
  | (k, v) :: rest =>
      if String.eqb k key then (k, value) :: rest
      else (k, v) :: put key value rest
  end.

(** The reference paths of the source: [$.a], [$.a[i].b], ... *)
Inductive step : Type :=
| Field (name : string)
| Index (i : nat).

Fixpoint jsonPath (path : list step) (j : json) : option json :=
  match path with
  | [] => Some j
  | Field name :: rest =>
      match j with
      | JObject members =>
          match lookup name members with
          | Some v => jsonPath rest v
          | None => None
          end
      | _ => None
      end
  | Index i :: rest =>
      match j with
      | JArray items =>
          match nth_error items i with
          | Some v => jsonPath rest v
          | None => None
          end
      | _ => None
      end
  end.

(** [Condition.isPresent] and [Condition.isNotPresent] of a Choice state. *)
Definition isPresent (path : list step) (j : json) : bool :=
  match jsonPath path j with Some _ => true | None => false end.

Definition isNotPresent (path : list step) (j : json) : bool :=
  negb (isPresent path j).

(* ===================================================================== *)
(** ** The intrinsic [States.StringToJson] *)
(* ===================================================================== *)

Module States.

Definition quote : ascii := "034"%char.
Definition backslash : ascii := "092"%char.

Definition isWhitespace (c : ascii) : bool :=
  let n := nat_of_ascii c in
  Nat.eqb n 32 || Nat.eqb n 9 || Nat.eqb n 10 || Nat.eqb n 13.

Definition isDigit (c : ascii) : bool :=
  let n := nat_of_ascii c in Nat.leb 48 n && Nat.leb n 57.

Definition isHex (c : ascii) : bool :=
  let n := nat_of_ascii c in
  isDigit c || (Nat.leb 65 n && Nat.leb n 70) || (Nat.leb 97 n && Nat.leb n 102).

Fixpoint skipWhitespace (s : string) : string :=
  match s with
  | String c rest => if isWhitespace c then skipWhitespace rest else s
  | EmptyString => s
  end.

Fixpoint spanDigits (s : string) : string * string :=
  match s with
  | String c rest =>
      if isDigit c
      then let (ds, tl) := spanDigits rest in (String c ds, tl)
      else (EmptyString, s)
  | EmptyString => (EmptyString, s)
  end.

Fixpoint stripPrefix (p s : string) : option string :=
  match p, s with
  | EmptyString, _ => Some s
  | String a p', String b s' => if Ascii.eqb a b then stripPrefix p' s' else None
  | String _ _, EmptyString => None
  end.

(** One-character escapes of a JSON string. *)
Definition unescape (c : ascii) : option ascii :=
  if Ascii.eqb c quote then Some quote
  else if Ascii.eqb c backslash then Some backslash
  else if Ascii.eqb c "/" then Some "/"%char
  else if Ascii.eqb c "b" then Some "008"%char
  else if Ascii.eqb c "f" then Some "012"%char
  else if Ascii.eqb c "n" then Some "010"%char
  else if Ascii.eqb c "r" then Some "013"%char
  else if Ascii.eqb c "t" then Some "009"%char
  else None.

(** The value of a hexadecimal digit, and of the four of a [\uXXXX]
    escape. *)
Definition hexValue (c : ascii) : N :=
  let n := N_of_ascii c in
  if isDigit c then (n - 48)%N
  else if (n <=? 70)%N then (n - 55)%N
  else (n - 87)%N.

Definition codeUnit (h1 h2 h3 h4 : ascii) : N :=
  (((hexValue h1 * 16 + hexValue h2) * 16 + hexValue h3) * 16 + hexValue h4)%N.

Definition isHighSurrogate (unit : N) : bool :=
  (55296 <=? unit)%N && (unit <=? 56319)%N.

Definition isLowSurrogate (unit : N) : bool :=
  (56320 <=? unit)%N && (unit <=? 57343)%N.

Definition surrogatePair (high low : N) : N :=
  (65536 + (high - 55296) * 1024 + (low - 56320))%N.

(** Strings are kept as the bytes of their UTF-8 form.  A surrogate that
    has no partner is written like any other code unit. *)
Definition utf8 (c : N) : string :=
  let byte (n : N) := ascii_of_N n in
  if (c <? 128)%N then String (byte c) EmptyString
  else if (c <? 2048)%N then
    String (byte (192 + c / 64)%N) (String (byte (128 + c mod 64)%N) EmptyString)
  else if (c <? 65536)%N then
    String (byte (224 + c / 4096)%N)
      (String (byte (128 + (c / 64) mod 64)%N)
         (String (byte (128 + c mod 64)%N) EmptyString))
  else
    String (byte (240 + c / 262144)%N)
      (String (byte (128 + (c / 4096) mod 64)%N)
         (String (byte (128 + (c / 64) mod 64)%N)
            (String (byte (128 + c mod 64)%N) EmptyString))).

(** The body of a string literal, after its opening quote.  A [\uXXXX]
    escape stands for its character, two of them for one character when
    they are a surrogate pair. *)
Fixpoint parseChars (s : string) : option (string * string) :=
  match s with
  | EmptyString => None
  | String c rest =>
      if Ascii.eqb c quote then Some (EmptyString, rest)
      else if Ascii.eqb c backslash then
        match rest with
        | String e rest' =>
            if Ascii.eqb e "u" then
              match rest' with
              | String h1 (String h2 (String h3 (String h4 rest''))) =>
                  if isHex h1 && isHex h2 && isHex h3 && isHex h4 then
                    let unit := codeUnit h1 h2 h3 h4 in
                    let single :=
                      match parseChars rest'' with
                      | Some (body, tl) => Some (utf8 unit ++ body, tl)
                      | None => None
                      end in
                    match rest'' with
                    | String b (String u (String l1 (String l2 (String l3
                        (String l4 after))))) =>
                        if isHighSurrogate unit
                           && Ascii.eqb b backslash && Ascii.eqb u "u"
                           && isHex l1 && isHex l2 && isHex l3 && isHex l4
                           && isLowSurrogate (codeUnit l1 l2 l3 l4)
                        then
                          match parseChars after with
                          | Some (body, tl) =>
                              Some (utf8 (surrogatePair unit (codeUnit l1 l2 l3 l4))
                                    ++ body, tl)
                          | None => None
                          end
                        else single
                    | _ => single
                    end
                  else None
              | _ => None
              end
            else
              match unescape e, parseChars rest' with
              | Some d, Some (body, tl) => Some (String d body, tl)
              | _, _ => None
              end
        | EmptyString => None
        end
      else if Nat.ltb (nat_of_ascii c) 32 then None
      else
        match parseChars rest with
        | Some (body, tl) => Some (String c body, tl)
        | None => None
        end
  end.

(** The members of an object, of the members as written: a key written
    again takes the later value and keeps its place. *)
Definition members (written : object) : object :=
  fold_left (fun o member => put (fst member) (snd member) o) written [].

(** A number literal: sign, integer part without leading zero, optional
    fraction, optional exponent. *)
Definition parseNumber (s : string) : option (string * string) :=
  let (sign, s1) :=
    match s with
    | String c rest => if Ascii.eqb c "-" then ("-", rest) else ("", s)
    | EmptyString => ("", s)
    end in
  let (int, s2) := spanDigits s1 in
  match int with
  | EmptyString => None
  | String d ds =>
      if Ascii.eqb d "0" && negb (String.eqb ds "") then None
      else
        let frac :=
          match s2 with
          | String c rest =>
              if Ascii.eqb c "." then
                let (fs, tl) := spanDigits rest in
                if String.eqb fs "" then None else Some ("." ++ fs, tl)
              else Some ("", s2)
          | EmptyString => Some ("", s2)
          end in
        match frac with
        | None => None
        | Some (f, s3) =>
            let expo :=
              match s3 with
              | String c rest =>
                  if Ascii.eqb c "e" || Ascii.eqb c "E" then
                    let (sg, rest') :=
                      match rest with
                      | String x r =>
                          if Ascii.eqb x "+" || Ascii.eqb x "-"
                          then (String x "", r) else ("", rest)
                      | EmptyString => ("", rest)
                      end in
                    let (es, tl) := spanDigits rest' in
                    if String.eqb es "" then None
                    else Some (String c sg ++ es, tl)
                  else Some ("", s3)
              | EmptyString => Some ("", s3)
              end in
            match expo with
            | None => None
            | Some (e, s4) => Some (sign ++ int ++ f ++ e, s4)
            end
        end
  end.

Fixpoint parseValue (fuel : nat) (s : string) : option (json * string) :=
  match fuel with
  | O => None
  | S fuel' =>
      match skipWhitespace s with
      | EmptyString => None
      | String c rest =>
          if Ascii.eqb c "{" then
            match skipWhitespace rest with
            | String c' rest' =>
                if Ascii.eqb c' "}" then Some (JObject [], rest')
                else
                  match parseMembers fuel' (String c' rest') with
                  | Some (ms, tl) => Some (JObject (members ms), tl)
                  | None => None
                  end
            | EmptyString => None
            end
          else if Ascii.eqb c "[" then
            match skipWhitespace rest with
            | String c' rest' =>
                if Ascii.eqb c' "]" then Some (JArray [], rest')
                else
                  match parseElements fuel' (String c' rest') with
                  | Some (vs, tl) => Some (JArray vs, tl)
                  | None => None
                  end
            | EmptyString => None
            end
          else if Ascii.eqb c quote then
            match parseChars rest with
            | Some (body, tl) => Some (JString body, tl)
            | None => None
            end
          else if Ascii.eqb c "t" then
            option_map (fun tl => (JBool true, tl)) (stripPrefix "rue" rest)
          else if Ascii.eqb c "f" then
            option_map (fun tl => (JBool false, tl)) (stripPrefix "alse" rest)
          else if Ascii.eqb c "n" then
            option_map (fun tl => (JNull, tl)) (stripPrefix "ull" rest)
          else
            option_map (fun p => (JNumber (fst p), snd p))
                       (parseNumber (String c rest))
      end
  end

with parseElements (fuel : nat) (s : string) : option (list json * string) :=
  match fuel with
  | O => None
  | S fuel' =>
      match parseValue fuel' s with
      | Some (v, tl) =>
          match skipWhitespace tl with
          | String c rest =>
              if Ascii.eqb c "]" then Some ([v], rest)
              else if Ascii.eqb c "," then
                match parseElements fuel' rest with
                | Some (vs, tl') => Some (v :: vs, tl')
                | None => None
                end
              else None
          | EmptyString => None
          end
      | None => None
      end
  end

with parseMembers (fuel : nat) (s : string) : option (object * string) :=
  match fuel with
  | O => None
  | S fuel' =>
      match skipWhitespace s with
      | String c rest =>
          if Ascii.eqb c quote then
            match parseChars rest with
            | Some (key, tl) =>
                match skipWhitespace tl with
                | String c' rest' =>
                    if Ascii.eqb c' ":" then
                      match parseValue fuel' rest' with
                      | Some (v, tl') =>
                          match skipWhitespace tl' with
                          | String c'' rest'' =>
                              if Ascii.eqb c'' "}" then Some ([(key, v)], rest'')
                              else if Ascii.eqb c'' "," then
                                match parseMembers fuel' rest'' with
                                | Some (ms, tl'') => Some ((key, v) :: ms, tl'')
                                | None => None
                                end
                              else None
                          | EmptyString => None
                          end
                      | None => None
                      end
                    else None
                | EmptyString => None
                end
            | None => None
            end
          else None
      | EmptyString => None
      end
  end.

(** [States.StringToJson(text)]: the JSON value written in [text], or
    nothing when [text] is not one JSON value; the state that evaluates the
    intrinsic then fails with [States.IntrinsicFailure]. *)
Definition StringToJson (text : string) : option json :=
  match parseValue (2 * String.length text + 2) text with
  | Some (j, tl) =>
      match skipWhitespace tl with
      | EmptyString => Some j
      | String _ _ => None
      end
  | None => None
  end.

(** A string literal of JSON text. *)
Definition quoted (s : string) : string :=
  String quote (s ++ String quote EmptyString).

End States.

(* ===================================================================== *)
(** ** Executions of a state machine *)
(* ===================================================================== *)

(** [DocumentationLanguage], of [../shared/language]: the two members the
    source names, each rendered by its name. *)
Inductive DocumentationLanguage : Type := PYTHON | TYPESCRIPT.

Definition languageName (language : DocumentationLanguage) : string :=
  match language with
  | PYTHON => "python"
  | TYPESCRIPT => "typescript"
  end.

Inductive LambdaFunction : Type :=
| CatalogBuilder
| Transliterator (language : DocumentationLanguage).

(** The states of the machine, by the identifiers the source gives them. *)
Inductive StateName : Type :=
| TrackExecutionInfos                              (* 'Track Execution Infos' *)
| DocGen                                           (* 'DocGen' *)
| GenerateDocs (language : DocumentationLanguage)  (* `Generate ${language} docs` *)
| FailedLanguage (language : DocumentationLanguage) (* `Failed ${language}` *)
| AnySuccess                                       (* 'Any Success?' *)
| AddToCatalog                                     (* 'Add to catalog.json' *)
| FailedToAddToCatalog                             (* 'Failed to add to catalog.json' *)
| AnyFailure                                       (* 'Any Failure?' *)
| SendToDeadLetterQueue                            (* 'Send to Dead Letter Queue' *)
| FailState                                        (* 'Fail' *)
| SuccessState.                                    (* 'Success' *)

Definition languageEqb (a b : DocumentationLanguage) : bool :=
  match a, b with
  | PYTHON, PYTHON | TYPESCRIPT, TYPESCRIPT => true
  | _, _ => false
  end.

Definition stateEqb (a b : StateName) : bool :=
  match a, b with
  | TrackExecutionInfos, TrackExecutionInfos
  | DocGen, DocGen
  | AnySuccess, AnySuccess
  | AddToCatalog, AddToCatalog
  | FailedToAddToCatalog, FailedToAddToCatalog
  | AnyFailure, AnyFailure
  | SendToDeadLetterQueue, SendToDeadLetterQueue
  | FailState, FailState
  | SuccessState, SuccessState => true
  | GenerateDocs x, GenerateDocs y
  | FailedLanguage x, FailedLanguage y => languageEqb x y
  | _, _ => false
  end.

Definition functionEqb (a b : LambdaFunction) : bool :=
  match a, b with
  | CatalogBuilder, CatalogBuilder => true
  | Transliterator x, Transliterator y => languageEqb x y
  | _, _ => false
  end.

(** The execution history: which state was entered with which input, and
    which function was invoked, each with the second it happened at. *)
Inductive Event : Type :=
| StateEntered (time : N) (name : StateName) (input : json)
| LambdaInvoked (time : N) (fn : LambdaFunction).

Definition timeOf (e : Event) : N :=
  match e with
  | StateEntered t _ _ => t
  | LambdaInvoked t _ => t
  end.

Definition entered (name : StateName) (e : Event) : bool :=
  match e with
  | StateEntered _ n _ => stateEqb n name
  | LambdaInvoked _ _ => false
  end.

Definition invoked (fn : LambdaFunction) (e : Event) : bool :=
  match e with
  | StateEntered _ _ _ => false
  | LambdaInvoked _ f => functionEqb f fn
  end.

Definition count (p : Event -> bool) (h : list Event) : nat :=
  List.length (filter p h).

(** What an execution has done so far: the seconds since it started, its
    history, and the message bodies it has sent to the dead letter queue. *)
Record Machine : Type := mkMachine {
  clock : N;
  history : list Event;
  deadLetterQueue : list json
}.

Inductive ExecutionStatus : Type := SUCCEEDED | FAILED | TIMED_OUT.

(** A state either hands its output to the next state or ends the
    execution. *)
Inductive Result (A : Type) : Type :=
| Next (output : A)
| Stop (status : ExecutionStatus).
Arguments Next {A} output.
Arguments Stop {A} status.

Definition Exec (A : Type) : Type := Machine -> Result A * Machine.

Definition ret {A : Type} (a : A) : Exec A := fun m => (Next a, m).

Definition bind {A B : Type} (c : Exec A) (k : A -> Exec B) : Exec B :=
  fun m =>
    match c m with
    | (Next a, m') => k a m'
    | (Stop s, m') => (Stop s, m')
    end.

Declare Scope exec_scope.
Delimit Scope exec_scope with exec.
Notation "x <- c ;; k" := (bind c (fun x => k))
  (at level 61, c at next level, right associativity) : exec_scope.
Notation "c ;; k" := (bind c (fun _ => k))
  (at level 61, right associativity) : exec_scope.
Local Open Scope exec_scope.

Definition stop {A : Type} (status : ExecutionStatus) : Exec A :=
  fun m => (Stop status, m).

(** [timeout: Duration.hours(1)], in seconds. *)
Definition timeout : N := 3600.

Definition enter (name : StateName) (input : object) : Exec unit :=
  fun m => (Next tt, mkMachine (clock m)
                               (history m ++ [StateEntered (clock m) name (JObject input)])
                               (deadLetterQueue m)).

Definition invokeLambda (fn : LambdaFunction) : Exec unit :=
  fun m => (Next tt, mkMachine (clock m)
                               (history m ++ [LambdaInvoked (clock m) fn])
                               (deadLetterQueue m)).

(** Time passes only while a function runs and while a task waits for its
    next retry.  An execution that would go past the timeout is stopped at
    the timeout, with what it was waiting for cancelled. *)
Definition advance (seconds : N) : Exec unit :=
  fun m =>
    let t := (clock m + seconds)%N in
    if (timeout <? t)%N
    then (Stop TIMED_OUT, mkMachine timeout (history m) (deadLetterQueue m))
    else (Next tt, mkMachine t (history m) (deadLetterQueue m)).

(** [SqsSendMessage], to a queue that takes every message. *)
Definition sendMessage (messageBody : json) : Exec unit :=
  fun m => (Next tt, mkMachine (clock m) (history m)
                               (deadLetterQueue m ++ [messageBody])).

(** *** Lambda functions and the retry loop of [LambdaInvoke] *)

Inductive LambdaOutcome (P : Type) : Type :=
| Returned (Payload : P)
| Threw (Error Cause : string).
Arguments Returned {P} Payload.
Arguments Threw {P} Error Cause.

(** One invocation of a function: how long it ran and how it ended. *)
Record Invocation (P : Type) : Type := mkInvocation {
  elapsed : N;
  outcome : LambdaOutcome P
}.
Arguments mkInvocation {P} elapsed outcome.
Arguments elapsed {P} i.
Arguments outcome {P} i.

Record RetryProps : Type := mkRetry {
  errors : list string;
  interval : N;
  maxAttempts : nat;
  backoffRate : N
}.

(** What [addRetry] and [addCatch] fill in when the source leaves a
    property out. *)
Definition ALL : string := "States.ALL".
Definition defaultRetry : RetryProps := mkRetry [ALL] 1 3 2.

Definition matches (names : list string) (error : string) : bool :=
  existsb (fun name => String.eqb name ALL || String.eqb name error) names.

(** The retrier [LambdaInvoke] gives every task before the retriers of
    the source: [retryOnServiceExceptions] is true unless the source says
    otherwise, and the source does not. *)
Definition retryOnServiceExceptions : RetryProps :=
  mkRetry ["Lambda.ServiceException"; "Lambda.AWSLambdaException";
           "Lambda.SdkClientException"]
          2 6 2.

(** The wait before a retry of a retrier that has made [made] retries. *)
Definition backoff (retry : RetryProps) (made : nat) : N :=
  (interval retry * backoffRate retry ^ N.of_nat made)%N.

(** The retriers of a task, in the order they were added, each with the
    retries it has made. *)
Definition Retriers : Type := list (RetryProps * nat).

Definition fresh (retriers : list RetryProps) : Retriers :=
  map (fun retry => (retry, 0)) retriers.

(** An error is taken by the first retrier that names it.  With a retry
    left, that retrier gives the wait and counts the retry; with none, the
    error is not retried, whatever the retriers after it say. *)
Fixpoint retryAfter (error : string) (retriers : Retriers) : option (N * Retriers) :=
  match retriers with
  | [] => None
  | (retry, made) :: rest =>
      if matches (errors retry) error then
        if Nat.ltb made (maxAttempts retry)
        then Some (backoff retry made, (retry, S made) :: rest)
        else None
      else
        match retryAfter error rest with
        | Some (wait, rest') => Some (wait, (retry, made) :: rest')
        | None => None
        end
  end.

(** The retries the retriers have left, all together. *)
Fixpoint retriesLeft (retriers : Retriers) : nat :=
  match retriers with
  | [] => 0
  | (retry, made) :: rest => (maxAttempts retry - made) + retriesLeft rest
  end.

(** The [attempt]-th invocation of [fn] and, while a retrier takes the
    error it throws and has a retry left, the wait and the next one.  The
    error that is left over is returned, for the catcher of the task.
    [retries] bounds the retries of the loop; [retriesLeft] is enough. *)
Fixpoint invoke {P : Type} (fn : LambdaFunction) (oracle : nat -> Invocation P)
    (retry : Retriers) (attempt retries : nat) : Exec (LambdaOutcome P) :=
  invokeLambda fn ;;
  advance (elapsed (oracle attempt)) ;;
  match outcome (oracle attempt) with
  | Returned payload => ret (Returned payload)
  | Threw error cause =>
      match retryAfter error retry, retries with
      | Some (wait, retry'), S retries' =>
          advance wait ;;
          invoke fn oracle retry' (S attempt) retries'
      | _, _ => ret (Threw error cause)
      end
  end.

(** A task: the loop with no retry made yet. *)
Definition task {P : Type} (fn : LambdaFunction) (oracle : nat -> Invocation P)
    (retriers : list RetryProps) : Exec (LambdaOutcome P) :=
  invoke fn oracle (fresh retriers) 0 (retriesLeft (fresh retriers)).

(** The output of a caught error, which replaces the input of the task:
    [addCatch] is given no [resultPath]. *)
Definition errorOutput (error cause : string) : object :=
  [("Error", JString error); ("Cause", JString cause)].

(** *** Parallel states *)

Definition runBranch {A : Type} (m : Machine) (branch : Exec A) : Result A * Machine :=
  branch (mkMachine (clock m) [] (deadLetterQueue m)).

Fixpoint earliestFailure {A : Type} (runs : list (Result A * Machine)) : option N :=
  match runs with
  | [] => None
  | (Stop FAILED, m) :: rest =>
      match earliestFailure rest with
      | Some t => Some (N.min (clock m) t)
      | None => Some (clock m)
      end
  | _ :: rest => earliestFailure rest
  end.

Fixpoint collect {A : Type} (runs : list (Result A * Machine)) : Result (list A) :=
  match runs with
  | [] => Next []
  | (Next a, _) :: rest =>
      match collect rest with
      | Next l => Next (a :: l)
      | Stop s => Stop s
      end
  | (Stop s, _) :: _ => Stop s
  end.

Definition latest {A : Type} (runs : list (Result A * Machine)) (t : N) : N :=
  fold_right (fun run acc => N.max (clock (snd run)) acc) t runs.

(** All branches start at the same second.  The state fails as soon as one
    branch fails, and what the other branches would have done later does not
    happen; otherwise it ends when the last branch has ended.  The events of
    the branches are listed branch after branch.  No branch of this machine
    sends a message. *)
Definition parallel {A : Type} (branches : list (Exec A)) : Exec (list A) :=
  fun m =>
    let runs := map (runBranch m) branches in
    let events := List.concat (map (fun run => history (snd run)) runs) in
    match earliestFailure runs with
    | Some t =>
        (Stop FAILED,
         mkMachine t (history m ++ filter (fun e => (timeOf e <=? t)%N) events)
                   (deadLetterQueue m))
    | None =>
        (collect runs,
         mkMachine (latest runs (clock m)) (history m ++ events) (deadLetterQueue m))
    end.

(** [parameters] with reference paths only: every key is given the value
    at its path, and the state fails when one path selects nothing. *)
Fixpoint select (parameters : list (string * list step)) (input : json)
  : option object :=
  match parameters with
  | [] => Some []
  | (key, path) :: rest =>
      match jsonPath path input, select rest input with
      | Some v, Some o => Some ((key, v) :: o)
      | _, _ => None
      end
  end.

(** [States.StringToJson(path)]: the text at [path], read as JSON. *)
Definition StringToJsonAt (path : list step) (input : json) : option json :=
  match jsonPath path input with
  | Some (JString text) => States.StringToJson text
  | _ => None
  end.

(* ===================================================================== *)
(** ** The world around one execution *)
(* ===================================================================== *)

(** The [Execution] member of the context object, [$$.Execution]. *)
Record ExecutionContext : Type := mkContext {
  Id : string;
  Name : string;
  RoleArn : string;
  StartTime : string
}.

(** What [resultSelector] keeps of the payload of the catalog builder. *)
Record CatalogPayload : Type := mkCatalogPayload {
  ETag : json;
  VersionId : json
}.

(** The functions are oracles: the n-th invocation of each, within this
    execution, runs for [elapsed] seconds and returns or throws. *)
Record World : Type := mkWorld {
  Execution : ExecutionContext;
  transliterator : DocumentationLanguage -> nat -> Invocation json;
  catalogBuilder : nat -> Invocation json
}.

(* ===================================================================== *)
(** ** The state machine of [Orchestration] *)
(* ===================================================================== *)

(** Every state is a function from its input to the rest of the execution:
    a state runs, then calls the state the source chains to it with
    [next], [when], [otherwise] or [addCatch]. *)

Definition SUPPORTED_LANGUAGES : list DocumentationLanguage := [PYTHON; TYPESCRIPT].

Definition docGenResultsKey : string := "DocGen".

(** The retriers of 'Add to catalog.json' and of the 'Generate ... docs'
    tasks: the one of [LambdaInvoke], then the one [addRetry] is called
    with (lines 81 and 120). *)
Definition addToCatalogRetry : list RetryProps :=
  [retryOnServiceExceptions;
   mkRetry ["Lambda.TooManyRequestsException"] 30 5 (backoffRate defaultRetry)].

Definition docGenRetry : list RetryProps :=
  [retryOnServiceExceptions;
   mkRetry (errors defaultRetry) 30 (maxAttempts defaultRetry)
           (backoffRate defaultRetry)].

(** [resultSelector] of 'Add to catalog.json', on the result of the task. *)
Definition catalogSelector : list (string * list step) :=
  [("ETag", [Field "Payload"; Field "ETag"]);
   ("VersionId", [Field "Payload"; Field "VersionId"])].

(** [$.DocGen[i].error] *)
Definition errorOfBranch (i : nat) : list step :=
  [Field docGenResultsKey; Index i; Field "error"].

(** [Condition.or(...SUPPORTED_LANGUAGES.map((_, i) => test(`$.DocGen[${i}].error`)))] *)
Definition anyBranch (test : list step -> json -> bool) (input : object) : bool :=
  existsb (fun i => test (errorOfBranch i) (JObject input))
          (seq 0 (List.length SUPPORTED_LANGUAGES)).

Section Orchestration.

Variable world : World.

(** 'Fail' and 'Success'. *)
Definition fail (input : object) : Exec object :=
  enter FailState input ;; stop FAILED.

Definition succeed (input : object) : Exec object :=
  enter SuccessState input ;; stop SUCCEEDED.

(** 'Send to Dead Letter Queue': the body is the whole input ([$]), the
    result is discarded, and the next state is 'Fail' (line 93). *)
Definition sendToDeadLetterQueue (input : object) : Exec object :=
  enter SendToDeadLetterQueue input ;;
  sendMessage (JObject input) ;;
  fail input.

(** 'Any Failure?' *)
Definition sendToDlqIfNeeded (input : object) : Exec object :=
  enter AnyFailure input ;;
  if anyBranch isPresent input
  then sendToDeadLetterQueue input
  else succeed input.

(** 'Failed to add to catalog.json' *)
Definition failedToAddToCatalog (input : object) : Exec object :=
  enter FailedToAddToCatalog input ;;
  match StringToJsonAt [Field "Cause"] (JObject input) with
  | Some error =>
      sendToDeadLetterQueue (put "error" (JObject [("error", error)]) input)
  | None => stop FAILED
  end.

(** 'Add to catalog.json': the state fails when [resultSelector] finds
    no value at one of its paths. *)
Definition addToCatalog (input : object) : Exec object :=
  enter AddToCatalog input ;;
  result <- task CatalogBuilder (catalogBuilder world) addToCatalogRetry ;;
  match result with
  | Returned Payload =>
      match select catalogSelector (JObject [("Payload", Payload)]) with
      | Some selected =>
          sendToDlqIfNeeded (put "catalogBuilderOutput" (JObject selected) input)
      | None => stop FAILED
      end
  | Threw error cause =>
      if matches [ALL] error
      then failedToAddToCatalog (errorOutput error cause)
      else stop FAILED
  end.

(** 'Any Success?' *)
Definition anySuccess (input : object) : Exec object :=
  enter AnySuccess input ;;
  if anyBranch isNotPresent input
  then addToCatalog input
  else sendToDlqIfNeeded input.

(** `Failed ${language}` *)
Definition failedLanguage (language : DocumentationLanguage) (input : object)
  : Exec json :=
  enter (FailedLanguage language) input ;;
  match StringToJsonAt [Field "Cause"] (JObject input) with
  | Some error =>
      ret (JObject [("error", error); ("language", JString (languageName language))])
  | None => stop FAILED
  end.

(** `Generate ${language} docs`: [resultSelector] builds [{ result: ... }]
    from the result of the task, [outputPath] keeps [$.result]. *)
Definition generateDocs (language : DocumentationLanguage) (input : object)
  : Exec json :=
  enter (GenerateDocs language) input ;;
  result <- task (Transliterator language) (transliterator world language)
                 docGenRetry ;;
  match result with
  | Returned Payload =>
      let selected :=
        JObject [("result", JObject [("language", JString (languageName language));
                                     ("success", Payload)])] in
      match jsonPath [Field "result"] selected with
      | Some output => ret output
      | None => stop FAILED
      end
  | Threw error cause =>
      if matches [ALL] error
      then failedLanguage language (errorOutput error cause)
      else stop FAILED
  end.

(** 'DocGen' *)
Definition docGen (input : object) : Exec object :=
  enter DocGen input ;;
  results <- parallel (map (fun language => generateDocs language input)
                           SUPPORTED_LANGUAGES) ;;
  anySuccess (put docGenResultsKey (JArray results) input).

(** [$$.Execution] *)
Definition executionObject (input : object) : json :=
  JObject [("Id", JString (Id (Execution world)));
           ("Input", JObject input);
           ("Name", JString (Name (Execution world)));
           ("RoleArn", JString (RoleArn (Execution world)));
           ("StartTime", JString (StartTime (Execution world)))].

(** 'Track Execution Infos', the first state. *)
Definition definition (input : object) : Exec object :=
  enter TrackExecutionInfos input ;;
  match select [("Id", [Field "Id"]);
                ("Name", [Field "Name"]);
                ("RoleArn", [Field "RoleArn"]);
                ("StartTime", [Field "StartTime"])]
               (executionObject input) with
  | Some infos => docGen (put "$TaskExecution" (JObject infos) input)
  | None => stop FAILED
  end.

(** One execution of the state machine on [input]: how it ended and what
    it did. *)
Definition stateMachine (input : object) : ExecutionStatus * Machine :=
  match definition input (mkMachine 0 [] []) with
  | (Next _, m) => (SUCCEEDED, m)
  | (Stop status, m) => (status, m)
  end.

End Orchestration.

(* ===================================================================== *)
(** ** What one reads off an execution *)
(* ===================================================================== *)

Definition status (execution : ExecutionStatus * Machine) : ExecutionStatus :=
  fst execution.

Definition events (execution : ExecutionStatus * Machine) : list Event :=
  history (snd execution).

Definition messages (execution : ExecutionStatus * Machine) : list json :=
  deadLetterQueue (snd execution).

(** The input of the first entry of a state. *)
Fixpoint inputOf (name : StateName) (h : list Event) : option json :=
  match h with
  | [] => None
  | e :: rest =>
      match e with
      | StateEntered _ n input => if stateEqb n name then Some input else inputOf name rest
      | LambdaInvoked _ _ => inputOf name rest
      end
  end.

(** The branch results of a document, and those an execution produced:
    the array 'DocGen' hands to 'Any Success?', none when the execution
    never left 'DocGen'. *)
Definition resultsIn (document : json) : list json :=
  match jsonPath [Field docGenResultsKey] document with
  | Some (JArray results) => results
  | _ => []
  end.

Definition branchResults (h : list Event) : list json :=
  match inputOf AnySuccess h with
  | Some document => resultsIn document
  | None => []
  end.

Definition hasTag (tag : string) (result : json) : bool :=
  isPresent [Field tag] result.

(** The record 'Track Execution Infos' builds, and the key it is kept
    under. *)
Definition executionInfos (world : World) : object :=
  [("Id", JString (Id (Execution world)));
   ("Name", JString (Name (Execution world)));
   ("RoleArn", JString (RoleArn (Execution world)));
   ("StartTime", JString (StartTime (Execution world)))].

Definition taskExecutionKey : string := "$TaskExecution".

(** The keys the states write their results under. *)
Definition resultKeys : list string :=
  [taskExecutionKey; docGenResultsKey; "catalogBuilderOutput"].

(** *** The retry loop, without the clock *)

Section Retry.

Context {P : Type}.
Variable oracle : nat -> Invocation P.

(** What follows invocation [attempt] when the retriers are [retry]: the
    wait and the retriers of the next invocation, or nothing when the
    invocation is not retried. *)
Definition retried (retry : Retriers) (attempt : nat) : option (N * Retriers) :=
  match outcome (oracle attempt) with
  | Returned _ => None
  | Threw error _ => retryAfter error retry
  end.

(** The invocation that settles the task: the first one, from [attempt]
    on, that is not retried. *)
Fixpoint settle (retry : Retriers) (attempt retries : nat) : nat :=
  match retries with
  | O => attempt
  | S retries' =>
      match retried retry attempt with
      | Some (_, retry') => settle retry' (S attempt) retries'
      | None => attempt
      end
  end.

(** The second at which invocation [attempt + k] starts, when invocation
    [attempt] starts at [t] and every invocation between them is retried. *)
Fixpoint startOf (retry : Retriers) (attempt : nat) (t : N) (k : nat) : N :=
  match k with
  | O => t
  | S k' =>
      match retried retry attempt with
      | Some (wait, retry') =>
          startOf retry' (S attempt) (t + elapsed (oracle attempt) + wait)%N k'
      | None => t
      end
  end.

Definition invocations (retry : Retriers) (fn : LambdaFunction) (attempt : nat)
    (t : N) (n : nat) : list Event :=
  map (fun k => LambdaInvoked (startOf retry attempt t k) fn) (seq 0 n).

(** The retriers of invocation [attempt + k], under the same condition. *)
Fixpoint retriersAt (retry : Retriers) (attempt k : nat) : Retriers :=
  match k with
  | O => retry
  | S k' =>
      match retried retry attempt with
      | Some (_, retry') => retriersAt retry' (S attempt) k'
      | None => retry
      end
  end.

End Retry.

(** *** The errors of the invocations *)

(** Whether invocation [k] threw an error that [named] holds of, and how
    many of the invocations before the [k]-th satisfy [p]. *)
Definition threw {P : Type} (oracle : nat -> Invocation P) (named : string -> bool)
    (k : nat) : bool :=
  match outcome (oracle k) with
  | Returned _ => false
  | Threw error _ => named error
  end.

Definition howMany (p : nat -> bool) (k : nat) : nat :=
  List.length (filter p (seq 0 k)).

(** Of two retriers, the errors the first one takes and the errors the
    second one takes. *)
Definition takenByFirst (r1 : RetryProps) (error : string) : bool :=
  matches (errors r1) error.

Definition takenBySecond (r1 r2 : RetryProps) (error : string) : bool :=
  negb (matches (errors r1) error) && matches (errors r2) error.

Definition serviceException (error : string) : bool :=
  existsb (String.eqb error)
          ["Lambda.ServiceException"; "Lambda.AWSLambdaException";
           "Lambda.SdkClientException"].

Definition tooManyRequests (error : string) : bool :=
  String.eqb error "Lambda.TooManyRequestsException".

(** The seconds at which [fn] was invoked, in the order of the history. *)
Definition startTimes (fn : LambdaFunction) (h : list Event) : list N :=
  map timeOf (filter (invoked fn) h).

(* ===================================================================== *)
(** ** The redrive function *)
(* ===================================================================== *)

Module Redrive.

(** Modelled from the spec: the handler behind [RedriveStateMachine]
    ([./redrive-state-machine]) is not among the sources, only the
    construct that deploys it.  The message and the operation follow
    sections 3 and 4.4 of the specification. *)
Record DeadLetterMessage : Type := mkMessage {
  originalInput : object;
  cause : json;
  capturedAt : N
}.

(** Modelled from the spec: the counts [redrive] returns. *)
Record Counts : Type := mkCounts {
  attempted : nat;
  succeeded : nat;
  failed : nat
}.

(** Modelled from the spec: what a redrive leaves behind, that is the
    counts it returns, the messages still in the queue, and the inputs it
    called [start] with. *)
Record Outcome : Type := mkOutcome {
  counts : Counts;
  remaining : list DeadLetterMessage;
  started : list object
}.

(** Modelled from the spec: the queue is drained message by message; the
    [n]-th call of [start] is acknowledged or not; an acknowledged message
    is removed, the others stay in place. *)
Fixpoint drain (start : nat -> object -> bool) (n : nat)
    (queue : list DeadLetterMessage) : Outcome :=
  match queue with
  | [] => mkOutcome (mkCounts 0 0 0) [] []
  | message :: rest =>
      let acknowledged := start n (originalInput message) in
      let later := drain start (S n) rest in
      mkOutcome
        (mkCounts (S (attempted (counts later)))
                  (if acknowledged then S (succeeded (counts later))
                   else succeeded (counts later))
                  (if acknowledged then failed (counts later)
                   else S (failed (counts later))))
        (if acknowledged then remaining later else message :: remaining later)
        (originalInput message :: started later)
  end.

(** Modelled from the spec: [redrive() -> {attempted, succeeded, failed}]. *)
Definition redrive (start : nat -> object -> bool) (queue : list DeadLetterMessage)
  : Outcome :=
  drain start 0 queue.

(** Modelled from the spec: whether the call of [start] for a message,
    given with its position in the queue, is acknowledged. *)
Definition acknowledged (start : nat -> object -> bool)
    (call : nat * DeadLetterMessage) : bool :=
  start (fst call) (originalInput (snd call)).

End Redrive.

(* ===================================================================== *)
(** ** The paths through the machine *)
(* ===================================================================== *)

(** The invocation that settles a task, and the outcome the task is left
    with once its retries are over. *)
Definition settledAt {P : Type} (oracle : nat -> Invocation P)
    (retriers : list RetryProps) : nat :=
  settle oracle (fresh retriers) 0 (retriesLeft (fresh retriers)).

Definition settled {P : Type} (oracle : nat -> Invocation P)
    (retriers : list RetryProps) : LambdaOutcome P :=
  outcome (oracle (settledAt oracle retriers)).

(** The result of a branch whose task is left with [o]: none when the
    cause of the error is not JSON text. *)
Definition branchResult (language : DocumentationLanguage) (o : LambdaOutcome json)
  : option json :=
  match o with
  | Returned Payload =>
      Some (JObject [("language", JString (languageName language));
                     ("success", Payload)])
  | Threw _ cause =>
      match States.StringToJson cause with
      | Some error =>
          Some (JObject [("error", error);
                         ("language", JString (languageName language))])
      | None => None
      end
  end.

(** The events of the branches of 'DocGen'. *)
Definition isBranchEvent (e : Event) : bool :=
  match e with
  | StateEntered _ (GenerateDocs _) _
  | StateEntered _ (FailedLanguage _) _
  | LambdaInvoked _ (Transliterator _) => true
  | _ => false
  end.

Definition entry (t : N) (name : StateName) (input : object) : Event :=
  StateEntered t name (JObject input).

(** The documents along the way: after 'Track Execution Infos', after
    'DocGen', after 'Add to catalog.json', and after 'Failed to add to
    catalog.json'. *)
Definition tracked (world : World) (input : object) : object :=
  put taskExecutionKey (JObject (executionInfos world)) input.

Definition withResults (results : list json) (document : object) : object :=
  put docGenResultsKey (JArray results) document.

Definition withCatalog (Payload : CatalogPayload) (document : object) : object :=
  put "catalogBuilderOutput"
      (JObject [("ETag", ETag Payload); ("VersionId", VersionId Payload)])
      document.

Definition caughtDocument (error cause : string) (structured : json) : object :=
  put "error" (JObject [("error", structured)]) (errorOutput error cause).

(** The invocations of the catalog builder by a task entered at [t], the
    first [n] of them. *)
Definition catalogInvocations (world : World) (t : N) (n : nat) : list Event :=
  invocations (catalogBuilder world) (fresh addToCatalogRetry) CatalogBuilder 0 t n.

Definition catalogSettledAt (world : World) : nat :=
  settledAt (catalogBuilder world) addToCatalogRetry.

(** What [resultSelector] keeps of a payload, when the payload has both
    members. *)
Definition selectedOf (payload : json) : option CatalogPayload :=
  match jsonPath [Field "ETag"] payload, jsonPath [Field "VersionId"] payload with
  | Some etag, Some version => Some (mkCatalogPayload etag version)
  | _, _ => None
  end.

(** From 'Any Failure?' on: status, events and messages. *)
Inductive DlqCheck (t : N) (document : object)
  : ExecutionStatus -> list Event -> list json -> Prop :=
| check_failure :
    anyBranch isPresent document = true ->
    DlqCheck t document FAILED
      [entry t AnyFailure document; entry t SendToDeadLetterQueue document;
       entry t FailState document]
      [JObject document]
| check_success :
    anyBranch isPresent document = false ->
    DlqCheck t document SUCCEEDED
      [entry t AnyFailure document; entry t SuccessState document]
      [].

(** From the end of 'DocGen' on, that is after the entry of 'Any
    Success?' at [t] with [document]. *)
Inductive AfterDocGen (world : World) (t : N) (document : object)
  : ExecutionStatus -> list Event -> list json -> Prop :=
| catalog_skipped status tail queue :
    anyBranch isNotPresent document = false ->
    DlqCheck t document status tail queue ->
    AfterDocGen world t document status tail queue
| catalog_timed_out n :
    anyBranch isNotPresent document = true ->
    1 <= n <= S (catalogSettledAt world) ->
    AfterDocGen world t document TIMED_OUT
      (entry t AddToCatalog document :: catalogInvocations world t n)
      []
| catalog_returned payload Payload t' status tail queue :
    anyBranch isNotPresent document = true ->
    settled (catalogBuilder world) addToCatalogRetry = Returned payload ->
    selectedOf payload = Some Payload ->
    DlqCheck t' (withCatalog Payload document) status tail queue ->
    AfterDocGen world t document status
      (entry t AddToCatalog document
       :: catalogInvocations world t (S (catalogSettledAt world)) ++ tail)
      queue
| catalog_unselected payload :
    anyBranch isNotPresent document = true ->
    settled (catalogBuilder world) addToCatalogRetry = Returned payload ->
    selectedOf payload = None ->
    AfterDocGen world t document FAILED
      (entry t AddToCatalog document
       :: catalogInvocations world t (S (catalogSettledAt world)))
      []
| catalog_threw error cause structured t' :
    anyBranch isNotPresent document = true ->
    settled (catalogBuilder world) addToCatalogRetry = Threw error cause ->
    States.StringToJson cause = Some structured ->
    AfterDocGen world t document FAILED
      (entry t AddToCatalog document
       :: catalogInvocations world t (S (catalogSettledAt world))
       ++ [entry t' FailedToAddToCatalog (errorOutput error cause);
           entry t' SendToDeadLetterQueue (caughtDocument error cause structured);
           entry t' FailState (caughtDocument error cause structured)])
      [JObject (caughtDocument error cause structured)]
| catalog_threw_text error cause t' :
    anyBranch isNotPresent document = true ->
    settled (catalogBuilder world) addToCatalogRetry = Threw error cause ->
    States.StringToJson cause = None ->
    AfterDocGen world t document FAILED
      (entry t AddToCatalog document
       :: catalogInvocations world t (S (catalogSettledAt world))
       ++ [entry t' FailedToAddToCatalog (errorOutput error cause)])
      [].

(** The invocation at which the task of a branch is settled. *)
Definition branchSettledAt (world : World) (language : DocumentationLanguage) : nat :=
  settledAt (transliterator world language) docGenRetry.

(** What is known of the events of the branches of a 'DocGen' entered at
    second 0: they are events of branches, and the invocations of every
    transliterator are the first ones of the retry loop of its task, none
    of them after the one that settles the task. *)
Definition branchEvents (world : World) (branches : list Event) : Prop :=
  (forall e, In e branches -> isBranchEvent e = true)
  /\ (forall language,
        exists n,
          n <= S (branchSettledAt world language)
          /\ filter (invoked (Transliterator language)) branches
             = invocations (transliterator world language) (fresh docGenRetry)
                           (Transliterator language) 0 0 n).

(** The events of one branch, entered at [start]. *)
Definition ownEvents (world : World) (language : DocumentationLanguage) (start : N)
    (evs : list Event) : Prop :=
  (forall e, In e evs -> isBranchEvent e = true)
  /\ (forall other, other <> language ->
                    count (invoked (Transliterator other)) evs = 0)
  /\ (exists n,
        n <= S (branchSettledAt world language)
        /\ filter (invoked (Transliterator language)) evs
           = invocations (transliterator world language) (fresh docGenRetry)
                         (Transliterator language) 0 start n).

(** A whole execution.  Either 'DocGen' does not end: the timeout comes
    first, or a branch fails, which takes an error whose cause is not JSON
    text.  Or every branch has a result and the execution goes on from 'Any
    Success?'. *)
Inductive Path (world : World) (input : object)
  : ExecutionStatus -> list Event -> list json -> Prop :=
| docGen_stopped status branches :
    branchEvents world branches ->
    status = TIMED_OUT
    \/ (status = FAILED /\
        exists language,
          branchResult language
            (settled (transliterator world language) docGenRetry) = None) ->
    Path world input status
      (entry 0 TrackExecutionInfos input
       :: entry 0 DocGen (tracked world input)
       :: branches)
      []
| docGen_ended branches python typescript t status tail queue :
    branchEvents world branches ->
    (forall language,
        count (invoked (Transliterator language)) branches
        = S (branchSettledAt world language)) ->
    branchResult PYTHON (settled (transliterator world PYTHON) docGenRetry)
    = Some python ->
    branchResult TYPESCRIPT (settled (transliterator world TYPESCRIPT) docGenRetry)
    = Some typescript ->
    AfterDocGen world t (withResults [python; typescript] (tracked world input))
                status tail queue ->
    Path world input status
      (entry 0 TrackExecutionInfos input
       :: entry 0 DocGen (tracked world input)
       :: branches
       ++ entry t AnySuccess (withResults [python; typescript] (tracked world input))
       :: tail)
      queue.

(** The states outside the branches of 'DocGen'. *)
Definition mainline (name : StateName) : bool :=
  match name with
  | GenerateDocs _ | FailedLanguage _ => false
  | _ => true
  end.

(* ===================================================================== *)
(** ** Time *)
(* ===================================================================== *)

(** A machine is on time when it has not gone past the timeout and none
    of its events lies after its clock. *)
Definition onTime (m : Machine) : Prop :=
  (clock m <= timeout)%N
  /\ forall e, In e (history m) -> (timeOf e <= clock m)%N.

(** A computation keeps time when, from a machine that is on time, it
    leaves one that is on time and not earlier, with the clock at the
    timeout when the timeout stopped it. *)
Definition keepsTime {A : Type} (c : Exec A) : Prop :=
  forall m,
    onTime m ->
    onTime (snd (c m))
    /\ (clock m <= clock (snd (c m)))%N
    /\ (fst (c m) = Stop TIMED_OUT -> clock (snd (c m)) = timeout).

(** A computation is done in [cost] seconds when, started that long before
    the timeout at the latest, it is not stopped by the timeout and takes
    no longer. *)
Definition inTime {A : Type} (cost : N) (c : Exec A) : Prop :=
  forall m,
    (clock m + cost <= timeout)%N ->
    fst (c m) <> Stop TIMED_OUT
    /\ (clock (snd (c m)) <= clock m + cost)%N.

(** The seconds a retrier that has made [made] retries waits in all when
    it makes [retries] more, and the seconds retriers wait in all when each
    makes all the retries it has left. *)
Fixpoint waits (retry : RetryProps) (made retries : nat) : N :=
  match retries with
  | O => 0
  | S retries' => (backoff retry made + waits retry (S made) retries')%N
  end.

Fixpoint waitsLeft (retriers : Retriers) : N :=
  match retriers with
  | [] => 0
  | (retry, made) :: rest =>
      (waits retry made (maxAttempts retry - made) + waitsLeft rest)%N
  end.

(* ===================================================================== *)
(** ** The generated function constructs *)
(* ===================================================================== *)

(** [src/backend/ingestion/ingestion.ts] and its two siblings: each
    construct hands [lambda.Function] the properties it was given, under a
    default description and with its own runtime, handler and code. *)
Module Functions.

(** The values the properties of a function take here.  A property of an
    object can hold [undefined]. *)
Inductive Value : Type :=
| Undefined
| Text (s : string)
| Number (n : N)
| Runtime (name : string)
| Code (asset : string).

(** An object: its own properties, in the order they were created. *)
Definition Props := list (string * Value).

Fixpoint get (key : string) (o : Props) : option Value :=
  match o with
  | [] => None
  | (k, v) :: rest => if String.eqb k key then Some v else get key rest
  end.

(** Defining a property: an existing property keeps its place and takes the
    new value, a new one comes last. *)
Fixpoint assign (key : string) (value : Value) (o : Props) : Props :=
  match o with
  | [] => [(key, value)]
  | (k, v) :: rest =>
      if String.eqb k key then (k, value) :: rest
      else (k, v) :: assign key value rest
  end.

(** The members of an object literal: [key: value] and [...source].
    Spreading [undefined] defines nothing. *)
Inductive Member : Type :=
| Property (key : string) (value : Value)
| Spread (source : option Props).

Definition spread (source : Props) (o : Props) : Props :=
  fold_left (fun o' member => assign (fst member) (snd member) o') source o.

Definition define (o : Props) (member : Member) : Props :=
  match member with
  | Property key value => assign key value o
  | Spread (Some source) => spread source o
  | Spread None => o
  end.

(** An object literal defines its members from left to right. *)
Definition objectLiteral (members : list Member) : Props :=
  fold_left define members [].

Definition keys (o : Props) : list string := map fst o.

Definition NODEJS_16_X : Value := Runtime "nodejs16.x".

Definition fromAsset (path : string) : Value := Code path.

Section Constructs.

(** [path.join], of the platform the constructs are synthesized on, and
    [__dirname]. *)
Variable join : string -> string -> string.
Variable dirname : string.

(** The properties each constructor passes to [super]. *)
Definition Ingestion (props : option Props) : Props :=
  objectLiteral
    [Property "description" (Text "backend/ingestion/ingestion.lambda.ts");
     Spread props;
     Property "runtime" NODEJS_16_X;
     Property "handler" (Text "index.handler");
     Property "code" (fromAsset (join dirname "/ingestion.lambda.bundle"))].

Definition HttpGetFunction (props : option Props) : Props :=
  objectLiteral
    [Property "description" (Text "monitoring/http-get-function.lambda.ts");
     Spread props;
     Property "runtime" NODEJS_16_X;
     Property "handler" (Text "index.handler");
     Property "code" (fromAsset (join dirname "/http-get-function.lambda.bundle"))].

Definition ReleaseNotesTrigger (props : option Props) : Props :=
  objectLiteral
    [Property "description"
              (Text "backend/release-notes/release-notes-trigger.lambda.ts");
     Spread props;
     Property "runtime" NODEJS_16_X;
     Property "handler" (Text "index.handler");
     Property "code" (fromAsset (join dirname "/release-notes-trigger.lambda.bundle"))].

End Constructs.

(** What [props] gives for [key], if anything. *)
Definition given (key : string) (props : option Props) : option Value :=
  match props with
  | Some o => get key o
  | None => None
  end.

(** The keys of an object are distinct. *)
Definition wellFormed (props : option Props) : Prop :=
  match props with
  | Some o => NoDup (keys o)
  | None => True
  end.

(** Properties a caller may pass, and one that tries to choose the runtime
    and the handler. *)
Definition tuned : Props :=
  [("memorySize", Number 1024);
   ("description", Text "Ingests new package versions");
   ("timeout", Number 900)].

Definition overriding : Props :=
  [("runtime", Runtime "python3.9"); ("handler", Text "main.run")].

End Functions.

(* ===================================================================== *)
(** ** Some executions *)
(* ===================================================================== *)

Module Scenarios.

Definition execution : ExecutionContext :=
  mkContext "arn:aws:states:us-east-1:123456789012:execution:backend:one"
            "one"
            "arn:aws:iam::123456789012:role/backend"
            "2021-06-01T00:00:00.000Z".

Definition workItem : object :=
  [("pkg", JString "foo"); ("version", JString "1.0.0")].

(** A transliterator that returns after a minute, and one that throws
    after ten seconds, with the cause a Lambda function reports. *)
Definition documented : Invocation json :=
  mkInvocation 60 (Returned (JObject [("generated", JBool true)])).

Definition failureText : string :=
  "{" ++ States.quoted "errorType" ++ ":" ++ States.quoted "Error" ++ ","
      ++ States.quoted "errorMessage" ++ ":" ++ States.quoted "boom" ++ "}".

Definition broken {P : Type} : Invocation P :=
  mkInvocation 10 (Threw "Error" failureText).

(** A throttled invocation: the cause is the text of the service. *)
Definition throttled {P : Type} : Invocation P :=
  mkInvocation 1
    (Threw "Lambda.TooManyRequestsException"
           "Rate Exceeded. (Service: AWSLambda; Status Code: 429; Error Code: TooManyRequestsException)").

(** A function that runs into its own timeout of fifteen minutes. *)
Definition stuck {P : Type} : Invocation P :=
  mkInvocation 900 (Threw "Lambda.Unknown" "{}").

Definition uploaded : Invocation json :=
  mkInvocation 5 (Returned (JObject [("ETag", JString "0x8D9");
                                     ("VersionId", JString "3")])).

Definition bothSucceed : World :=
  mkWorld execution (fun _ _ => documented) (fun _ => uploaded).

Definition oneFails : World :=
  mkWorld execution
          (fun language _ =>
             match language with PYTHON => documented | TYPESCRIPT => broken end)
          (fun _ => uploaded).

Definition bothFail : World :=
  mkWorld execution (fun _ _ => broken) (fun _ => uploaded).

Definition throttledFourTimes : World :=
  mkWorld execution (fun _ _ => documented)
          (fun n => if Nat.ltb n 4 then throttled else uploaded).

Definition catalogThrottled : World :=
  mkWorld execution (fun _ _ => documented) (fun _ => throttled).

Definition catalogBroken : World :=
  mkWorld execution (fun _ _ => documented) (fun _ => broken).

Definition branchThrottled : World :=
  mkWorld execution
          (fun language _ =>
             match language with PYTHON => throttled | TYPESCRIPT => documented end)
          (fun _ => uploaded).

Definition branchStuck : World :=
  mkWorld execution
          (fun language _ =>
             match language with PYTHON => stuck | TYPESCRIPT => documented end)
          (fun _ => uploaded).

(** The document 'Any Success?' is entered with. *)
Definition aggregated (world : World) : object :=
  match inputOf AnySuccess (events (stateMachine world workItem)) with
  | Some (JObject document) => document
  | _ => []
  end.

(** An invocation the Lambda service fails to make. *)
Definition unavailable {P : Type} : Invocation P :=
  mkInvocation 3
    (Threw "Lambda.ServiceException"
           "Service Unavailable (Service: AWSLambda; Status Code: 503; Error Code: ServiceException)").

(** A catalog builder that writes to a bucket without versions: the
    payload has no [VersionId]. *)
Definition unversioned : World :=
  mkWorld execution (fun _ _ => documented)
          (fun _ => mkInvocation 5 (Returned (JObject [("ETag", JString "0x8D9")]))).

Definition unavailableOnce : World :=
  mkWorld execution (fun _ _ => documented)
          (fun n => if Nat.eqb n 0 then unavailable else uploaded).

Definition branchUnavailable : World :=
  mkWorld execution
          (fun language n =>
             match language with
             | PYTHON => if Nat.ltb n 4 then unavailable else documented
             | TYPESCRIPT => documented
             end)
          (fun _ => uploaded).

(** A work item that is the message a former execution left in the
    queue, started again as it is: it has the results of that execution
    in it. *)
Definition redriven : object :=
  match messages (stateMachine bothFail workItem) with
  | JObject message :: _ => message
  | _ => []
  end.

End Scenarios.

(* ===================================================================== *)
(** * Properties *)
(* ===================================================================== *)

Example StringToJson_object :
  States.StringToJson
    ("{" ++ States.quoted "errorType" ++ ": " ++ States.quoted "Error" ++ ", "
         ++ States.quoted "trace" ++ ": [1, -2.5e3, true, null, {}]}")
  = Some (JObject [("errorType", JString "Error");
                   ("trace", JArray [JNumber "1"; JNumber "-2.5e3"; JBool true;
                                     JNull; JObject []])]).
Proof. vm_compute. reflexivity. Qed.

(** A key written twice keeps its place and takes the later value; an
    escape stands for its character, a surrogate pair for one. *)
Example StringToJson_repeated_key :
  States.StringToJson
    ("{" ++ States.quoted "a" ++ ":1," ++ States.quoted "b" ++ ":2,"
         ++ States.quoted "a" ++ ":3}")
  = Some (JObject [("a", JNumber "3"); ("b", JNumber "2")]).
Proof. vm_compute. reflexivity. Qed.

Example StringToJson_escapes :
  let u := String States.backslash "u" in
  option_map
    (fun j => match j with
              | JString s => map nat_of_ascii (list_ascii_of_string s)
              | _ => []
              end)
    (States.StringToJson
       (States.quoted (u ++ "0041" ++ u ++ "00e9" ++ u ++ "d83d" ++ u ++ "de00")))
  = Some [65; 195; 169; 240; 159; 152; 128].
Proof. vm_compute. reflexivity. Qed.

Example StringToJson_plain_text :
  States.StringToJson "Rate Exceeded. (Service: AWSLambda; Status Code: 429)" = None.
Proof. vm_compute. reflexivity. Qed.

Local Open Scope list_scope.

(** ** Documents *)

Lemma lookup_put_same key value o : lookup key (put key value o) = Some value.
Proof.
  induction o as [|[k v] rest IH]; simpl.
  - now rewrite String.eqb_refl.
  - destruct (String.eqb k key) eqn:E; simpl; rewrite E; auto.
Qed.

Lemma lookup_put_other key key' value o :
  key <> key' -> lookup key' (put key value o) = lookup key' o.
Proof.
  intros Hne. induction o as [|[k v] rest IH]; simpl.
  - destruct (String.eqb_spec key key'); congruence.
  - destruct (String.eqb_spec k key) as [->|Hk]; simpl.
    + destruct (String.eqb_spec key key'); congruence.
    + now rewrite IH.
Qed.

Lemma matches_ALL names error : In ALL names -> matches names error = true.
Proof.
  intros Hin. unfold matches. apply existsb_exists.
  exists ALL. split; [assumption|]. now rewrite String.eqb_refl.
Qed.

Lemma matches_only name error : matches [name] error = true -> name = ALL \/ name = error.
Proof.
  unfold matches; simpl. rewrite orb_false_r.
  intros H. apply orb_true_iff in H.
  destruct H as [H|H]; apply String.eqb_eq in H; auto.
Qed.

(** ** Counting events *)

Lemma count_app p h1 h2 : count p (h1 ++ h2) = count p h1 + count p h2.
Proof. unfold count. now rewrite filter_app, length_app. Qed.

Lemma count_cons p e h : count p (e :: h) = (if p e then 1 else 0) + count p h.
Proof. unfold count. simpl. now destruct (p e). Qed.

Lemma count_nil p : count p [] = 0.
Proof. reflexivity. Qed.

Lemma count_none p h : (forall e, In e h -> p e = false) -> count p h = 0.
Proof.
  unfold count. induction h as [|e h IH]; simpl; intros Hp; [reflexivity|].
  rewrite (Hp e (or_introl eq_refl)). apply IH. intros; apply Hp; now right.
Qed.

Lemma count_all p h : (forall e, In e h -> p e = true) -> count p h = List.length h.
Proof.
  unfold count. induction h as [|e h IH]; simpl; intros Hp; [reflexivity|].
  rewrite (Hp e (or_introl eq_refl)); simpl. f_equal. apply IH.
  intros; apply Hp; now right.
Qed.

Lemma count_filter_le p q h : count p (filter q h) <= count p h.
Proof.
  unfold count. induction h as [|e h IH]; simpl; [lia|].
  destruct (q e); simpl; destruct (p e); simpl; lia.
Qed.

(** ** The retry loop *)

Section RetryFacts.

Context {P : Type}.
Variable fn : LambdaFunction.
Variable oracle : nat -> Invocation P.

(** A retry uses up one of the retries that are left, and its wait is one
    of the waits that are left. *)
Lemma retryAfter_left error : forall retry wait retry',
  retryAfter error retry = Some (wait, retry') ->
  retriesLeft retry = S (retriesLeft retry')
  /\ waitsLeft retry = (wait + waitsLeft retry')%N.
Proof.
  induction retry as [|[r made] rest IH]; intros wait retry'; simpl; [discriminate|].
  destruct (matches (errors r) error).
  - destruct (Nat.ltb_spec made (maxAttempts r)) as [Hlt|]; [|discriminate].
    intros [= <- <-]. simpl.
    replace (maxAttempts r - made) with (S (maxAttempts r - S made)) by lia.
    simpl. split; [reflexivity|lia].
  - destruct (retryAfter error rest) as [[w rest']|]; [|discriminate].
    intros [= <- <-]. destruct (IH w rest' eq_refl) as [H1 H2]. simpl.
    rewrite H1, H2. split; lia.
Qed.

Lemma retried_left retry attempt wait retry' :
  retried oracle retry attempt = Some (wait, retry') ->
  retriesLeft retry = S (retriesLeft retry')
  /\ waitsLeft retry = (wait + waitsLeft retry')%N.
Proof.
  unfold retried. destruct (outcome (oracle attempt)); [discriminate|].
  apply retryAfter_left.
Qed.

Lemma settle_S retry attempt retries :
  settle oracle retry attempt (S retries)
  = match retried oracle retry attempt with
    | Some (_, retry') => settle oracle retry' (S attempt) retries
    | None => attempt
    end.
Proof. reflexivity. Qed.

Lemma settle_bounds retries : forall retry attempt,
  attempt <= settle oracle retry attempt retries <= attempt + retries.
Proof.
  induction retries as [|r IH]; intros retry attempt; simpl; [lia|].
  destruct (retried oracle retry attempt) as [[wait retry']|]; [|lia].
  specialize (IH retry' (S attempt)). lia.
Qed.

(** The loop never stops for want of [retries]: with as many as the
    retriers have left, more change nothing. *)
Lemma settle_enough retries : forall retry attempt,
  retriesLeft retry <= retries ->
  settle oracle retry attempt retries
  = settle oracle retry attempt (retriesLeft retry).
Proof.
  induction retries as [|r IH]; intros retry attempt Hle.
  - now replace (retriesLeft retry) with 0 by lia.
  - rewrite settle_S.
    destruct (retried oracle retry attempt) as [[wait retry']|] eqn:E.
    + destruct (retried_left _ _ _ _ E) as [Hl _]. rewrite Hl, settle_S, E.
      rewrite IH by lia. reflexivity.
    + destruct (retriesLeft retry); [reflexivity|]. now rewrite settle_S, E.
Qed.

Lemma invoke_enough retries : forall retry attempt,
  retriesLeft retry <= retries ->
  invoke fn oracle retry attempt retries
  = invoke fn oracle retry attempt (retriesLeft retry).
Proof.
  induction retries as [|r IH]; intros retry attempt Hle.
  - now replace (retriesLeft retry) with 0 by lia.
  - simpl. destruct (outcome (oracle attempt)) as [p|error cause] eqn:Eo.
    + destruct (retriesLeft retry); simpl; now rewrite Eo.
    + destruct (retryAfter error retry) as [[wait retry']|] eqn:E.
      * destruct (retryAfter_left _ _ _ _ E) as [Hl _]. rewrite Hl. simpl.
        rewrite Eo, E. rewrite IH by lia. reflexivity.
      * destruct (retriesLeft retry); simpl; now rewrite Eo, E.
Qed.

(** Every invocation before the settling one was retried, and the
    settling one is not, when the retries are enough. *)
Lemma settle_retried retries : forall retry attempt k,
  attempt + k < settle oracle retry attempt retries ->
  retried oracle (retriersAt oracle retry attempt k) (attempt + k) <> None.
Proof.
  induction retries as [|r IH]; intros retry attempt k; simpl; [lia|].
  destruct (retried oracle retry attempt) as [[wait retry']|] eqn:E; [|lia].
  intros Hlt. destruct k as [|k].
  - rewrite Nat.add_0_r. simpl. now rewrite E.
  - simpl. rewrite E.
    replace (attempt + S k) with (S attempt + k) by lia.
    apply IH. lia.
Qed.

Lemma settle_last retries : forall retry attempt,
  retriesLeft retry <= retries ->
  let last := settle oracle retry attempt retries in
  retried oracle (retriersAt oracle retry attempt (last - attempt)) last = None.
Proof.
  induction retries as [|r IH]; intros retry attempt Hle; cbn zeta.
  - simpl. rewrite Nat.sub_diag. simpl.
    destruct (retried oracle retry attempt) as [[wait retry']|] eqn:E; [|reflexivity].
    destruct (retried_left _ _ _ _ E) as [Hl _]. lia.
  - rewrite settle_S.
    destruct (retried oracle retry attempt) as [[wait retry']|] eqn:E.
    + destruct (retried_left _ _ _ _ E) as [Hl _].
      pose proof (settle_bounds r retry' (S attempt)) as Hb.
      replace (settle oracle retry' (S attempt) r - attempt)
        with (S (settle oracle retry' (S attempt) r - S attempt)) by lia.
      simpl. rewrite E. apply IH. lia.
    + rewrite Nat.sub_diag. simpl. exact E.
Qed.

Lemma startOf_S retry attempt t k wait retry' :
  retried oracle retry attempt = Some (wait, retry') ->
  startOf oracle retry attempt t (S k)
  = startOf oracle retry' (S attempt) (t + elapsed (oracle attempt) + wait)%N k.
Proof. intros H. simpl. now rewrite H. Qed.

Lemma invocations_S retry attempt t n wait retry' :
  retried oracle retry attempt = Some (wait, retry') ->
  invocations oracle retry fn attempt t (S n)
  = LambdaInvoked t fn
    :: invocations oracle retry' fn (S attempt)
         (t + elapsed (oracle attempt) + wait)%N n.
Proof.
  intros H. unfold invocations. simpl seq. simpl map. f_equal.
  rewrite <- seq_shift, map_map. apply map_ext.
  intros k. now rewrite (startOf_S _ _ _ _ _ _ H).
Qed.

Lemma startOf_le k : forall retry attempt t,
  (t <= startOf oracle retry attempt t k)%N.
Proof.
  induction k as [|k IH]; intros retry attempt t; simpl; [lia|].
  destruct (retried oracle retry attempt) as [[wait retry']|]; [|lia].
  specialize (IH retry' (S attempt) (t + elapsed (oracle attempt) + wait)%N). lia.
Qed.

Lemma startOf_step k : forall retry attempt t,
  (startOf oracle retry attempt t k <= startOf oracle retry attempt t (S k))%N.
Proof.
  induction k as [|k IH]; intros retry attempt t.
  - apply startOf_le.
  - simpl. destruct (retried oracle retry attempt) as [[wait retry']|]; [|lia].
    apply (IH retry' (S attempt)).
Qed.

Lemma startOf_mono retry attempt t j k :
  j <= k ->
  (startOf oracle retry attempt t j <= startOf oracle retry attempt t k)%N.
Proof.
  induction 1 as [|k Hle IH]; [lia|].
  pose proof (startOf_step k retry attempt t). lia.
Qed.

Lemma invocations_last retry attempt t n :
  invocations oracle retry fn attempt t (S n)
  = invocations oracle retry fn attempt t n
    ++ [LambdaInvoked (startOf oracle retry attempt t n) fn].
Proof. unfold invocations. now rewrite seq_S, map_app. Qed.

(** Of the invocations of a loop, those that come before a given second
    are the first ones. *)
Lemma filter_invocations keep retry attempt t n :
  (forall e e', (timeOf e <= timeOf e')%N -> keep e' = true -> keep e = true) ->
  exists n',
    n' <= n
    /\ filter keep (invocations oracle retry fn attempt t n)
       = invocations oracle retry fn attempt t n'.
Proof.
  intros Hkeep. induction n as [|n (n' & Hle & IH)].
  - exists 0. split; [lia|reflexivity].
  - rewrite invocations_last, filter_app. simpl.
    destruct (keep (LambdaInvoked (startOf oracle retry attempt t n) fn)) eqn:E.
    + exists (S n). split; [lia|]. rewrite invocations_last. f_equal.
      apply forallb_filter_id. apply forallb_forall. intros e He.
      unfold invocations in He. apply in_map_iff in He as (k & <- & Hk).
      apply in_seq in Hk.
      assert (Hkn : k <= n) by lia.
      pose proof (startOf_mono retry attempt t k n Hkn) as Hmono.
      exact (Hkeep (LambdaInvoked (startOf oracle retry attempt t k) fn)
                   (LambdaInvoked (startOf oracle retry attempt t n) fn) Hmono E).
    + exists n'. split; [lia|]. now rewrite app_nil_r.
Qed.

Lemma filter_invoked_invocations retry fn' attempt t n :
  filter (invoked fn') (invocations oracle retry fn attempt t n)
  = if functionEqb fn fn' then invocations oracle retry fn attempt t n else [].
Proof.
  unfold invocations. induction (seq 0 n) as [|k l IH]; simpl.
  - now destruct (functionEqb fn fn').
  - rewrite IH. now destruct (functionEqb fn fn').
Qed.

Lemma invocations_1 retry attempt t :
  invocations oracle retry fn attempt t 1 = [LambdaInvoked t fn].
Proof. reflexivity. Qed.

Lemma invocations_length retry attempt t n :
  List.length (invocations oracle retry fn attempt t n) = n.
Proof. unfold invocations. now rewrite length_map, length_seq. Qed.

Lemma invocations_invoked retry attempt t n e :
  In e (invocations oracle retry fn attempt t n) -> exists t', e = LambdaInvoked t' fn.
Proof.
  unfold invocations. rewrite in_map_iff. intros (k & <- & _). eauto.
Qed.

(** One turn of the loop. *)
Lemma invoke_step retry retries attempt m :
  invoke fn oracle retry attempt retries m
  = let h := history m ++ [LambdaInvoked (clock m) fn] in
    let t := (clock m + elapsed (oracle attempt))%N in
    if (timeout <? t)%N
    then (Stop TIMED_OUT, mkMachine timeout h (deadLetterQueue m))
    else
      match retried oracle retry attempt, retries with
      | Some (wait, retry'), S retries' =>
          if (timeout <? t + wait)%N
          then (Stop TIMED_OUT, mkMachine timeout h (deadLetterQueue m))
          else invoke fn oracle retry' (S attempt) retries'
                      (mkMachine (t + wait) h (deadLetterQueue m))
      | _, _ => (Next (outcome (oracle attempt)), mkMachine t h (deadLetterQueue m))
      end.
Proof.
  cbn zeta. unfold retried.
  destruct retries as [|r]; simpl; unfold bind, invokeLambda, advance; simpl;
    destruct (timeout <? clock m + elapsed (oracle attempt))%N; try reflexivity;
    destruct (outcome (oracle attempt)) as [p|e c]; simpl; try reflexivity;
    destruct (retryAfter e retry) as [[wait retry']|]; simpl; try reflexivity.
  unfold bind. simpl.
  destruct (timeout <? _)%N; reflexivity.
Qed.

(** A task either settles, with the outcome of its settling invocation and
    after the invocations up to it, or is cut short by the timeout. *)
Lemma invoke_run retries : forall retry attempt m,
  let last := settle oracle retry attempt retries in
  invoke fn oracle retry attempt retries m
  = (Next (outcome (oracle last)),
     mkMachine (startOf oracle retry attempt (clock m) (last - attempt)
                + elapsed (oracle last))%N
               (history m
                ++ invocations oracle retry fn attempt (clock m) (S (last - attempt)))
               (deadLetterQueue m))
  \/ exists n,
       1 <= n <= S (last - attempt) /\
       invoke fn oracle retry attempt retries m
       = (Stop TIMED_OUT,
          mkMachine timeout
                    (history m ++ invocations oracle retry fn attempt (clock m) n)
                    (deadLetterQueue m)).
Proof.
  induction retries as [|r IH]; intros retry attempt m; cbn zeta;
    rewrite invoke_step; cbn zeta; simpl settle.
  - destruct (timeout <? _)%N.
    + right. exists 1. split; [lia|]. reflexivity.
    + left. rewrite Nat.sub_diag.
      destruct (retried oracle retry attempt) as [[wait retry']|]; reflexivity.
  - destruct (timeout <? clock m + elapsed (oracle attempt))%N.
    { right. exists 1. split; [lia|]. reflexivity. }
    destruct (retried oracle retry attempt) as [[wait retry']|] eqn:E.
    2:{ left. rewrite Nat.sub_diag. reflexivity. }
    destruct (timeout <? _)%N.
    { right. exists 1. split; [lia|]. reflexivity. }
    pose proof (settle_bounds r retry' (S attempt)) as Hb.
    replace (settle oracle retry' (S attempt) r - attempt)
      with (S (settle oracle retry' (S attempt) r - S attempt)) by lia.
    match goal with |- context [invoke _ _ _ _ _ ?m1] =>
      destruct (IH retry' (S attempt) m1) as [H|(n & Hn & H)]; rewrite H; clear H; simpl
    end.
    + left. f_equal. f_equal.
      * now rewrite E.
      * rewrite <- app_assoc. simpl. f_equal.
        now rewrite (invocations_S _ _ _ _ _ _ E).
    + right. exists (S n). split; [lia|]. f_equal. f_equal.
      rewrite <- app_assoc. simpl. f_equal.
      now rewrite (invocations_S _ _ _ _ _ _ E).
Qed.

Lemma retriersAt_S retry attempt k wait retry' :
  retried oracle retry attempt = Some (wait, retry') ->
  retriersAt oracle retry attempt (S k) = retriersAt oracle retry' (S attempt) k.
Proof. intros H. simpl. now rewrite H. Qed.

Lemma retried_after retry attempt k wait retry' :
  retried oracle retry attempt = Some (wait, retry') ->
  (forall j, j < S k ->
             retried oracle (retriersAt oracle retry attempt j) (attempt + j) <> None) ->
  forall j, j < k ->
            retried oracle (retriersAt oracle retry' (S attempt) j) (S attempt + j)
            <> None.
Proof.
  intros E H j Hj. assert (Hlt : S j < S k) by lia. specialize (H (S j) Hlt).
  rewrite (retriersAt_S _ _ _ _ _ E) in H.
  now replace (attempt + S j) with (S attempt + j) in H by lia.
Qed.

(** The retry after invocation [attempt + k], when the invocations before
    it were all retried: the next invocation starts after the invocation
    and the wait of the retrier, and goes on with the retriers the retry
    leaves. *)
Lemma startOf_next k : forall retry attempt t wait retry',
  (forall j, j < k ->
             retried oracle (retriersAt oracle retry attempt j) (attempt + j) <> None) ->
  retried oracle (retriersAt oracle retry attempt k) (attempt + k) = Some (wait, retry') ->
  startOf oracle retry attempt t (S k)
  = (startOf oracle retry attempt t k + elapsed (oracle (attempt + k)) + wait)%N
  /\ retriersAt oracle retry attempt (S k) = retry'.
Proof.
  induction k as [|k IH]; intros retry attempt t wait retry' Hall Hk.
  - simpl in Hk. rewrite Nat.add_0_r in *. simpl. rewrite Hk. split; reflexivity.
  - destruct (retried oracle retry attempt) as [[w0 r0]|] eqn:E0.
    2:{ exfalso. apply (Hall 0); [lia|]. simpl. now rewrite Nat.add_0_r. }
    rewrite (retriersAt_S _ _ _ _ _ E0) in Hk.
    replace (attempt + S k) with (S attempt + k) in * by lia.
    destruct (IH r0 (S attempt) (t + elapsed (oracle attempt) + w0)%N wait retry'
                 (retried_after _ _ _ _ _ E0 Hall) Hk) as [H1 H2].
    split.
    + rewrite (startOf_S _ _ _ (S k) _ _ E0), (startOf_S _ _ _ k _ _ E0). exact H1.
    + rewrite (retriersAt_S _ _ (S k) _ _ E0). exact H2.
Qed.

End RetryFacts.


(** ** The states, one by one *)

Arguments States.StringToJson : simpl never.
Arguments invoke : simpl never.
Arguments matches : simpl never.
Arguments anyBranch : simpl never.
Arguments put : simpl never.
Arguments settle : simpl never.
Arguments startOf : simpl never.
Arguments invocations : simpl never.
Arguments retriersAt : simpl never.
Arguments retryAfter : simpl never.
Arguments fresh : simpl never.
Arguments retriesLeft : simpl never.
Arguments select : simpl never.

Lemma StringToJsonAt_Cause error cause :
  StringToJsonAt [Field "Cause"] (JObject (errorOutput error cause))
  = States.StringToJson cause.
Proof. reflexivity. Qed.

Lemma select_catalog payload :
  select catalogSelector (JObject [("Payload", payload)])
  = match selectedOf payload with
    | Some Payload => Some [("ETag", ETag Payload); ("VersionId", VersionId Payload)]
    | None => None
    end.
Proof.
  unfold selectedOf, catalogSelector, select.
  change (jsonPath [Field "Payload"; Field "ETag"] (JObject [("Payload", payload)]))
    with (jsonPath [Field "ETag"] payload).
  change (jsonPath [Field "Payload"; Field "VersionId"] (JObject [("Payload", payload)]))
    with (jsonPath [Field "VersionId"] payload).
  destruct (jsonPath [Field "ETag"] payload), (jsonPath [Field "VersionId"] payload);
    reflexivity.
Qed.

Section Runs.

Variable world : World.

Lemma sendToDlqIfNeeded_run document m :
  exists status tail queue,
    DlqCheck (clock m) document status tail queue /\
    sendToDlqIfNeeded document m
    = (Stop status,
       mkMachine (clock m) (history m ++ tail) (deadLetterQueue m ++ queue)).
Proof.
  unfold sendToDlqIfNeeded, bind, enter; simpl.
  destruct (anyBranch isPresent document) eqn:E.
  - exists FAILED. eexists. eexists. split; [now apply check_failure|].
    unfold sendToDeadLetterQueue, fail, bind, enter, sendMessage, stop; simpl.
    now rewrite <- !app_assoc.
  - exists SUCCEEDED. eexists. eexists. split; [now apply check_success|].
    unfold succeed, bind, enter, stop; simpl.
    now rewrite <- !app_assoc, app_nil_r.
Qed.

Lemma anySuccess_run document m :
  deadLetterQueue m = [] ->
  exists status tail queue t,
    AfterDocGen world (clock m) document status tail queue /\
    anySuccess world document m
    = (Stop status,
       mkMachine t (history m ++ entry (clock m) AnySuccess document :: tail) queue).
Proof.
  intros Hq. unfold anySuccess, bind at 1, enter at 1; simpl.
  destruct (anyBranch isNotPresent document) eqn:E.
  2:{ match goal with |- context [sendToDlqIfNeeded ?d ?m1] =>
        destruct (sendToDlqIfNeeded_run d m1) as (s & tail & q & Hc & ->)
      end.
      simpl in *. exists s, tail, q, (clock m). split.
      - now apply catalog_skipped.
      - now rewrite Hq, <- app_assoc. }
  unfold addToCatalog, task, bind at 1 2, enter at 1; simpl.
  match goal with |- context [invoke ?f ?o ?r 0 ?k ?m1] =>
    destruct (invoke_run f o k r 0 m1) as [H|(n & Hn & H)];
      cbn zeta in H; rewrite H; clear H; simpl
  end; rewrite Nat.sub_0_r in *;
    change (settle (catalogBuilder world) (fresh addToCatalogRetry) 0
                   (retriesLeft (fresh addToCatalogRetry)))
      with (catalogSettledAt world) in *.
  2:{ exists TIMED_OUT. eexists. exists [], timeout. split.
      - apply catalog_timed_out with (n := n); assumption.
      - rewrite Hq, <- !app_assoc. reflexivity. }
  destruct (outcome (catalogBuilder world (catalogSettledAt world)))
    as [payload|error cause] eqn:Eo.
  - rewrite select_catalog.
    destruct (selectedOf payload) as [Payload|] eqn:Es.
    + match goal with |- context [sendToDlqIfNeeded ?d ?m1] =>
        destruct (sendToDlqIfNeeded_run d m1) as (s & tail & q & Hc & ->)
      end.
      simpl in *. exists s. eexists. exists q. eexists. split.
      * eapply catalog_returned; eassumption.
      * rewrite Hq, <- !app_assoc. reflexivity.
    + exists FAILED. eexists. exists []. eexists. split.
      * eapply catalog_unselected; eassumption.
      * unfold stop. rewrite Hq, <- !app_assoc. reflexivity.
  - unfold failedToAddToCatalog, bind, enter; simpl.
    rewrite StringToJsonAt_Cause.
    destruct (States.StringToJson cause) as [structured|] eqn:Ep.
    + exists FAILED. eexists. eexists. eexists. split.
      * eapply catalog_threw; eassumption.
      * unfold sendToDeadLetterQueue, fail, bind, enter, sendMessage, stop; simpl.
        rewrite Hq, <- !app_assoc. reflexivity.
    + exists FAILED. eexists. exists []. eexists. split.
      * eapply catalog_threw_text; eassumption.
      * unfold stop. rewrite Hq, <- !app_assoc. reflexivity.
Qed.

Lemma count_invocations {P : Type} (oracle : nat -> Invocation P) retry fn fn' t n :
  count (invoked fn') (invocations oracle retry fn 0 t n)
  = if functionEqb fn fn' then n else 0.
Proof.
  destruct (functionEqb fn fn') eqn:E.
  - rewrite count_all; [apply invocations_length|].
    intros e He. apply invocations_invoked in He as [t' ->]. exact E.
  - apply count_none.
    intros e He. apply invocations_invoked in He as [t' ->]. exact E.
Qed.

Lemma languageEqb_refl language : languageEqb language language = true.
Proof. now destruct language. Qed.

Lemma languageEqb_neq a b : a <> b -> languageEqb a b = false.
Proof. destruct a, b; simpl; congruence. Qed.

Lemma in_invocations {P : Type} (oracle : nat -> Invocation P) retry fn start n e :
  In e (invocations oracle retry fn 0 start n)
  <-> exists k, k < n /\ e = LambdaInvoked (startOf oracle retry 0 start k) fn.
Proof.
  unfold invocations. rewrite in_map_iff. split.
  - intros (k & <- & Hk). apply in_seq in Hk. exists k. split; [lia|reflexivity].
  - intros (k & Hk & ->). exists k. split; [reflexivity|]. apply in_seq. lia.
Qed.

Lemma ownEvents_shape language start input n extra :
  n <= S (branchSettledAt world language) ->
  (extra = [] \/ exists t document, extra = [entry t (FailedLanguage language) document]) ->
  let evs := entry start (GenerateDocs language) input
             :: invocations (transliterator world language) (fresh docGenRetry)
                  (Transliterator language) 0 start n
             ++ extra in
  ownEvents world language start evs
  /\ count (invoked (Transliterator language)) evs = n.
Proof.
  intros Hn Hextra evs.
  assert (Hx : forall e, In e extra ->
                         exists t document, e = entry t (FailedLanguage language) document).
  { destruct Hextra as [->|(t & d & ->)]; [intros e []|].
    intros e [<-|[]]; eauto. }
  split; [split; [|split]|].
  - intros e [<-|He]; [reflexivity|].
    apply in_app_iff in He as [He|He].
    + apply invocations_invoked in He as [t' ->]. reflexivity.
    + apply Hx in He as (t & d & ->). reflexivity.
  - intros other Hne. subst evs. unfold entry.
    rewrite count_cons, count_app, count_invocations. simpl.
    rewrite (languageEqb_neq language other) by congruence.
    rewrite count_none; [reflexivity|].
    intros e He. apply Hx in He as (t & d & ->). reflexivity.
  - exists n. split; [exact Hn|]. subst evs. unfold entry. simpl.
    rewrite filter_app, filter_invoked_invocations. simpl.
    rewrite languageEqb_refl.
    replace (filter (invoked (Transliterator language)) extra) with (@nil Event);
      [apply app_nil_r|].
    destruct Hextra as [->|(t & d & ->)]; reflexivity.
  - subst evs. unfold entry.
    rewrite count_cons, count_app, count_invocations. simpl.
    rewrite languageEqb_refl.
    rewrite count_none; [lia|].
    intros e He. apply Hx in He as (t & d & ->). reflexivity.
Qed.

(** A branch: its events are its own, and it ends with the result of the
    outcome its task is left with, unless the timeout comes first. *)
Lemma generateDocs_run language input m :
  exists evs t,
    ownEvents world language (clock m) evs
    /\ count (invoked (Transliterator language)) evs
       <= S (branchSettledAt world language)
    /\ (generateDocs world language input m
        = (Stop TIMED_OUT, mkMachine t (history m ++ evs) (deadLetterQueue m))
        \/ (count (invoked (Transliterator language)) evs
            = S (branchSettledAt world language)
            /\ generateDocs world language input m
               = (match branchResult language
                          (settled (transliterator world language) docGenRetry) with
                  | Some result => Next result
                  | None => Stop FAILED
                  end,
                  mkMachine t (history m ++ evs) (deadLetterQueue m)))).
Proof.
  unfold generateDocs, task, bind, enter; simpl.
  match goal with |- context [invoke ?f ?o ?r 0 ?k ?m1] =>
    destruct (invoke_run f o k r 0 m1) as [H|(n & Hn & H)];
      cbn zeta in H; rewrite H; clear H; simpl
  end; rewrite Nat.sub_0_r in *;
    change (settle (transliterator world language) (fresh docGenRetry) 0
                   (retriesLeft (fresh docGenRetry)))
      with (branchSettledAt world language) in *.
  2:{ destruct (ownEvents_shape language (clock m) input n [])
        as [Hown Hcount]; [lia|now left|].
      rewrite app_nil_r in Hown, Hcount.
      eexists. exists timeout. split; [exact Hown|]. split; [lia|].
      left. rewrite <- app_assoc. reflexivity. }
  unfold settled.
  change (settledAt (transliterator world language) docGenRetry)
    with (branchSettledAt world language).
  set (last := branchSettledAt world language) in *.
  destruct (outcome (transliterator world language last)) as [Payload|error cause];
    simpl.
  - destruct (ownEvents_shape language (clock m) input (S last) [])
      as [Hown Hcount]; [subst last; lia|now left|].
    rewrite app_nil_r in Hown, Hcount.
    eexists. eexists. split; [exact Hown|]. split; [lia|].
    right. split; [exact Hcount|]. unfold ret. rewrite <- app_assoc. reflexivity.
  - unfold failedLanguage, bind, enter; simpl. rewrite StringToJsonAt_Cause.
    set (t := (startOf (transliterator world language) (fresh docGenRetry) 0
                       (clock m) last
               + elapsed (transliterator world language last))%N).
    destruct (ownEvents_shape language (clock m) input (S last)
                [entry t (FailedLanguage language) (errorOutput error cause)])
      as [Hown Hcount]; [subst last; lia|right; eauto|].
    eexists. exists t. split; [exact Hown|]. split; [lia|].
    right. split; [exact Hcount|]. rewrite <- !app_assoc. simpl.
    destruct (States.StringToJson cause); reflexivity.
Qed.

Lemma count_zero_in p (h : list Event) e : count p h = 0 -> In e h -> p e = false.
Proof.
  induction h as [|a h IH]; [intros _ []|].
  rewrite count_cons. intros Hc [<-|He].
  - destruct (p a); [discriminate|reflexivity].
  - apply IH; [|assumption]. destruct (p a); [discriminate|exact Hc].
Qed.

Lemma filter_nothing p (h : list Event) : count p h = 0 -> filter p h = [].
Proof. unfold count. apply length_zero_iff_nil. Qed.

Lemma filter_swap {A : Type} (p q : A -> bool) l :
  filter p (filter q l) = filter q (filter p l).
Proof.
  induction l as [|a l IH]; simpl; [reflexivity|].
  destruct (q a) eqn:Eq, (p a) eqn:Ep; simpl; rewrite ?Eq, ?Ep, IH; reflexivity.
Qed.

(** The events of the two branches together, as far as they come before
    a given second. *)
Lemma branchEvents_app evs1 evs2 keep :
  ownEvents world PYTHON 0 evs1 -> ownEvents world TYPESCRIPT 0 evs2 ->
  (forall e e', (timeOf e <= timeOf e')%N -> keep e' = true -> keep e = true) ->
  branchEvents world (filter keep (evs1 ++ evs2)).
Proof.
  intros (Hb1 & Hz1 & n1 & Hn1 & Hf1) (Hb2 & Hz2 & n2 & Hn2 & Hf2) Hkeep.
  assert (Hz1' := Hz1 TYPESCRIPT ltac:(discriminate)).
  assert (Hz2' := Hz2 PYTHON ltac:(discriminate)).
  split.
  - intros e He. apply filter_In in He as [He _].
    apply in_app_iff in He as [He|He]; auto.
  - intros language. rewrite filter_swap, filter_app.
    destruct language.
    + rewrite Hf1, (filter_nothing _ _ Hz2'), app_nil_r.
      destruct (filter_invocations (Transliterator PYTHON)
                  (transliterator world PYTHON) keep (fresh docGenRetry) 0 0 n1 Hkeep)
        as (n & Hle & ->).
      exists n. split; [lia|reflexivity].
    + rewrite Hf2, (filter_nothing _ _ Hz1'). simpl.
      destruct (filter_invocations (Transliterator TYPESCRIPT)
                  (transliterator world TYPESCRIPT) keep (fresh docGenRetry) 0 0 n2 Hkeep)
        as (n & Hle & ->).
      exists n. split; [lia|reflexivity].
Qed.

Lemma filter_all {A : Type} (l : list A) : filter (fun _ => true) l = l.
Proof. induction l as [|a l IH]; simpl; congruence. Qed.

(** Every execution follows one of the paths. *)
Lemma stateMachine_path input :
  Path world input (status (stateMachine world input))
       (events (stateMachine world input))
       (messages (stateMachine world input)).
Proof.
  unfold status, events, messages, stateMachine, definition, bind, enter. simpl.
  unfold docGen, bind, enter, parallel, runBranch. simpl.
  destruct (generateDocs_run PYTHON (tracked world input) (mkMachine 0 [] []))
    as (evs1 & t1 & Hown1 & Hc1 & H1).
  destruct (generateDocs_run TYPESCRIPT (tracked world input) (mkMachine 0 [] []))
    as (evs2 & t2 & Hown2 & Hc2 & H2).
  assert (Hev : forall t,
             branchEvents world
               (filter (fun e => (timeOf e <=? t)%N) (evs1 ++ evs2))).
  { intros t. apply branchEvents_app; auto.
    intros e e' Hle He'. apply N.leb_le in He'. apply N.leb_le. lia. }
  assert (Hall : branchEvents world (evs1 ++ evs2)).
  { rewrite <- (filter_all (evs1 ++ evs2)). apply branchEvents_app; auto. }
  unfold tracked, taskExecutionKey, executionInfos in H1, H2.
  simpl in H1, H2.
  destruct (branchResult PYTHON (settled (transliterator world PYTHON) docGenRetry))
    as [python|] eqn:Ep;
  destruct (branchResult TYPESCRIPT (settled (transliterator world TYPESCRIPT) docGenRetry))
    as [typescript|] eqn:Et;
  destruct H1 as [H1|[He1 H1]]; destruct H2 as [H2|[He2 H2]]; rewrite H1, H2; simpl;
    rewrite ?app_nil_r;
    try (apply docGen_stopped;
         [ first [ apply Hev | apply Hall ]
         | first [ now left
                 | right; split; [reflexivity|]; exists PYTHON; assumption
                 | right; split; [reflexivity|]; exists TYPESCRIPT; assumption ] ]).
  match goal with |- context [anySuccess world ?d ?m1] =>
    destruct (anySuccess_run d m1 eq_refl) as (s & tail & q & t & Ha & ->)
  end.
  simpl in *.
  apply docGen_ended; auto.
  destruct Hown1 as (_ & Hz1 & _), Hown2 as (_ & Hz2 & _).
  intros language. rewrite count_app.
  destruct language.
  - rewrite He1, (Hz2 PYTHON) by discriminate. lia.
  - rewrite He2, (Hz1 TYPESCRIPT) by discriminate. lia.
Qed.

End Runs.

(** ** Reading paths *)

Lemma branch_not_entered name e :
  mainline name = true -> isBranchEvent e = true -> entered name e = false.
Proof.
  destruct e as [t n input|t fn]; simpl; [|reflexivity].
  destruct n; try discriminate; destruct name; simpl; congruence.
Qed.

Lemma count_entered_branches world name branches :
  mainline name = true -> branchEvents world branches ->
  count (entered name) branches = 0.
Proof.
  intros Hm (Hb & _). apply count_none.
  intros e He. apply branch_not_entered; auto.
Qed.

Lemma count_entered_catalogInvocations name world t n :
  count (entered name) (catalogInvocations world t n) = 0.
Proof.
  apply count_none. intros e He.
  apply invocations_invoked in He as [t' ->]. reflexivity.
Qed.

Lemma count_invoked_branches world branches :
  branchEvents world branches -> count (invoked CatalogBuilder) branches = 0.
Proof.
  intros (Hb & _). apply count_none. intros e He. specialize (Hb e He).
  destruct e as [t n input|t [|l]]; simpl in *; congruence.
Qed.

Lemma inputOf_app name h1 h2 :
  count (entered name) h1 = 0 -> inputOf name (h1 ++ h2) = inputOf name h2.
Proof.
  induction h1 as [|e h1 IH]; simpl; [reflexivity|].
  rewrite count_cons. destruct e as [t n input|t fn]; simpl.
  - destruct (stateEqb n name); [discriminate|]. exact IH.
  - exact IH.
Qed.

(** The conditions of the two Choice states, on the results of the
    branches. *)
Lemma resultsIn_withResults results document :
  resultsIn (JObject (withResults results document)) = results.
Proof.
  unfold resultsIn, withResults. simpl. now rewrite lookup_put_same.
Qed.

Lemma resultsIn_withCatalog Payload document :
  resultsIn (JObject (withCatalog Payload document)) = resultsIn (JObject document).
Proof.
  unfold resultsIn, withCatalog. simpl.
  rewrite lookup_put_other; [reflexivity|discriminate].
Qed.

Lemma anyBranch_isPresent document :
  List.length (resultsIn (JObject document)) = List.length SUPPORTED_LANGUAGES ->
  anyBranch isPresent document
  = existsb (hasTag "error") (resultsIn (JObject document)).
Proof.
  unfold anyBranch, resultsIn, errorOfBranch, hasTag, isPresent. simpl.
  destruct (lookup docGenResultsKey document) as [[| | | |items|]|];
    simpl; try discriminate.
  destruct items as [|a [|b [|c items]]]; try discriminate. intros _.
  simpl. now rewrite orb_false_r.
Qed.

Lemma anyBranch_isNotPresent document :
  List.length (resultsIn (JObject document)) = List.length SUPPORTED_LANGUAGES ->
  anyBranch isNotPresent document
  = existsb (fun result => negb (hasTag "error" result)) (resultsIn (JObject document)).
Proof.
  unfold anyBranch, resultsIn, errorOfBranch, hasTag, isNotPresent, isPresent. simpl.
  destruct (lookup docGenResultsKey document) as [[| | | |items|]|];
    simpl; try discriminate.
  destruct items as [|a [|b [|c items]]]; try discriminate. intros _.
  simpl. now rewrite orb_false_r.
Qed.

Lemma branchResult_tags language o result :
  branchResult language o = Some result ->
  hasTag "language" result = true
  /\ hasTag "success" result = negb (hasTag "error" result).
Proof.
  destruct o as [Payload|error cause]; simpl.
  - intros [= <-]. split; reflexivity.
  - destruct (States.StringToJson cause); [|discriminate].
    intros [= <-]. split; reflexivity.
Qed.

(** Taking apart the membership of an event in the events of a path. *)
Ltac split_in H :=
  repeat match type of H with
         | In _ (_ :: _) => destruct H as [H|H]
         | In _ (_ ++ _) => apply in_app_iff in H; destruct H as [H|H]
         | In _ [] => destruct H
         | In _ (catalogInvocations _ _ _) =>
             apply invocations_invoked in H; destruct H as [? H]; discriminate H
         end.

Lemma branch_entry world t name document branches :
  branchEvents world branches -> mainline name = true ->
  ~ In (entry t name document) branches.
Proof.
  intros (Hb & _) Hm Hin. specialize (Hb _ Hin).
  destruct name; simpl in *; congruence.
Qed.

(** The documents the two Choice states are entered with carry the
    results of the two branches. *)
Lemma choice_inputs world input s evs q :
  Path world input s evs q ->
  forall t name document,
    name = AnySuccess \/ name = AnyFailure ->
    In (entry t name document) evs ->
    exists python typescript,
      branchResult PYTHON (settled (transliterator world PYTHON) docGenRetry)
      = Some python
      /\ branchResult TYPESCRIPT (settled (transliterator world TYPESCRIPT) docGenRetry)
         = Some typescript
      /\ resultsIn (JObject document) = [python; typescript].
Proof.
  intros HP t name document Hname Hin.
  assert (Hm : mainline name = true) by (destruct Hname; subst; reflexivity).
  destruct HP as [s branches Hb Hs|branches python typescript t0 s tail q Hb Hcount Ep Et Ha].
  - exfalso. split_in Hin.
    + unfold entry in Hin. destruct Hname; subst; discriminate.
    + unfold entry in Hin. destruct Hname; subst; discriminate.
    + eapply branch_entry; eauto.
  - exists python, typescript. split; [assumption|]. split; [assumption|].
    split_in Hin.
    + exfalso. unfold entry in Hin. destruct Hname; subst; discriminate.
    + exfalso. unfold entry in Hin. destruct Hname; subst; discriminate.
    + exfalso. eapply branch_entry; eauto.
    + injection Hin as _ _ <-. apply resultsIn_withResults.
    + destruct Ha as [s tail q _ Hc|n _ _|payload Payload t' s tail q _ _ Hsel Hc
                      |payload _ _ Hsel
                      |error cause structured t' _ _ _|error cause t' _ _ _].
      * destruct Hc; split_in Hin;
          try (injection Hin as _ _ <-; apply resultsIn_withResults);
          exfalso; unfold entry in Hin; destruct Hname; subst; discriminate.
      * split_in Hin.
        exfalso; unfold entry in Hin; destruct Hname; subst; discriminate.
      * split_in Hin.
        { exfalso; unfold entry in Hin; destruct Hname; subst; discriminate. }
        destruct Hc; split_in Hin;
          try (injection Hin as _ _ <-;
               rewrite resultsIn_withCatalog; apply resultsIn_withResults);
          exfalso; unfold entry in Hin; destruct Hname; subst; discriminate.
      * split_in Hin;
          exfalso; unfold entry in Hin; destruct Hname; subst; discriminate.
      * split_in Hin;
          exfalso; unfold entry in Hin; destruct Hname; subst; discriminate.
      * split_in Hin;
          exfalso; unfold entry in Hin; destruct Hname; subst; discriminate.
Qed.

Lemma inputOf_none name h : count (entered name) h = 0 -> inputOf name h = None.
Proof.
  intros H. rewrite <- (app_nil_r h). now rewrite inputOf_app.
Qed.

Lemma count_invoked_catalogInvocations world t n :
  count (invoked CatalogBuilder) (catalogInvocations world t n) = n.
Proof. unfold catalogInvocations. now rewrite count_invocations. Qed.

(** The branch results of an execution, by its path. *)
Lemma branchResults_stopped world t t' input document branches :
  branchEvents world branches ->
  branchResults (entry t TrackExecutionInfos input :: entry t' DocGen document :: branches)
  = [].
Proof.
  intros Hb. unfold branchResults. rewrite inputOf_none; [reflexivity|].
  rewrite !count_cons. simpl. now apply (count_entered_branches world).
Qed.

Lemma branchResults_ended world t t' t'' input document results branches tail :
  branchEvents world branches ->
  branchResults (entry t TrackExecutionInfos input :: entry t' DocGen document
                 :: branches ++ entry t'' AnySuccess (withResults results document) :: tail)
  = results.
Proof.
  intros Hb. unfold branchResults. simpl.
  rewrite inputOf_app by now apply (count_entered_branches world).
  simpl. apply resultsIn_withResults.
Qed.

Lemma success_iff_no_error world python typescript :
  branchResult PYTHON (settled (transliterator world PYTHON) docGenRetry) = Some python ->
  branchResult TYPESCRIPT (settled (transliterator world TYPESCRIPT) docGenRetry)
  = Some typescript ->
  forall document,
    anyBranch isNotPresent (withResults [python; typescript] document)
    = existsb (hasTag "success") [python; typescript].
Proof.
  intros Ep Et document.
  rewrite anyBranch_isNotPresent; rewrite resultsIn_withResults; [|reflexivity].
  apply branchResult_tags in Ep as [_ Ep], Et as [_ Et]. simpl.
  now rewrite Ep, Et.
Qed.

Ltac splits := repeat match goal with |- _ /\ _ => split end.

Ltac count_events :=
  unfold entry;
  repeat first [ rewrite count_cons
               | rewrite count_app
               | rewrite count_nil
               | rewrite count_entered_catalogInvocations
               | rewrite count_invoked_catalogInvocations ];
  simpl.

(** ** The claims *)

(** An entry of 'Any Success?' fixes the path: its input is the tracked
    work item with the results of the two branches, and the rest of the
    execution goes on from it. *)
Lemma path_after_docGen world input s evs q t document :
  Path world input s evs q ->
  In (entry t AnySuccess document) evs ->
  exists branches python typescript tail,
    branchEvents world branches
    /\ branchResult PYTHON (settled (transliterator world PYTHON) docGenRetry)
       = Some python
    /\ branchResult TYPESCRIPT (settled (transliterator world TYPESCRIPT) docGenRetry)
       = Some typescript
    /\ document = withResults [python; typescript] (tracked world input)
    /\ evs = entry 0 TrackExecutionInfos input
             :: entry 0 DocGen (tracked world input)
             :: branches ++ entry t AnySuccess document :: tail
    /\ AfterDocGen world t document s tail q.
Proof.
  intros HP Hin.
  destruct HP as [s branches Hb Hs|branches python typescript t0 s tail q Hb Hcount Ep Et Ha].
  - exfalso. split_in Hin; try discriminate Hin.
    eapply branch_entry; eauto. reflexivity.
  - exists branches, python, typescript, tail.
    split; [assumption|]. split; [assumption|]. split; [assumption|].
    split_in Hin; try discriminate Hin.
    + exfalso. eapply branch_entry; eauto. reflexivity.
    + injection Hin as -> <-. splits; [reflexivity|reflexivity|assumption].
    + exfalso.
      destruct Ha as [? ? ? _ Hc|n _ _|payload Payload t' ? ? ? _ _ Hsel Hc
                      |payload _ _ Hsel
                      |error cause structured t' _ _ _|error cause t' _ _ _];
        try destruct Hc; split_in Hin; discriminate Hin.
Qed.


(** C10.  Whenever 'Any Success?' or 'Any Failure?' is entered, the
    document holds one result per supported language; each result carries
    [language] and exactly one of [success] and [error]; so the tests of
    the two Choice states, which look for [error], agree with "some result
    carries [success]" and "some result carries [error]". *)
Theorem branch_results_carry_one_tag world input t name document :
  name = AnySuccess \/ name = AnyFailure ->
  In (entry t name document) (events (stateMachine world input)) ->
  let results := resultsIn (JObject document) in
  List.length results = List.length SUPPORTED_LANGUAGES
  /\ Forall (fun result =>
               hasTag "language" result = true
               /\ xorb (hasTag "success" result) (hasTag "error" result) = true)
            results
  /\ anyBranch isNotPresent document = existsb (hasTag "success") results
  /\ anyBranch isPresent document = existsb (hasTag "error") results.
Proof.
  intros Hname Hin. cbn zeta.
  destruct (choice_inputs _ _ _ _ _ (stateMachine_path world input)
                          t name document Hname Hin)
    as (python & typescript & Ep & Et & Hr).
  rewrite anyBranch_isNotPresent, anyBranch_isPresent by (now rewrite Hr).
  rewrite Hr.
  apply branchResult_tags in Ep as [Hl1 Hs1], Et as [Hl2 Hs2].
  split; [reflexivity|]. split.
  - repeat constructor; auto.
    + rewrite Hs1. now destruct (hasTag "error" python).
    + rewrite Hs2. now destruct (hasTag "error" typescript).
  - split; [|reflexivity]. simpl. now rewrite Hs1, Hs2.
Qed.

Lemma branch_results_carry_one_tag_witness :
  let document :=
    withResults
      [JObject [("language", JString "python");
                ("success", JObject [("generated", JBool true)])];
       JObject [("error", JObject [("errorType", JString "Error");
                                   ("errorMessage", JString "boom")]);
                ("language", JString "typescript")]]
      (tracked Scenarios.oneFails Scenarios.workItem) in
  In (entry 250 AnySuccess document)
     (events (stateMachine Scenarios.oneFails Scenarios.workItem))
  /\ anyBranch isNotPresent document = true
  /\ anyBranch isPresent document = true.
Proof.
  cbn zeta.
  assert (Hin : In (entry 250 AnySuccess
                      (withResults
                         [JObject [("language", JString "python");
                                   ("success", JObject [("generated", JBool true)])];
                          JObject [("error", JObject [("errorType", JString "Error");
                                                      ("errorMessage", JString "boom")]);
                                   ("language", JString "typescript")]]
                         (tracked Scenarios.oneFails Scenarios.workItem)))
                   (events (stateMachine Scenarios.oneFails Scenarios.workItem))).
  { vm_compute. do 10 right. left. reflexivity. }
  split; [exact Hin|].
  destruct (branch_results_carry_one_tag Scenarios.oneFails Scenarios.workItem
              250 AnySuccess _ (or_introl eq_refl) Hin) as (_ & _ & Hs & He).
  rewrite Hs, He. split; reflexivity.
Defined.

(** What follows an entry of 'Any Failure?'. *)
Lemma dlqCheck_decides t document s tail q :
  DlqCheck t document s tail q ->
  (anyBranch isPresent document = true /\ s = FAILED /\ q = [JObject document])
  \/ (anyBranch isPresent document = false /\ s = SUCCEEDED /\ q = []).
Proof. intros [H|H]; [left|right]; auto. Qed.

Lemma dlqCheck_entry t document s tail q t' document' :
  DlqCheck t document s tail q ->
  In (entry t' AnyFailure document') tail -> document' = document.
Proof.
  intros [H|H] Hin; split_in Hin; try discriminate Hin;
    now injection Hin as _ <-.
Qed.

Lemma anyFailure_inputs world input s evs q :
  Path world input s evs q ->
  forall t document,
    In (entry t AnyFailure document) evs ->
    exists python typescript,
      (document = withResults [python; typescript] (tracked world input)
       \/ exists Payload,
            document = withCatalog Payload
                         (withResults [python; typescript] (tracked world input)))
      /\ ((anyBranch isPresent document = true /\ s = FAILED /\ q = [JObject document])
          \/ (anyBranch isPresent document = false /\ s = SUCCEEDED /\ q = [])).
Proof.
  intros HP t document Hin.
  destruct HP as [s branches Hb Hs|branches python typescript t0 s tail q Hb Hcount Ep Et Ha].
  - exfalso. split_in Hin; try discriminate Hin.
    eapply branch_entry; eauto. reflexivity.
  - exists python, typescript.
    split_in Hin; try discriminate Hin.
    { exfalso. eapply branch_entry; eauto. reflexivity. }
    destruct Ha as [s tail q _ Hc|n _ _|payload Payload t' s tail q _ _ Hsel Hc
                    |payload _ _ Hsel
                    |error cause structured t' _ _ _|error cause t' _ _ _].
    + rewrite (dlqCheck_entry _ _ _ _ _ _ _ Hc Hin).
      split; [now left|]. eapply dlqCheck_decides; eassumption.
    + split_in Hin; discriminate Hin.
    + split_in Hin; try discriminate Hin.
      rewrite (dlqCheck_entry _ _ _ _ _ _ _ Hc Hin).
      split; [right; eauto|]. eapply dlqCheck_decides; eassumption.
    + split_in Hin; discriminate Hin.
    + split_in Hin; discriminate Hin.
    + split_in Hin; discriminate Hin.
Qed.

(** C2.  When 'Any Failure?' is entered, its input is the work item with
    the execution infos and the branch results written into it, and with
    the output of the catalog builder when the catalog was updated.  If
    some branch result carries [error], that whole document is the one
    message in the dead letter queue and the execution has failed;
    otherwise the queue is empty and the execution has succeeded. *)
Theorem dlq_check_sends_document_or_succeeds world input t document :
  let execution := stateMachine world input in
  In (entry t AnyFailure document) (events execution) ->
  let results := resultsIn (JObject document) in
  (document = withResults results (tracked world input)
   \/ exists Payload,
        document = withCatalog Payload (withResults results (tracked world input)))
  /\ (existsb (hasTag "error") results = true ->
      status execution = FAILED /\ messages execution = [JObject document])
  /\ (existsb (hasTag "error") results = false ->
      status execution = SUCCEEDED /\ messages execution = []).
Proof.
  cbn zeta. intros Hin.
  destruct (choice_inputs _ _ _ _ _ (stateMachine_path world input)
                          t AnyFailure document (or_intror eq_refl) Hin)
    as (python & typescript & _ & _ & Hr).
  destruct (anyFailure_inputs _ _ _ _ _ (stateMachine_path world input) t document Hin)
    as (python' & typescript' & Hd & Hc).
  assert (Hrs : [python'; typescript'] = resultsIn (JObject document)).
  { destruct Hd as [->|[Payload ->]];
      now rewrite ?resultsIn_withCatalog, resultsIn_withResults. }
  rewrite Hrs in Hd. split; [exact Hd|].
  rewrite <- anyBranch_isPresent by (now rewrite Hr).
  destruct Hc as [(Hy & -> & ->)|(Hn & -> & ->)]; rewrite ?Hy, ?Hn;
    split; intros; try discriminate; auto.
Qed.

Lemma dlq_check_sends_document_or_succeeds_witness :
  let execution := stateMachine Scenarios.bothFail Scenarios.workItem in
  In (entry 250 AnyFailure Scenarios.redriven) (events execution)
  /\ status execution = FAILED
  /\ messages execution = [JObject Scenarios.redriven].
Proof.
  cbn zeta.
  assert (Hin : In (entry 250 AnyFailure Scenarios.redriven)
                   (events (stateMachine Scenarios.bothFail Scenarios.workItem))).
  { vm_compute. do 15 right. left. reflexivity. }
  split; [exact Hin|].
  apply (dlq_check_sends_document_or_succeeds
           Scenarios.bothFail Scenarios.workItem 250 Scenarios.redriven Hin).
  reflexivity.
Defined.


(** ** The first state *)

Lemma lookup_tracked_other world input key :
  key <> taskExecutionKey ->
  lookup key (tracked world input) = lookup key input.
Proof. intros H. unfold tracked. apply lookup_put_other. congruence. Qed.

Lemma path_begins world input s evs q :
  Path world input s evs q ->
  exists rest,
    evs = entry 0 TrackExecutionInfos input
          :: entry 0 DocGen (tracked world input) :: rest.
Proof. intros [? ? ? ?|? ? ? ? ? ? ? ? ? ? ? ?]; eauto. Qed.

(** C8, as the specification has it, fails: the record 'Track Execution
    Infos' attaches has four members, not six; there is no current stage
    and no time budget in it. *)
Lemma execution_infos_have_no_stage_nor_budget :
  ~ (exists document infos,
        inputOf DocGen (events (stateMachine Scenarios.bothSucceed Scenarios.workItem))
        = Some (JObject document)
        /\ lookup "$TaskExecution" document = Some (JObject infos)
        /\ List.length infos = 6).
Proof.
  intros (document & infos & Hd & Hi & Hl).
  vm_compute in Hd. injection Hd as <-.
  vm_compute in Hi. injection Hi as <-.
  discriminate Hl.
Qed.

(** C8, amended.  The first state attaches to the work item, under
    [$TaskExecution], a record of exactly the identifier, the name, the
    role and the start time of the execution, leaves every other field of
    the work item as it is, and is followed by 'DocGen' in every
    execution. *)
Theorem init_attaches_execution_infos world input :
  (exists rest,
      events (stateMachine world input)
      = entry 0 TrackExecutionInfos input
        :: entry 0 DocGen (tracked world input) :: rest)
  /\ lookup "$TaskExecution" (tracked world input)
     = Some (JObject [("Id", JString (Id (Execution world)));
                      ("Name", JString (Name (Execution world)));
                      ("RoleArn", JString (RoleArn (Execution world)));
                      ("StartTime", JString (StartTime (Execution world)))])
  /\ (forall key, key <> "$TaskExecution" ->
                  lookup key (tracked world input) = lookup key input).
Proof.
  split; [|split].
  - eapply path_begins. apply stateMachine_path.
  - apply lookup_put_same.
  - apply lookup_tracked_other.
Qed.

Lemma init_attaches_execution_infos_witness :
  lookup "pkg" (tracked Scenarios.bothSucceed Scenarios.workItem)
  = Some (JString "foo").
Proof.
  rewrite (proj2 (proj2 (init_attaches_execution_infos
                           Scenarios.bothSucceed Scenarios.workItem)) "pkg").
  - reflexivity.
  - discriminate.
Defined.

(** ** Messages and terminal states *)

(** The entries of the states that end an execution, and the messages,
    along the paths. *)
Lemma path_terminal world input s evs q :
  Path world input s evs q ->
  (s = TIMED_OUT /\ q = []
   /\ count (entered SendToDeadLetterQueue) evs = 0
   /\ count (entered FailState) evs = 0
   /\ count (entered SuccessState) evs = 0)
  \/ (s = SUCCEEDED /\ q = []
      /\ count (entered SendToDeadLetterQueue) evs = 0
      /\ count (entered FailState) evs = 0
      /\ count (entered SuccessState) evs = 1)
  \/ (s = FAILED /\ List.length q = 1
      /\ count (entered SendToDeadLetterQueue) evs = 1
      /\ count (entered FailState) evs = 1
      /\ count (entered SuccessState) evs = 0)
  \/ (s = FAILED /\ q = []
      /\ count (entered SendToDeadLetterQueue) evs = 0
      /\ count (entered FailState) evs = 0
      /\ count (entered SuccessState) evs = 0
      /\ (count (entered AnySuccess) evs = 0
          \/ count (entered AddToCatalog) evs = 1)).
Proof.
  intros [s' branches Hb Hs|branches python typescript t s' tail q' Hb Hcount Ep Et Ha].
  - pose proof (count_entered_branches world SendToDeadLetterQueue branches eq_refl Hb).
    pose proof (count_entered_branches world FailState branches eq_refl Hb).
    pose proof (count_entered_branches world SuccessState branches eq_refl Hb).
    pose proof (count_entered_branches world AnySuccess branches eq_refl Hb).
    destruct Hs as [->|[-> _]]; [left|do 3 right];
      splits; try (left); count_events; first [assumption|reflexivity].
  - pose proof (count_entered_branches world SendToDeadLetterQueue branches eq_refl Hb) as H1.
    pose proof (count_entered_branches world FailState branches eq_refl Hb) as H2.
    pose proof (count_entered_branches world SuccessState branches eq_refl Hb) as H3.
    pose proof (count_entered_branches world AddToCatalog branches eq_refl Hb)
      as H4.
    destruct Ha as [? ? ? _ Hc|n _ _|payload Payload t' ? ? ? _ _ Hsel Hc
                    |payload _ _ Hsel
                    |error cause structured t' _ _ _|error cause t' _ _ _];
      try destruct Hc.
    + do 2 right; left. splits; count_events; rewrite ?H1, ?H2, ?H3; reflexivity.
    + right; left. splits; count_events; rewrite ?H1, ?H2, ?H3; reflexivity.
    + left. splits; count_events; rewrite ?H1, ?H2, ?H3; reflexivity.
    + do 2 right; left. splits; count_events; rewrite ?H1, ?H2, ?H3; reflexivity.
    + right; left. splits; count_events; rewrite ?H1, ?H2, ?H3; reflexivity.
    + do 3 right. splits; try right; count_events;
        rewrite ?H1, ?H2, ?H3, ?H4; reflexivity.
    + do 2 right; left. splits; count_events; rewrite ?H1, ?H2, ?H3; reflexivity.
    + do 3 right. splits; try right; count_events;
        rewrite ?H1, ?H2, ?H3, ?H4; reflexivity.
Qed.

(** C4, as the specification has it, fails: an execution whose python
    transliterator runs into its fifteen minutes at every attempt goes
    past the hour, is stopped as timed out, and leaves no message. *)
Lemma timed_out_execution_leaves_no_message :
  let execution := stateMachine Scenarios.branchStuck Scenarios.workItem in
  status execution = TIMED_OUT
  /\ messages execution = []
  /\ ~ ((exists message, In message (messages execution))
        <-> status execution <> SUCCEEDED).
Proof.
  cbn zeta. split; [vm_compute; reflexivity|]. split; [vm_compute; reflexivity|].
  intros [_ H]. destruct H as [message Hin].
  - vm_compute. discriminate.
  - vm_compute in Hin. exact Hin.
Qed.

(** C4, amended.  There is a message in the dead letter queue exactly
    when the execution ended in the state 'Fail', and then its status is
    failed; an execution stopped by the timeout never enters 'Send to Dead
    Letter Queue' and leaves no message. *)
Theorem dead_letter_iff_fail_state world input :
  let execution := stateMachine world input in
  (messages execution <> [] <-> count (entered FailState) (events execution) = 1)
  /\ (messages execution <> [] -> status execution = FAILED)
  /\ (status execution = TIMED_OUT ->
      messages execution = []
      /\ count (entered SendToDeadLetterQueue) (events execution) = 0).
Proof.
  cbn zeta.
  destruct (path_terminal _ _ _ _ _ (stateMachine_path world input))
    as [(Hs & Hq & H1 & H2 & H3)|[(Hs & Hq & H1 & H2 & H3)
        |[(Hs & Hq & H1 & H2 & H3)|(Hs & Hq & H1 & H2 & H3 & _)]]];
    rewrite Hs, H1, H2; try rewrite Hq;
    (split; [split|split]); intros; try congruence; try discriminate; auto.
  destruct (messages (stateMachine world input)); [discriminate|congruence].
Qed.

Lemma dead_letter_iff_fail_state_witness :
  status (stateMachine Scenarios.bothFail Scenarios.workItem) = FAILED
  /\ messages (stateMachine Scenarios.branchStuck Scenarios.workItem) = [].
Proof.
  split.
  - apply (dead_letter_iff_fail_state Scenarios.bothFail Scenarios.workItem).
    vm_compute. discriminate.
  - apply (dead_letter_iff_fail_state Scenarios.branchStuck Scenarios.workItem).
    vm_compute. reflexivity.
Defined.

(** C7, as the specification has it, fails: the input of a redriven
    execution is the message of a former one, whose [DocGen] field the new
    execution overwrites with its own results. *)
Lemma redriven_work_item_is_overwritten :
  let execution := stateMachine Scenarios.oneFails Scenarios.redriven in
  status execution = FAILED
  /\ ~ (forall message,
           In (JObject message) (messages execution) ->
           forall key value,
             lookup key Scenarios.redriven = Some value ->
             lookup key message = Some value).
Proof.
  cbn zeta. split; [vm_compute; reflexivity|]. intros H.
  assert (Hm : exists message,
             messages (stateMachine Scenarios.oneFails Scenarios.redriven)
             = [JObject message]) by (vm_compute; eauto).
  destruct Hm as [message Hm].
  assert (Hin : In (JObject message)
                   (messages (stateMachine Scenarios.oneFails Scenarios.redriven)))
    by (rewrite Hm; now left).
  destruct (lookup "DocGen" Scenarios.redriven) as [value|] eqn:Hv;
    [|vm_compute in Hv; discriminate].
  specialize (H message Hin "DocGen" value Hv).
  vm_compute in Hm. injection Hm as <-.
  vm_compute in Hv. injection Hv as <-.
  vm_compute in H. discriminate H.
Qed.

Lemma lookup_document_other world input results key :
  ~ In key resultKeys ->
  lookup key (withResults results (tracked world input)) = lookup key input
  /\ forall Payload,
       lookup key (withCatalog Payload (withResults results (tracked world input)))
       = lookup key input.
Proof.
  intros Hk. unfold resultKeys in Hk. simpl in Hk.
  assert (H1 : taskExecutionKey <> key) by tauto.
  assert (H2 : docGenResultsKey <> key) by tauto.
  assert (H3 : "catalogBuilderOutput"%string <> key) by tauto.
  unfold withCatalog, withResults, tracked. split; [|intros Payload];
    now rewrite ?lookup_put_other by assumption.
Qed.

(** C7, amended.  No execution writes more than one message; an
    execution writes one exactly when it ends in the state 'Fail'; and the
    message written after 'Any Failure?' holds every field of the work item
    whose key is not one of [$TaskExecution], [DocGen] and
    [catalogBuilderOutput] with the value it had at the start, the states
    writing under those three keys only. *)
Theorem one_message_keeps_work_item_fields world input :
  let execution := stateMachine world input in
  List.length (messages execution) <= 1
  /\ (count (entered FailState) (events execution) = 1
      <-> List.length (messages execution) = 1)
  /\ (forall t document message key,
         In (entry t AnyFailure document) (events execution) ->
         In (JObject message) (messages execution) ->
         ~ In key resultKeys ->
         lookup key message = lookup key input).
Proof.
  cbn zeta. split; [|split].
  - destruct (path_terminal _ _ _ _ _ (stateMachine_path world input))
      as [(_ & Hq & _)|[(_ & Hq & _)|[(_ & Hq & _)|(_ & Hq & _)]]];
      rewrite Hq; simpl; lia.
  - destruct (path_terminal _ _ _ _ _ (stateMachine_path world input))
      as [(_ & Hq & _ & H2 & _)|[(_ & Hq & _ & H2 & _)
          |[(_ & Hq & _ & H2 & _)|(_ & Hq & _ & H2 & _)]]];
      rewrite Hq, H2; simpl; split; congruence.
  - intros t document message key Hin Hm Hk.
    destruct (anyFailure_inputs _ _ _ _ _ (stateMachine_path world input) t document Hin)
      as (python & typescript & Hd & Hc).
    destruct Hc as [(_ & _ & Hq)|(_ & _ & Hq)]; rewrite Hq in Hm;
      [|destruct Hm].
    destruct Hm as [[= <-]|[]].
    destruct (lookup_document_other world input [python; typescript] key Hk)
      as [H1 H2].
    destruct Hd as [->|[Payload ->]]; auto.
Qed.

Lemma one_message_keeps_work_item_fields_witness :
  exists message,
    In (JObject message) (messages (stateMachine Scenarios.oneFails Scenarios.redriven))
    /\ lookup "pkg" message = lookup "pkg" Scenarios.redriven.
Proof.
  assert (Hm : exists message,
             In (JObject message)
                (messages (stateMachine Scenarios.oneFails Scenarios.redriven))).
  { eexists. vm_compute. left. reflexivity. }
  destruct Hm as [message Hm].
  assert (Hin : exists document,
             In (entry 255 AnyFailure document)
                (events (stateMachine Scenarios.oneFails Scenarios.redriven))).
  { eexists. vm_compute. repeat (first [left; reflexivity | right]). }
  destruct Hin as [document Hin].
  exists message. split; [exact Hm|].
  apply (proj2 (proj2 (one_message_keeps_work_item_fields
                         Scenarios.oneFails Scenarios.redriven))
           255%N document message "pkg"%string Hin Hm).
  vm_compute. intuition discriminate.
Defined.

(** ** Caught errors *)

(** What the machine does when the catalog update is left with an error:
    it never enters 'Any Failure?' and ends failed; the message holds the
    name and the cause of the error and the cause read as JSON, and is
    written only when the cause is JSON text. *)
Lemma catalog_failure_path world input :
  let execution := stateMachine world input in
  count (entered FailedToAddToCatalog) (events execution) = 1 ->
  count (entered AnyFailure) (events execution) = 0
  /\ status execution = FAILED
  /\ exists error cause,
       settled (catalogBuilder world) addToCatalogRetry = Threw error cause
       /\ match States.StringToJson cause with
          | Some structured =>
              messages execution = [JObject (caughtDocument error cause structured)]
          | None => messages execution = []
          end.
Proof.
  cbn zeta.
  destruct (stateMachine_path world input)
    as [s branches Hb Hs|branches python typescript t s tail q Hb Hcount Ep Et Ha].
  - count_events.
    rewrite (count_entered_branches world FailedToAddToCatalog) by auto.
    discriminate.
  - pose proof (count_entered_branches world FailedToAddToCatalog branches eq_refl Hb)
      as H1.
    pose proof (count_entered_branches world AnyFailure branches eq_refl Hb) as H2.
    destruct Ha as [? ? ? _ Hc|n _ _|payload Payload t' ? ? ? _ _ Hsel Hc
                    |payload _ _ Hsel
                    |error cause structured t' _ Hs Hp|error cause t' _ Hs Hp];
      try destruct Hc; count_events; rewrite ?H1, ?H2; try discriminate; intros _;
      (split; [reflexivity|]); (split; [reflexivity|]);
      exists error, cause; rewrite Hp; auto.
Qed.

(** What 'DocGen' does when every task is left with a result or with an
    error whose cause is JSON text: unless the timeout comes first, it ends
    and 'Any Success?' is entered. *)
Lemma docGen_ends_when_causes_parse world input :
  let execution := stateMachine world input in
  (forall language,
      branchResult language (settled (transliterator world language) docGenRetry)
      <> None) ->
  status execution <> TIMED_OUT ->
  count (entered AnySuccess) (events execution) = 1.
Proof.
  cbn zeta. intros Hparse Htime.
  destruct (stateMachine_path world input)
    as [s branches Hb Hs|branches python typescript t s tail q Hb Hcount Ep Et Ha].
  - destruct Hs as [->|[_ [language Hnone]]]; [now elim Htime|].
    now elim (Hparse language).
  - pose proof (count_entered_branches world AnySuccess branches eq_refl Hb) as H1.
    destruct Ha as [? ? ? _ Hc|n _ _|payload Payload t' ? ? ? _ _ Hsel Hc
                    |payload _ _ Hsel
                    |error cause structured t' _ _ _|error cause t' _ _ _];
      try destruct Hc; count_events; rewrite H1; reflexivity.
Qed.

(** C3.  A catalog update that is throttled at every attempt: after six
    invocations the error is caught, but its cause is the text of the
    service, not JSON, so 'Failed to add to catalog.json' fails; nothing is
    sent to the dead letter queue and the execution ends failed. *)
Theorem throttled_catalog_update_leaves_no_message :
  let execution := stateMachine Scenarios.catalogThrottled Scenarios.workItem in
  count (invoked CatalogBuilder) (events execution) = 6
  /\ count (entered FailedToAddToCatalog) (events execution) = 1
  /\ count (entered SendToDeadLetterQueue) (events execution) = 0
  /\ count (entered AnyFailure) (events execution) = 0
  /\ status execution = FAILED
  /\ messages execution = [].
Proof. vm_compute. repeat split. Qed.

(** C3, when the cause is JSON text: the message is written, but the
    catcher has replaced the document by the error, and no field of the
    work item is in the message. *)
Lemma broken_catalog_update_message_lacks_work_item :
  let execution := stateMachine Scenarios.catalogBroken Scenarios.workItem in
  status execution = FAILED
  /\ exists message,
       messages execution = [JObject message]
       /\ map fst message = ["Error"; "Cause"; "error"]%string
       /\ lookup "pkg" message = None.
Proof. vm_compute. split; [reflexivity|]. eexists. repeat split. Qed.

(** C5.  A python branch that is throttled at every attempt: after four
    invocations the error is caught, but its cause is not JSON text, so
    'Failed python' fails and with it 'DocGen' and the execution; there are
    no branch results, and nothing is sent to the dead letter queue. *)
Theorem throttled_branch_fails_the_execution :
  let execution := stateMachine Scenarios.branchThrottled Scenarios.workItem in
  count (invoked (Transliterator PYTHON)) (events execution) = 4
  /\ count (entered (FailedLanguage PYTHON)) (events execution) = 1
  /\ count (entered AnySuccess) (events execution) = 0
  /\ branchResults (events execution) = []
  /\ status execution = FAILED
  /\ messages execution = [].
Proof. vm_compute. repeat split. Qed.

(** ** Retries *)

Lemma count_invoked_other_catalogInvocations world language t n :
  count (invoked (Transliterator language)) (catalogInvocations world t n) = 0.
Proof. unfold catalogInvocations. now rewrite count_invocations. Qed.

(** When 'DocGen' has ended, every transliterator was invoked up to the
    invocation that settled its task. *)
Lemma path_ended_invocations world input s evs q :
  Path world input s evs q ->
  count (entered AnySuccess) evs = 1 ->
  forall language,
    count (invoked (Transliterator language)) evs = S (branchSettledAt world language).
Proof.
  intros [s' branches Hb Hs|branches python typescript t s' tail q' Hb Hcount Ep Et Ha].
  - count_events. rewrite (count_entered_branches world) by auto. discriminate.
  - intros _ language. rewrite <- (Hcount language).
    destruct Ha as [? ? ? _ Hd|n _ Hn|payload Payload t' ? ? ? _ _ Hsel Hd
                    |payload _ _ Hsel
                    |error cause structured t' _ _ _|error cause t' _ _ _];
      try destruct Hd; unfold entry;
      repeat first [ rewrite count_cons | rewrite count_app | rewrite count_nil
                   | rewrite count_invoked_other_catalogInvocations ];
      simpl; lia.
Qed.

Lemma howMany_S p k : howMany p (S k) = howMany p k + (if p k then 1 else 0).
Proof.
  unfold howMany. rewrite seq_S, filter_app, length_app. simpl.
  now destruct (p k).
Qed.

Lemma howMany_ext p q k : (forall j, p j = q j) -> howMany p k = howMany q k.
Proof.
  intros H. unfold howMany. f_equal. apply filter_ext. exact H.
Qed.

Lemma threw_ext {P : Type} (oracle : nat -> Invocation P) named named' k :
  (forall error, named error = named' error) ->
  threw oracle named k = threw oracle named' k.
Proof. intros H. unfold threw. destruct (outcome (oracle k)); auto. Qed.

Lemma retryAfter_two error r1 a r2 b :
  retryAfter error [(r1, a); (r2, b)]
  = if matches (errors r1) error then
      if Nat.ltb a (maxAttempts r1)
      then Some (backoff r1 a, [(r1, S a); (r2, b)])
      else None
    else if matches (errors r2) error then
      if Nat.ltb b (maxAttempts r2)
      then Some (backoff r2 b, [(r1, a); (r2, S b)])
      else None
    else None.
Proof.
  unfold retryAfter.
  destruct (matches (errors r1) error); [reflexivity|].
  destruct (matches (errors r2) error); [|reflexivity].
  destruct (Nat.ltb b (maxAttempts r2)); reflexivity.
Qed.

(** A task with two retriers: an error is taken by the first retrier when
    it names it, else by the second when that one names it. *)
Section TwoRetriers.

Context {P : Type}.
Variable oracle : nat -> Invocation P.
Variables r1 r2 : RetryProps.

Lemma retried_two a b k wait retry' :
  retried oracle [(r1, a); (r2, b)] k = Some (wait, retry') ->
  (threw oracle (takenByFirst r1) k = true
   /\ threw oracle (takenBySecond r1 r2) k = false
   /\ a < maxAttempts r1
   /\ wait = backoff r1 a /\ retry' = [(r1, S a); (r2, b)])
  \/ (threw oracle (takenByFirst r1) k = false
      /\ threw oracle (takenBySecond r1 r2) k = true
      /\ b < maxAttempts r2
      /\ wait = backoff r2 b /\ retry' = [(r1, a); (r2, S b)]).
Proof.
  unfold retried, threw, takenByFirst, takenBySecond.
  destruct (outcome (oracle k)) as [p|e c]; [discriminate|].
  rewrite retryAfter_two. destruct (matches (errors r1) e).
  - destruct (Nat.ltb_spec a (maxAttempts r1)); [|discriminate].
    intros [= <- <-]. left. splits; auto.
  - destruct (matches (errors r2) e); [|discriminate].
    destruct (Nat.ltb_spec b (maxAttempts r2)); [|discriminate].
    intros [= <- <-]. right. splits; auto.
Qed.

Lemma retried_two_none a b k :
  retried oracle [(r1, a); (r2, b)] k = None ->
  (exists payload, outcome (oracle k) = Returned payload)
  \/ (threw oracle (takenByFirst r1) k = true /\ maxAttempts r1 <= a)
  \/ (threw oracle (takenBySecond r1 r2) k = true /\ maxAttempts r2 <= b)
  \/ (exists error cause,
        outcome (oracle k) = Threw error cause
        /\ takenByFirst r1 error = false
        /\ takenBySecond r1 r2 error = false).
Proof.
  unfold retried, threw, takenByFirst, takenBySecond.
  destruct (outcome (oracle k)) as [p|e c]; [eauto|].
  rewrite retryAfter_two. destruct (matches (errors r1) e) eqn:E1.
  - destruct (Nat.ltb_spec a (maxAttempts r1)); [discriminate|]. auto.
  - destruct (matches (errors r2) e) eqn:E2.
    + destruct (Nat.ltb_spec b (maxAttempts r2)); [discriminate|]. auto.
    + intros _. do 3 right. exists e, c. rewrite E1, E2. auto.
Qed.

(** The retries each retrier has made before invocation [k] are the
    errors it took, and no more than it may make. *)
Lemma two_retriers_at k :
  (forall j, j < k ->
             retried oracle (retriersAt oracle (fresh [r1; r2]) 0 j) j <> None) ->
  retriersAt oracle (fresh [r1; r2]) 0 k
  = [(r1, howMany (threw oracle (takenByFirst r1)) k);
     (r2, howMany (threw oracle (takenBySecond r1 r2)) k)]
  /\ howMany (threw oracle (takenByFirst r1)) k <= maxAttempts r1
  /\ howMany (threw oracle (takenBySecond r1 r2)) k <= maxAttempts r2.
Proof.
  induction k as [|k IH]; intros Hall.
  - splits; [reflexivity|apply Nat.le_0_l|apply Nat.le_0_l].
  - destruct IH as (Hat & H1 & H2); [intros j Hj; apply Hall; lia|].
    destruct (retried oracle (retriersAt oracle (fresh [r1; r2]) 0 k) k)
      as [[wait retry']|] eqn:E; [|now elim (Hall k (Nat.lt_succ_diag_r k))].
    destruct (startOf_next oracle k (fresh [r1; r2]) 0 0%N wait retry') as [_ Hnext].
    { intros j Hj. apply Hall. lia. }
    { exact E. }
    rewrite Hnext. rewrite Hat in E. rewrite !howMany_S.
    apply retried_two in E as [(Hf & Hs & Ha & _ & ->)|(Hf & Hs & Hb & _ & ->)];
      rewrite Hf, Hs, ?Nat.add_0_r, ?Nat.add_1_r; splits; auto.
Qed.

Variable retries : nat.

Lemma two_retriers_retried k :
  k <= settle oracle (fresh [r1; r2]) 0 retries ->
  forall j, j < k ->
            retried oracle (retriersAt oracle (fresh [r1; r2]) 0 j) j <> None.
Proof.
  intros Hk j Hj. apply (settle_retried oracle retries (fresh [r1; r2]) 0 j). lia.
Qed.

(** What the retriers do in a task: how many retries each makes, when the
    next invocation starts, and why the last invocation is not retried. *)
Lemma two_retriers :
  let last := settle oracle (fresh [r1; r2]) 0 retries in
  let first := threw oracle (takenByFirst r1) in
  let second := threw oracle (takenBySecond r1 r2) in
  (forall k, k <= last ->
             howMany first k <= maxAttempts r1 /\ howMany second k <= maxAttempts r2)
  /\ (forall k t,
         k < last ->
         (first k = true
          /\ startOf oracle (fresh [r1; r2]) 0 t (S k)
             = (startOf oracle (fresh [r1; r2]) 0 t k + elapsed (oracle k)
                + backoff r1 (howMany first k))%N)
         \/ (second k = true
             /\ startOf oracle (fresh [r1; r2]) 0 t (S k)
                = (startOf oracle (fresh [r1; r2]) 0 t k + elapsed (oracle k)
                   + backoff r2 (howMany second k))%N))
  /\ (retriesLeft (fresh [r1; r2]) <= retries ->
      (exists payload, outcome (oracle last) = Returned payload)
      \/ (first last = true /\ howMany first last = maxAttempts r1)
      \/ (second last = true /\ howMany second last = maxAttempts r2)
      \/ (exists error cause,
            outcome (oracle last) = Threw error cause
            /\ takenByFirst r1 error = false
            /\ takenBySecond r1 r2 error = false)).
Proof.
  cbn zeta. splits.
  - intros k Hk. apply (two_retriers_at k). now apply two_retriers_retried.
  - intros k t Hk.
    destruct (two_retriers_at k) as (Hat & _); [apply two_retriers_retried; lia|].
    destruct (retried oracle (retriersAt oracle (fresh [r1; r2]) 0 k) k)
      as [[wait retry']|] eqn:E.
    2:{ exfalso. apply (two_retriers_retried (S k) Hk k (Nat.lt_succ_diag_r k)).
        exact E. }
    destruct (startOf_next oracle k (fresh [r1; r2]) 0 t wait retry') as [Hnext _].
    { apply two_retriers_retried. lia. }
    { exact E. }
    rewrite Hnext. rewrite Hat in E.
    apply retried_two in E as [(Hf & _ & _ & -> & _)|(_ & Hs & _ & -> & _)];
      [left|right]; split; auto.
  - intros Henough.
    destruct (two_retriers_at (settle oracle (fresh [r1; r2]) 0 retries))
      as (Hat & H1 & H2); [now apply two_retriers_retried|].
    pose proof (settle_last oracle retries (fresh [r1; r2]) 0 Henough) as Hlast.
    cbn zeta in Hlast. rewrite Nat.sub_0_r, Hat in Hlast.
    apply retried_two_none in Hlast as [H|[[Hf Ha]|[[Hs Hb]|H]]].
    + left. exact H.
    + right. left. split; [assumption|lia].
    + right. right. left. split; [assumption|lia].
    + do 3 right. exact H.
Qed.

End TwoRetriers.

Lemma nth_starts {P : Type} (oracle : nat -> Invocation P) retry t n k :
  k < n ->
  nth k (map (startOf oracle retry 0 t) (seq 0 n)) 0%N = startOf oracle retry 0 t k.
Proof.
  intros Hk.
  rewrite (nth_indep _ 0%N (startOf oracle retry 0 t 0)) by now rewrite length_map, length_seq.
  rewrite map_nth, seq_nth by assumption. reflexivity.
Qed.

Lemma startTimes_invocations {P : Type} (oracle : nat -> Invocation P) retry fn t n h :
  filter (invoked fn) h = invocations oracle retry fn 0 t n ->
  startTimes fn h = map (startOf oracle retry 0 t) (seq 0 n)
  /\ count (invoked fn) h = n.
Proof.
  intros H. unfold startTimes, count. rewrite H. unfold invocations.
  rewrite map_map, length_map, length_seq. split; reflexivity.
Qed.

(** What the two retriers of a task do in an execution that invokes the
    function [n] times, at the seconds [times]: the classes of errors they
    take are [named1] and [named2]. *)
Lemma retries_of_task {P : Type} (oracle : nat -> Invocation P) r1 r2 t n
    (named1 named2 : string -> bool) :
  (forall error, takenByFirst r1 error = named1 error) ->
  (forall error, takenBySecond r1 r2 error = named2 error) ->
  n <= S (settledAt oracle [r1; r2]) ->
  let times := map (startOf oracle (fresh [r1; r2]) 0 t) (seq 0 n) in
  n <= 1 + maxAttempts r1 + maxAttempts r2
  /\ howMany (threw oracle named1) (n - 1) <= maxAttempts r1
  /\ howMany (threw oracle named2) (n - 1) <= maxAttempts r2
  /\ (forall k,
         S k < n ->
         (threw oracle named1 k = true
          /\ nth (S k) times 0%N
             = (nth k times 0 + elapsed (oracle k)
                + backoff r1 (howMany (threw oracle named1) k))%N)
         \/ (threw oracle named2 k = true
             /\ nth (S k) times 0%N
                = (nth k times 0 + elapsed (oracle k)
                   + backoff r2 (howMany (threw oracle named2) k))%N))
  /\ (n = S (settledAt oracle [r1; r2]) ->
      (exists payload, outcome (oracle (n - 1)) = Returned payload)
      \/ (threw oracle named1 (n - 1) = true
          /\ howMany (threw oracle named1) (n - 1) = maxAttempts r1)
      \/ (threw oracle named2 (n - 1) = true
          /\ howMany (threw oracle named2) (n - 1) = maxAttempts r2)
      \/ (exists error cause,
            outcome (oracle (n - 1)) = Threw error cause
            /\ named1 error = false /\ named2 error = false)).
Proof.
  intros H1 H2 Hn. cbn zeta. unfold settledAt in *.
  assert (Hr : retriesLeft (fresh [r1; r2]) = maxAttempts r1 + maxAttempts r2)
    by (unfold fresh, retriesLeft; simpl; lia).
  set (retries := retriesLeft (fresh [r1; r2])) in *.
  destruct (two_retriers oracle r1 r2 retries) as (Hmade & Hnext & Hlast).
  cbn zeta in Hmade, Hnext, Hlast.
  pose proof (settle_bounds oracle retries (fresh [r1; r2]) 0) as Hb.
  assert (Hf : forall k, threw oracle (takenByFirst r1) k = threw oracle named1 k)
    by (intros k; apply threw_ext; exact H1).
  assert (Hs : forall k, threw oracle (takenBySecond r1 r2) k = threw oracle named2 k)
    by (intros k; apply threw_ext; exact H2).
  assert (Hf' : forall k, howMany (threw oracle (takenByFirst r1)) k
                          = howMany (threw oracle named1) k)
    by (intros k; now apply howMany_ext).
  assert (Hs' : forall k, howMany (threw oracle (takenBySecond r1 r2)) k
                          = howMany (threw oracle named2) k)
    by (intros k; now apply howMany_ext).
  splits.
  - lia.
  - rewrite <- Hf'. apply Hmade. lia.
  - rewrite <- Hs'. apply Hmade. lia.
  - intros k Hk. rewrite !nth_starts by lia.
    destruct (Hnext k t) as [[Hc He]|[Hc He]]; [lia| |].
    + left. rewrite <- Hf, <- Hf'. split; assumption.
    + right. rewrite <- Hs, <- Hs'. split; assumption.
  - intros ->. rewrite Nat.sub_succ, Nat.sub_0_r.
    destruct Hlast as [H|[[Hc He]|[[Hc He]|(error & cause & Ho & Hm1 & Hm2)]]];
      [lia| | | |].
    + left. exact H.
    + right. left. rewrite <- Hf, <- Hf'. split; assumption.
    + right. right. left. rewrite <- Hs, <- Hs'. split; assumption.
    + do 3 right. exists error, cause. split; [assumption|].
      rewrite <- H1, <- H2. split; assumption.
Qed.

Lemma matches_serviceException error :
  matches (errors retryOnServiceExceptions) error = serviceException error.
Proof.
  unfold matches, serviceException. simpl.
  now rewrite !(String.eqb_sym error).
Qed.

Lemma second_tooManyRequests error :
  negb (matches (errors retryOnServiceExceptions) error)
  && matches ["Lambda.TooManyRequestsException"] error
  = tooManyRequests error.
Proof.
  rewrite matches_serviceException. unfold matches, tooManyRequests.
  cbn [existsb].
  change (String.eqb "Lambda.TooManyRequestsException" ALL) with false.
  rewrite orb_false_l, orb_false_r, (String.eqb_sym error).
  destruct (String.eqb_spec "Lambda.TooManyRequestsException" error) as [<-|];
    [reflexivity|apply andb_false_r].
Qed.

Lemma second_any error :
  negb (matches (errors retryOnServiceExceptions) error) && matches [ALL] error
  = negb (serviceException error).
Proof.
  rewrite matches_serviceException, matches_ALL by now left. apply andb_true_r.
Qed.

Lemma filter_invoked_branches world branches :
  branchEvents world branches -> filter (invoked CatalogBuilder) branches = [].
Proof. intros Hb. apply filter_nothing. now apply (count_invoked_branches world). Qed.

Lemma filter_invoked_catalogInvocations world fn t n :
  filter (invoked fn) (catalogInvocations world t n)
  = if functionEqb CatalogBuilder fn then catalogInvocations world t n else [].
Proof. unfold catalogInvocations. apply filter_invoked_invocations. Qed.

(** The invocations of the catalog builder in an execution: the first
    ones of the retry loop, all of them up to the one that settles the
    task unless the timeout comes first. *)
Lemma path_catalog_calls world input s evs q :
  Path world input s evs q ->
  exists t n,
    filter (invoked CatalogBuilder) evs = catalogInvocations world t n
    /\ n <= S (catalogSettledAt world)
    /\ (count (entered AddToCatalog) evs = 1 -> s <> TIMED_OUT ->
        n = S (catalogSettledAt world)).
Proof.
  intros [s' branches Hb Hs|branches python typescript t s' tail q' Hb Hcount Ep Et Ha].
  - exists 0%N, 0. unfold entry. cbn [filter invoked].
    rewrite (filter_invoked_branches world) by assumption.
    splits; [reflexivity|lia|].
    count_events. rewrite (count_entered_branches world) by auto. discriminate.
  - pose proof (count_entered_branches world AddToCatalog branches eq_refl Hb) as H1.
    destruct Ha as [? ? ? _ Hc|n _ Hn|payload Payload t' ? ? ? _ _ Hsel Hc
                    |payload _ _ Hsel
                    |error cause structured t' _ _ _|error cause t' _ _ _];
      try destruct Hc;
      [exists 0%N, 0|exists 0%N, 0|exists t, n
       |exists t, (S (catalogSettledAt world))|exists t, (S (catalogSettledAt world))
       |exists t, (S (catalogSettledAt world))|exists t, (S (catalogSettledAt world))
       |exists t, (S (catalogSettledAt world))];
      (splits;
       [ unfold entry;
         repeat (cbn [filter invoked];
                 rewrite ?filter_app, ?filter_invoked_catalogInvocations);
         cbn [functionEqb app];
         rewrite (filter_invoked_branches world), ?app_nil_r by assumption;
         reflexivity
       | lia
       | count_events; rewrite ?H1; simpl; intros; congruence || lia ]).
Qed.

(** The invocations of a transliterator in an execution. *)
Lemma path_branch_calls world input s evs q language :
  Path world input s evs q ->
  exists n,
    filter (invoked (Transliterator language)) evs
    = invocations (transliterator world language) (fresh docGenRetry)
                  (Transliterator language) 0 0 n
    /\ n <= S (branchSettledAt world language)
    /\ (count (entered AnySuccess) evs = 1 -> n = S (branchSettledAt world language)).
Proof.
  intros HP.
  pose proof (path_ended_invocations _ _ _ _ _ HP) as Hended.
  destruct HP as [s' branches Hb Hs|branches python typescript t s' tail q' Hb Hcount Ep Et Ha].
  - destruct (proj2 Hb language) as (n & Hn & Hf).
    exists n. unfold entry. cbn [filter invoked]. rewrite Hf.
    splits; [reflexivity|assumption|].
    intros H. specialize (Hended H language). revert Hended. unfold count, entry.
    cbn [filter invoked]. rewrite Hf, invocations_length. auto.
  - destruct (proj2 Hb language) as (n & Hn & Hf).
    assert (Htail : filter (invoked (Transliterator language))
                           (entry t AnySuccess
                              (withResults [python; typescript] (tracked world input))
                            :: tail) = []).
    { destruct Ha as [? ? ? _ Hc|n' _ Hn'|payload Payload t' ? ? ? _ _ Hsel Hc
                      |payload _ _ Hsel
                      |error cause structured t' _ _ _|error cause t' _ _ _];
        try destruct Hc; unfold entry;
        repeat (cbn [filter invoked];
                rewrite ?filter_app, ?filter_invoked_catalogInvocations);
        reflexivity. }
    exists n. unfold entry in *. cbn [filter invoked].
    rewrite filter_app, Htail, Hf, app_nil_r.
    splits; [reflexivity|assumption|].
    intros H. specialize (Hended H language). revert Hended. unfold count.
    cbn [filter invoked].
    rewrite filter_app, Htail, Hf, app_nil_r, invocations_length. auto.
Qed.

Lemma settle_returned {P : Type} (oracle : nat -> Invocation P) retry attempt retries
    payload :
  outcome (oracle attempt) = Returned payload ->
  settle oracle retry attempt retries = attempt.
Proof.
  intros H. destruct retries as [|r]; [reflexivity|].
  rewrite settle_S. unfold retried. now rewrite H.
Qed.

(** A catalog update that is throttled [n] times and then returns is
    settled by the invocation that returns, as long as the retrier has the
    retries. *)
Lemma settle_throttled world n : forall made attempt retries,
  made + n <= 5 -> n <= retries ->
  (forall k, attempt <= k < attempt + n ->
             exists cause,
               outcome (catalogBuilder world k)
               = Threw "Lambda.TooManyRequestsException" cause) ->
  (exists payload, outcome (catalogBuilder world (attempt + n)) = Returned payload) ->
  settle (catalogBuilder world)
         [(retryOnServiceExceptions, 0);
          (mkRetry ["Lambda.TooManyRequestsException"] 30 5 2, made)]
         attempt retries
  = attempt + n.
Proof.
  induction n as [|n IH]; intros made attempt retries Hmade Hretries Hthrew [payload Hp].
  - rewrite Nat.add_0_r in *. eapply settle_returned; eassumption.
  - destruct retries as [|r]; [lia|]. rewrite settle_S. unfold retried.
    destruct (Hthrew attempt) as [cause ->]; [lia|].
    rewrite retryAfter_two.
    change (matches (errors retryOnServiceExceptions) "Lambda.TooManyRequestsException")
      with false.
    change (matches (errors (mkRetry ["Lambda.TooManyRequestsException"] 30 5 2))
                    "Lambda.TooManyRequestsException")
      with true.
    cbn [maxAttempts].
    destruct (Nat.ltb_spec made 5) as [_|Hge]; [|lia].
    rewrite (IH (S made) (S attempt) r); [lia|lia|lia| |].
    + intros k Hk. apply Hthrew. lia.
    + exists payload. now replace (S attempt + n) with (attempt + S n) by lia.
Qed.

(** A catalog update whose task is settled by an invocation that returns
    an [ETag] and a [VersionId], after branches that all returned: the
    execution succeeds and leaves no message, unless the timeout comes
    first. *)
Lemma path_all_returned world input s evs q :
  Path world input s evs q ->
  (forall language,
      exists Payload,
        settled (transliterator world language) docGenRetry = Returned Payload) ->
  (exists payload Payload,
      settled (catalogBuilder world) addToCatalogRetry = Returned payload
      /\ selectedOf payload = Some Payload) ->
  s <> TIMED_OUT ->
  s = SUCCEEDED /\ q = []
  /\ count (invoked CatalogBuilder) evs = S (catalogSettledAt world).
Proof.
  intros HP Hbranches (payload & Payload & Hcatalog & Hselected) Htime.
  destruct HP as [s branches Hb Hs|branches python typescript t s tail q Hb Hcount Ep Et Ha].
  - exfalso. destruct Hs as [->|[_ [language Hnone]]]; [now apply Htime|].
    destruct (Hbranches language) as [p Hp]. rewrite Hp in Hnone. discriminate.
  - destruct (Hbranches PYTHON) as [p1 Hp1], (Hbranches TYPESCRIPT) as [p2 Hp2].
    rewrite Hp1 in Ep. rewrite Hp2 in Et. simpl in Ep, Et.
    injection Ep as <-. injection Et as <-.
    pose proof (count_invoked_branches world branches Hb) as Hc.
    match type of Ha with AfterDocGen _ _ ?d _ _ _ =>
      assert (Hsome : anyBranch isNotPresent d = true)
        by (rewrite anyBranch_isNotPresent; rewrite resultsIn_withResults; reflexivity);
      assert (Hnone : forall Payload', anyBranch isPresent (withCatalog Payload' d) = false)
        by (intros; rewrite anyBranch_isPresent;
            rewrite resultsIn_withCatalog, resultsIn_withResults; reflexivity)
    end.
    destruct Ha as [? ? ? Hno Hd|n _ Hn|payload' Payload' t' ? ? ? _ Hs Hsel Hd
                    |payload' _ Hs Hsel
                    |error cause structured t' _ Hs _|error cause t' _ Hs _];
      try (rewrite Hs in Hcatalog; discriminate);
      try (now elim Htime); try congruence.
    destruct Hd as [Hyes|_]; [rewrite Hnone in Hyes; discriminate Hyes|].
    split; [reflexivity|]. split; [reflexivity|].
    count_events. rewrite Hc. lia.
Qed.




(** ** Redrive *)

Section RedriveFacts.

Import Redrive.

Variable start : nat -> object -> bool.

Lemma drain_spec queue : forall n,
  let calls := combine (seq n (List.length queue)) queue in
  started (drain start n queue) = map originalInput queue
  /\ remaining (drain start n queue)
     = map snd (filter (fun call => negb (acknowledged start call)) calls)
  /\ attempted (counts (drain start n queue)) = List.length queue
  /\ succeeded (counts (drain start n queue))
     = List.length (filter (acknowledged start) calls)
  /\ failed (counts (drain start n queue))
     = List.length (remaining (drain start n queue)).
Proof.
  induction queue as [|message rest IH]; intros n; cbn zeta.
  - splits; reflexivity.
  - destruct (IH (S n)) as (Hs & Hr & Ha & Hy & Hf). cbn zeta in *.
    simpl.
    change (acknowledged start (n, message)) with (start n (originalInput message)).
    destruct (start n (originalInput message)); simpl;
      rewrite Hs, Ha, Hy, Hf, Hr; splits; reflexivity.
Qed.

End RedriveFacts.

(** C9.  Redrive calls [start] once with the original input of every
    message of the queue, in order; it leaves in the queue exactly the
    messages whose start was not acknowledged; and it returns the number of
    messages, the number of acknowledged starts and the number of messages
    left.  With three messages and two acknowledged starts it returns 3, 2
    and 1, and one message is left. *)
Theorem redrive_removes_acknowledged_only
    (start : nat -> object -> bool) (queue : list Redrive.DeadLetterMessage) :
  let result := Redrive.redrive start queue in
  let calls := combine (seq 0 (List.length queue)) queue in
  Redrive.started result = map Redrive.originalInput queue
  /\ Redrive.remaining result
     = map snd (filter (fun call => negb (Redrive.acknowledged start call)) calls)
  /\ Redrive.attempted (Redrive.counts result) = List.length queue
  /\ Redrive.succeeded (Redrive.counts result)
     = List.length (filter (Redrive.acknowledged start) calls)
  /\ Redrive.failed (Redrive.counts result)
     = List.length (Redrive.remaining result)
  /\ Redrive.attempted (Redrive.counts result)
     = Redrive.succeeded (Redrive.counts result)
       + Redrive.failed (Redrive.counts result)
  /\ (List.length queue = 3 ->
      List.length (filter (Redrive.acknowledged start) calls) = 2 ->
      Redrive.counts result = Redrive.mkCounts 3 2 1
      /\ List.length (Redrive.remaining result) = 1).
Proof.
  cbn zeta. unfold Redrive.redrive.
  destruct (drain_spec start queue 0) as (Hs & Hr & Ha & Hy & Hf). cbn zeta in *.
  assert (Hsum : Redrive.attempted (Redrive.counts (Redrive.drain start 0 queue))
                 = Redrive.succeeded (Redrive.counts (Redrive.drain start 0 queue))
                   + Redrive.failed (Redrive.counts (Redrive.drain start 0 queue))).
  { rewrite Ha, Hy, Hf, Hr, length_map.
    set (calls := combine (seq 0 (List.length queue)) queue).
    assert (Hl : List.length calls = List.length queue).
    { subst calls. rewrite length_combine, length_seq. lia. }
    rewrite <- Hl. clear.
    induction calls as [|call calls IH]; simpl; [reflexivity|].
    destruct (Redrive.acknowledged start call); simpl; lia. }
  split; [exact Hs|]. split; [exact Hr|]. split; [exact Ha|].
  split; [exact Hy|]. split; [exact Hf|]. split; [exact Hsum|].
  intros H3 H2.
  rewrite <- Hf. rewrite H2 in Hy. rewrite H3 in Ha.
  destruct (Redrive.counts (Redrive.drain start 0 queue)) as [a s f].
  simpl in *. split; [f_equal; lia|lia].
Qed.

Lemma redrive_removes_acknowledged_only_witness :
  let message (name : string) :=
    Redrive.mkMessage [("pkg", JString name)] (JObject []) 0 in
  let queue := [message "a"; message "b"; message "c"] in
  let start (n : nat) (_ : object) := negb (Nat.eqb n 1) in
  Redrive.counts (Redrive.redrive start queue) = Redrive.mkCounts 3 2 1
  /\ Redrive.remaining (Redrive.redrive start queue) = [message "b"].
Proof.
  cbn zeta. split.
  - apply (redrive_removes_acknowledged_only
             (fun n _ => negb (Nat.eqb n 1))
             [Redrive.mkMessage [("pkg", JString "a")] (JObject []) 0;
              Redrive.mkMessage [("pkg", JString "b")] (JObject []) 0;
              Redrive.mkMessage [("pkg", JString "c")] (JObject []) 0]);
      reflexivity.
  - reflexivity.
Defined.

(** ** The scenarios of the specification *)

(** Both branches succeed: the catalog is updated once, no message. *)
Example both_branches_succeed :
  let execution := stateMachine Scenarios.bothSucceed Scenarios.workItem in
  status execution = SUCCEEDED
  /\ count (entered AddToCatalog) (events execution) = 1
  /\ messages execution = [].
Proof. vm_compute. repeat split. Qed.

(** One branch fails for good: the catalog is still updated once, and the
    one message holds the work item and both results. *)
Example one_branch_fails :
  let execution := stateMachine Scenarios.oneFails Scenarios.workItem in
  status execution = FAILED
  /\ count (entered AddToCatalog) (events execution) = 1
  /\ exists message,
       messages execution = [JObject message]
       /\ lookup "pkg" message = Some (JString "foo")
       /\ List.length (resultsIn (JObject message)) = 2.
Proof. vm_compute. split; [reflexivity|]. split; [reflexivity|]. eexists. repeat split. Qed.

(** Both branches fail: the catalog is not updated, one message. *)
Example both_branches_fail :
  let execution := stateMachine Scenarios.bothFail Scenarios.workItem in
  status execution = FAILED
  /\ count (entered AddToCatalog) (events execution) = 0
  /\ List.length (messages execution) = 1.
Proof. vm_compute. repeat split. Qed.

(* ===================================================================== *)
(** * Further properties of the state machine *)
(* ===================================================================== *)

(** ** After 'DocGen' *)

Lemma selectedOf_members payload Payload :
  selectedOf payload = Some Payload ->
  jsonPath [Field "ETag"] payload = Some (ETag Payload)
  /\ jsonPath [Field "VersionId"] payload = Some (VersionId Payload).
Proof.
  unfold selectedOf.
  destruct (jsonPath [Field "ETag"] payload) as [etag|]; [|discriminate].
  destruct (jsonPath [Field "VersionId"] payload) as [version|]; [|discriminate].
  intros [= <-]. split; reflexivity.
Qed.

Lemma results_tags world python typescript :
  branchResult PYTHON (settled (transliterator world PYTHON) docGenRetry) = Some python ->
  branchResult TYPESCRIPT (settled (transliterator world TYPESCRIPT) docGenRetry)
  = Some typescript ->
  forall document,
    let d := withResults [python; typescript] document in
    anyBranch isNotPresent d = hasTag "success" python || hasTag "success" typescript
    /\ anyBranch isPresent d = hasTag "error" python || hasTag "error" typescript
    /\ (forall Payload,
           anyBranch isPresent (withCatalog Payload d)
           = hasTag "error" python || hasTag "error" typescript)
    /\ hasTag "success" python = negb (hasTag "error" python)
    /\ hasTag "success" typescript = negb (hasTag "error" typescript).
Proof.
  intros Ep Et document. cbn zeta.
  rewrite (success_iff_no_error world python typescript Ep Et).
  rewrite anyBranch_isPresent by (now rewrite resultsIn_withResults).
  rewrite resultsIn_withResults.
  apply branchResult_tags in Ep as [_ Ep], Et as [_ Et]. simpl.
  rewrite !orb_false_r. splits; auto.
  intros Payload.
  rewrite anyBranch_isPresent
    by (now rewrite resultsIn_withCatalog, resultsIn_withResults).
  rewrite resultsIn_withCatalog, resultsIn_withResults. simpl.
  now rewrite orb_false_r.
Qed.

(** X1.  An execution succeeds only when every branch result carries
    [success] and the task of the catalog builder is left with a payload
    that has an [ETag] and a [VersionId]: then 'Add to catalog.json' and
    'Success' were entered once each, 'Fail' never, and the dead letter
    queue is empty. *)
Theorem succeeded_only_when_all_succeeded world input :
  let execution := stateMachine world input in
  status execution = SUCCEEDED ->
  List.length (branchResults (events execution)) = List.length SUPPORTED_LANGUAGES
  /\ forallb (hasTag "success") (branchResults (events execution)) = true
  /\ existsb (hasTag "error") (branchResults (events execution)) = false
  /\ (exists payload etag version,
         settled (catalogBuilder world) addToCatalogRetry = Returned payload
         /\ jsonPath [Field "ETag"] payload = Some etag
         /\ jsonPath [Field "VersionId"] payload = Some version)
  /\ count (entered AddToCatalog) (events execution) = 1
  /\ count (entered SuccessState) (events execution) = 1
  /\ count (entered FailState) (events execution) = 0
  /\ messages execution = [].
Proof.
  cbn zeta. intros Hs.
  destruct (stateMachine_path world input)
    as [s branches Hb Hstop|branches python typescript t s tail q Hb Hcount Ep Et Ha].
  - exfalso. destruct Hstop as [->|[-> _]]; discriminate Hs.
  - rewrite (branchResults_ended world) by assumption.
    destruct (results_tags world python typescript Ep Et (tracked world input))
      as (Hno & Hyes & Hcat & Hp & Ht).
    pose proof (count_entered_branches world AddToCatalog branches eq_refl Hb) as H1.
    pose proof (count_entered_branches world SuccessState branches eq_refl Hb) as H2.
    pose proof (count_entered_branches world FailState branches eq_refl Hb) as H3.
    destruct Ha as [? ? ? Hskip Hc|n _ _|payload Payload t' ? ? ? _ Hret Hsel Hc
                    |payload _ Hret Hsel
                    |error cause structured t' _ _ _|error cause t' _ _ _];
      try discriminate Hs; destruct Hc as [Herr|Herr]; try discriminate Hs.
    + exfalso. rewrite Hno in Hskip. rewrite Hyes in Herr.
      rewrite Hp, Ht in Hskip.
      destruct (hasTag "error" python), (hasTag "error" typescript); discriminate.
    + rewrite Hcat in Herr. apply orb_false_iff in Herr as [He1 He2].
      rewrite He1 in Hp. rewrite He2 in Ht.
      split; [reflexivity|].
      split; [cbn [forallb]; rewrite Hp, Ht; reflexivity|].
      split; [cbn [existsb]; rewrite He1, He2; reflexivity|].
      destruct (selectedOf_members _ _ Hsel) as [Hetag Hversion].
      split; [eauto 6|].
      splits; try reflexivity; count_events; rewrite ?H1, ?H2, ?H3; reflexivity.
Qed.

Lemma succeeded_only_when_all_succeeded_witness :
  forallb (hasTag "success")
          (branchResults (events (stateMachine Scenarios.bothSucceed Scenarios.workItem)))
  = true
  /\ messages (stateMachine Scenarios.bothSucceed Scenarios.workItem) = [].
Proof.
  destruct (succeeded_only_when_all_succeeded Scenarios.bothSucceed Scenarios.workItem)
    as (_ & Hall & _ & _ & _ & _ & _ & Hq).
  - vm_compute. reflexivity.
  - split; assumption.
Defined.

(** X2.  When 'Any Success?' is entered and no branch result carries
    [success], the catalog is not touched, the execution fails, and the
    input of 'Any Success?' is the one message in the dead letter queue. *)
Theorem no_success_sends_the_results world input t document :
  let execution := stateMachine world input in
  In (entry t AnySuccess document) (events execution) ->
  existsb (hasTag "success") (resultsIn (JObject document)) = false ->
  status execution = FAILED
  /\ messages execution = [JObject document]
  /\ count (entered AddToCatalog) (events execution) = 0
  /\ count (invoked CatalogBuilder) (events execution) = 0.
Proof.
  cbn zeta. intros Hin Hnone.
  pose proof (stateMachine_path world input) as HP.
  destruct (path_after_docGen _ _ _ _ _ _ _ HP Hin)
    as (branches & python & typescript & tail & Hb & Ep & Et & -> & -> & Ha).
  destruct (results_tags world python typescript Ep Et (tracked world input))
    as (Hno & Hyes & Hcat & Hp & Ht).
  rewrite resultsIn_withResults in Hnone. simpl in Hnone.
  rewrite orb_false_r in Hnone. rewrite <- Hno in Hnone.
  pose proof (count_entered_branches world AddToCatalog branches eq_refl Hb) as H1.
  pose proof (count_invoked_branches world branches Hb) as H2.
  destruct Ha as [? ? ? _ Hc|n Hsome _|payload Payload t' ? ? ? Hsome _ Hsel _
                  |payload Hsome _ Hsel
                  |error cause structured t' Hsome _ _|error cause t' Hsome _ _];
    try congruence.
  destruct Hc as [Herr|Herr].
  - splits; try reflexivity; count_events; rewrite ?H1, ?H2; reflexivity.
  - exfalso. rewrite Hno in Hnone. rewrite Hyes in Herr. rewrite Hp, Ht in Hnone.
    destruct (hasTag "error" python), (hasTag "error" typescript); discriminate.
Qed.

Lemma no_success_sends_the_results_witness :
  status (stateMachine Scenarios.bothFail Scenarios.workItem) = FAILED
  /\ messages (stateMachine Scenarios.bothFail Scenarios.workItem)
     = [JObject Scenarios.redriven].
Proof.
  assert (Hin : In (entry 250 AnySuccess Scenarios.redriven)
                   (events (stateMachine Scenarios.bothFail Scenarios.workItem))).
  { vm_compute. repeat (first [left; reflexivity | right]). }
  destruct (no_success_sends_the_results Scenarios.bothFail Scenarios.workItem
              250%N Scenarios.redriven Hin) as (Hs & Hq & _).
  - vm_compute. reflexivity.
  - split; assumption.
Defined.

(** X3.  The machine has no loop: no state outside the branches of
    'DocGen' is entered twice in an execution. *)
Theorem mainline_states_entered_at_most_once world input name :
  mainline name = true ->
  count (entered name) (events (stateMachine world input)) <= 1.
Proof.
  intros Hm.
  destruct (stateMachine_path world input)
    as [s branches Hb Hstop|branches python typescript t s tail q Hb Hcount Ep Et Ha].
  - pose proof (count_entered_branches world name branches Hm Hb) as H.
    destruct name; try discriminate Hm; count_events; rewrite H; lia.
  - pose proof (count_entered_branches world name branches Hm Hb) as H.
    destruct Ha as [? ? ? _ Hc|n _ _|payload Payload t' ? ? ? _ _ Hsel Hc
                    |payload _ _ Hsel
                    |error cause structured t' _ _ _|error cause t' _ _ _];
      try destruct Hc;
      destruct name; try discriminate Hm; count_events; rewrite H; lia.
Qed.

Lemma mainline_states_entered_at_most_once_witness :
  count (entered AnyFailure)
        (events (stateMachine Scenarios.oneFails Scenarios.workItem)) <= 1.
Proof.
  apply (mainline_states_entered_at_most_once
           Scenarios.oneFails Scenarios.workItem AnyFailure).
  reflexivity.
Defined.

(** X4.  The results 'DocGen' hands on are in the order of
    [SUPPORTED_LANGUAGES], each with the name of its language: the result
    at index [i], which the Choice states test, is the one of the [i]-th
    language. *)
Theorem branch_results_follow_supported_languages world input t document :
  In (entry t AnySuccess document) (events (stateMachine world input)) ->
  map (jsonPath [Field "language"]) (resultsIn (JObject document))
  = map (fun language => Some (JString (languageName language))) SUPPORTED_LANGUAGES.
Proof.
  intros Hin.
  destruct (path_after_docGen _ _ _ _ _ _ _ (stateMachine_path world input) Hin)
    as (branches & python & typescript & tail & _ & Ep & Et & -> & _ & _).
  rewrite resultsIn_withResults.
  unfold branchResult in Ep, Et.
  destruct (settled (transliterator world PYTHON) docGenRetry) as [p1|e1 c1];
    destruct (settled (transliterator world TYPESCRIPT) docGenRetry) as [p2|e2 c2];
    try destruct (States.StringToJson c1); try destruct (States.StringToJson c2);
    try discriminate; injection Ep as <-; injection Et as <-; reflexivity.
Qed.

Lemma branch_results_follow_supported_languages_witness :
  map (jsonPath [Field "language"]) (resultsIn (JObject Scenarios.redriven))
  = [Some (JString "python"); Some (JString "typescript")].
Proof.
  apply (branch_results_follow_supported_languages
           Scenarios.bothFail Scenarios.workItem 250%N Scenarios.redriven).
  vm_compute. repeat (first [left; reflexivity | right]).
Defined.

(** X5.  Every branch result is made of what the task of its own language
    was left with, whatever the other branch did: the returned payload
    under [success], or the cause of the error, read as JSON, under
    [error]. *)
Theorem branch_result_wraps_own_outcome world input t document i language :
  In (entry t AnySuccess document) (events (stateMachine world input)) ->
  nth_error SUPPORTED_LANGUAGES i = Some language ->
  match settled (transliterator world language) docGenRetry with
  | Returned Payload =>
      nth_error (resultsIn (JObject document)) i
      = Some (JObject [("language", JString (languageName language));
                       ("success", Payload)])
  | Threw _ cause =>
      exists structured,
        States.StringToJson cause = Some structured
        /\ nth_error (resultsIn (JObject document)) i
           = Some (JObject [("error", structured);
                            ("language", JString (languageName language))])
  end.
Proof.
  intros Hin Hi.
  destruct (path_after_docGen _ _ _ _ _ _ _ (stateMachine_path world input) Hin)
    as (branches & python & typescript & tail & _ & Ep & Et & -> & _ & _).
  rewrite resultsIn_withResults.
  unfold branchResult in Ep, Et.
  destruct i as [|[|i]]; simpl in Hi; [| |destruct i; discriminate Hi];
    injection Hi as <-; simpl.
  - destruct (settled (transliterator world PYTHON) docGenRetry) as [p|e c].
    + now rewrite <- Ep.
    + destruct (States.StringToJson c) as [j|]; [|discriminate].
      exists j. split; [reflexivity|now rewrite <- Ep].
  - destruct (settled (transliterator world TYPESCRIPT) docGenRetry) as [p|e c].
    + now rewrite <- Et.
    + destruct (States.StringToJson c) as [j|]; [|discriminate].
      exists j. split; [reflexivity|now rewrite <- Et].
Qed.

Lemma branch_result_wraps_own_outcome_witness :
  nth_error
    (resultsIn (JObject
       (withResults
          [JObject [("language", JString "python");
                    ("success", JObject [("generated", JBool true)])];
           JObject [("error", JObject [("errorType", JString "Error");
                                       ("errorMessage", JString "boom")]);
                    ("language", JString "typescript")]]
          (tracked Scenarios.oneFails Scenarios.workItem)))) 0
  = Some (JObject [("language", JString "python");
                   ("success", JObject [("generated", JBool true)])]).
Proof.
  apply (branch_result_wraps_own_outcome Scenarios.oneFails Scenarios.workItem
           250%N _ 0 PYTHON).
  - vm_compute. repeat (first [left; reflexivity | right]).
  - reflexivity.
Defined.

(** ** The catalog update *)

(** X6.  When 'Any Failure?' is entered after a catalog update, the
    payload the catalog builder returned has an [ETag] and a [VersionId],
    and the document holds exactly these two under [catalogBuilderOutput];
    when the update was skipped, that field is as it was in the work
    item. *)
Theorem catalog_output_is_the_selected_payload world input t document :
  let execution := stateMachine world input in
  In (entry t AnyFailure document) (events execution) ->
  (count (entered AddToCatalog) (events execution) = 1
   /\ exists payload etag version,
        settled (catalogBuilder world) addToCatalogRetry = Returned payload
        /\ jsonPath [Field "ETag"] payload = Some etag
        /\ jsonPath [Field "VersionId"] payload = Some version
        /\ lookup "catalogBuilderOutput" document
           = Some (JObject [("ETag", etag); ("VersionId", version)]))
  \/ (count (entered AddToCatalog) (events execution) = 0
      /\ lookup "catalogBuilderOutput" document
         = lookup "catalogBuilderOutput" input).
Proof.
  cbn zeta. intros Hin.
  destruct (stateMachine_path world input)
    as [s branches Hb Hs|branches python typescript t0 s tail q Hb Hcount Ep Et Ha].
  - exfalso. split_in Hin; try discriminate Hin.
    eapply branch_entry; eauto. reflexivity.
  - pose proof (count_entered_branches world AddToCatalog branches eq_refl Hb) as H1.
    split_in Hin; try discriminate Hin.
    { exfalso. eapply branch_entry; eauto. reflexivity. }
    destruct Ha as [? ? ? _ Hc|n _ _|payload Payload t' ? ? ? _ Hret Hsel Hc
                    |payload _ Hret Hsel
                    |error cause structured t' _ _ _|error cause t' _ _ _].
    + right. rewrite (dlqCheck_entry _ _ _ _ _ _ _ Hc Hin). split.
      * destruct Hc; count_events; rewrite H1; reflexivity.
      * unfold withResults, tracked.
        now rewrite !lookup_put_other by discriminate.
    + split_in Hin; discriminate Hin.
    + left. split_in Hin; try discriminate Hin.
      rewrite (dlqCheck_entry _ _ _ _ _ _ _ Hc Hin). split.
      * destruct Hc; count_events; rewrite H1; reflexivity.
      * destruct (selectedOf_members _ _ Hsel) as [He Hv].
        exists payload, (ETag Payload), (VersionId Payload).
        splits; try assumption. apply lookup_put_same.
    + split_in Hin; discriminate Hin.
    + split_in Hin; discriminate Hin.
    + split_in Hin; discriminate Hin.
Qed.

Lemma catalog_output_is_the_selected_payload_witness :
  exists document,
    In (entry 255 AnyFailure document)
       (events (stateMachine Scenarios.oneFails Scenarios.workItem))
    /\ lookup "catalogBuilderOutput" document
       = Some (JObject [("ETag", JString "0x8D9"); ("VersionId", JString "3")]).
Proof.
  assert (Hin : exists document,
             In (entry 255 AnyFailure document)
                (events (stateMachine Scenarios.oneFails Scenarios.workItem))).
  { eexists. vm_compute. repeat (first [left; reflexivity | right]). }
  destruct Hin as [document Hin]. exists document. split; [exact Hin|].
  destruct (catalog_output_is_the_selected_payload
              Scenarios.oneFails Scenarios.workItem 255%N document Hin)
    as [(_ & payload & etag & version & Hp & He & Hv & Hl)|(Hzero & _)].
  - rewrite Hl. vm_compute in Hp. injection Hp as <-.
    vm_compute in He, Hv. injection He as <-. injection Hv as <-. reflexivity.
  - vm_compute in Hzero. discriminate Hzero.
Defined.

(** X16.  A catalog update whose task is left with a payload that lacks
    the [ETag] or the [VersionId] fails the execution where the result is
    selected: nothing catches the failure, 'Any Failure?' is never entered
    and nothing is sent to the dead letter queue, whatever the branches
    did. *)
Theorem payload_without_members_fails_the_execution world input payload :
  let execution := stateMachine world input in
  count (entered AddToCatalog) (events execution) = 1 ->
  settled (catalogBuilder world) addToCatalogRetry = Returned payload ->
  jsonPath [Field "ETag"] payload = None
  \/ jsonPath [Field "VersionId"] payload = None ->
  status execution <> TIMED_OUT ->
  status execution = FAILED
  /\ messages execution = []
  /\ count (entered AnyFailure) (events execution) = 0
  /\ count (entered FailedToAddToCatalog) (events execution) = 0.
Proof.
  cbn zeta. intros Hentered Hreturned Hlacks Htime.
  assert (Hnone : selectedOf payload = None).
  { unfold selectedOf. destruct Hlacks as [-> | ->]; [reflexivity|].
    now destruct (jsonPath [Field "ETag"] payload). }
  destruct (stateMachine_path world input)
    as [s branches Hb Hs|branches python typescript t s tail q Hb Hcount Ep Et Ha].
  - exfalso. revert Hentered. count_events.
    rewrite (count_entered_branches world) by auto. discriminate.
  - pose proof (count_entered_branches world AddToCatalog branches eq_refl Hb) as H1.
    pose proof (count_entered_branches world AnyFailure branches eq_refl Hb) as H2.
    pose proof (count_entered_branches world FailedToAddToCatalog branches eq_refl Hb)
      as H3.
    destruct Ha as [? ? ? _ Hc|n _ _|payload' Payload t' ? ? ? _ Hret Hsel Hc
                    |payload' _ Hret Hsel
                    |error cause structured t' _ Hret _|error cause t' _ Hret _];
      try (rewrite Hreturned in Hret; discriminate Hret).
    + exfalso. revert Hentered. destruct Hc; count_events; rewrite H1; discriminate.
    + now elim Htime.
    + rewrite Hreturned in Hret. injection Hret as <-.
      rewrite Hnone in Hsel. discriminate Hsel.
    + splits; try reflexivity; count_events; rewrite ?H2, ?H3; reflexivity.
Qed.

Lemma payload_without_members_fails_the_execution_witness :
  status (stateMachine Scenarios.unversioned Scenarios.workItem) = FAILED
  /\ messages (stateMachine Scenarios.unversioned Scenarios.workItem) = [].
Proof.
  destruct (payload_without_members_fails_the_execution
              Scenarios.unversioned Scenarios.workItem
              (JObject [("ETag", JString "0x8D9")]))
    as (Hs & Hq & _).
  - vm_compute. reflexivity.
  - vm_compute. reflexivity.
  - right. reflexivity.
  - vm_compute. discriminate.
  - split; assumption.
Defined.

(** X7.  When the catalog update is left with an error whose cause is
    JSON text, the message in the dead letter queue is the error alone: it
    has the three fields [Error], [Cause] and [error], the last one holding
    the cause read as JSON, and no field of the document the task was
    entered with. *)
Theorem caught_catalog_error_replaces_the_document world input error cause structured :
  let execution := stateMachine world input in
  count (entered FailedToAddToCatalog) (events execution) = 1 ->
  settled (catalogBuilder world) addToCatalogRetry = Threw error cause ->
  States.StringToJson cause = Some structured ->
  messages execution
  = [JObject [("Error", JString error); ("Cause", JString cause);
              ("error", JObject [("error", structured)])]]
  /\ status execution = FAILED
  /\ count (entered AnyFailure) (events execution) = 0.
Proof.
  cbn zeta. intros Hentered Hthrew Hparse.
  destruct (catalog_failure_path world input Hentered)
    as (Hnever & Hs & error' & cause' & Hthrew' & Hq).
  rewrite Hthrew in Hthrew'. injection Hthrew' as <- <-.
  rewrite Hparse in Hq. rewrite Hq. splits; auto.
Qed.

Lemma caught_catalog_error_replaces_the_document_witness :
  messages (stateMachine Scenarios.catalogBroken Scenarios.workItem)
  = [JObject [("Error", JString "Error");
              ("Cause", JString Scenarios.failureText);
              ("error", JObject [("error",
                                  JObject [("errorType", JString "Error");
                                           ("errorMessage", JString "boom")])])]].
Proof.
  apply (caught_catalog_error_replaces_the_document
           Scenarios.catalogBroken Scenarios.workItem
           "Error" Scenarios.failureText
           (JObject [("errorType", JString "Error");
                     ("errorMessage", JString "boom")]));
    vm_compute; reflexivity.
Defined.

(** ** 'DocGen' *)

(** X8.  'DocGen' ends in exactly one of three ways.  It hands its
    results to 'Any Success?', which takes that every task is left with a
    payload or with an error whose cause is JSON text.  Or the execution
    times out.  Or the execution fails inside 'DocGen', which takes a task
    left with an error whose cause is not JSON text.  In the last two cases
    nothing is sent to the dead letter queue. *)
Theorem docGen_ends_fails_or_times_out world input :
  let execution := stateMachine world input in
  (count (entered AnySuccess) (events execution) = 1
   /\ forall language,
        branchResult language (settled (transliterator world language) docGenRetry)
        <> None)
  \/ (count (entered AnySuccess) (events execution) = 0
      /\ status execution = TIMED_OUT
      /\ messages execution = [])
  \/ (count (entered AnySuccess) (events execution) = 0
      /\ status execution = FAILED
      /\ messages execution = []
      /\ exists language error cause,
           settled (transliterator world language) docGenRetry = Threw error cause
           /\ States.StringToJson cause = None).
Proof.
  cbn zeta.
  destruct (stateMachine_path world input)
    as [s branches Hb Hs|branches python typescript t s tail q Hb Hcount Ep Et Ha].
  - pose proof (count_entered_branches world AnySuccess branches eq_refl Hb) as H1.
    right. destruct Hs as [->|[-> [language Hnone]]]; [left|right].
    + splits; try reflexivity. count_events. now rewrite H1.
    + splits; try reflexivity; [count_events; now rewrite H1|].
      exists language. unfold branchResult in Hnone.
      destruct (settled (transliterator world language) docGenRetry)
        as [Payload|error cause]; [discriminate|].
      exists error, cause. split; [reflexivity|].
      destruct (States.StringToJson cause); [discriminate|reflexivity].
  - left. pose proof (count_entered_branches world AnySuccess branches eq_refl Hb) as H1.
    split.
    + destruct Ha as [? ? ? _ Hc|n _ _|payload Payload t' ? ? ? _ _ Hsel Hc
                      |payload _ _ Hsel
                      |error cause structured t' _ _ _|error cause t' _ _ _];
        try destruct Hc; count_events; rewrite H1; reflexivity.
    + intros [|]; congruence.
Qed.

(** ** Messages *)

Lemma keys_put key value o x :
  In x (map fst (put key value o)) <-> x = key \/ In x (map fst o).
Proof.
  induction o as [|[k v] rest IH]; unfold put; fold put; simpl.
  - intuition.
  - destruct (String.eqb_spec k key) as [->|Hne]; simpl.
    + intuition.
    + rewrite IH. intuition.
Qed.

(** Writing a field keeps the keys of a document distinct. *)
Lemma put_keeps_keys_distinct key value o :
  NoDup (map fst o) -> NoDup (map fst (put key value o)).
Proof.
  induction o as [|[k v] rest IH]; unfold put; fold put; simpl; intros Hnd.
  - constructor; [intros []|constructor].
  - inversion Hnd as [|? ? Hnotin Hrest]; subst.
    destruct (String.eqb_spec k key) as [->|Hne]; simpl.
    + constructor; assumption.
    + constructor; [|now apply IH].
      rewrite keys_put. intros [->|Hin]; [now apply Hne|now apply Hnotin].
Qed.

(** A message, if there is one, is the input of the last two states of
    the execution, 'Send to Dead Letter Queue' and 'Fail'; it is the
    document 'Any Failure?' tested or the caught error of the catalog
    update. *)
Lemma path_message world input s evs q message :
  Path world input s evs q ->
  In (JObject message) q ->
  q = [JObject message]
  /\ (exists before t,
         evs = before ++ [entry t SendToDeadLetterQueue message;
                          entry t FailState message])
  /\ ((exists results,
          message = withResults results (tracked world input)
          \/ exists Payload,
               message = withCatalog Payload (withResults results (tracked world input)))
      \/ exists error cause structured,
           message = caughtDocument error cause structured).
Proof.
  intros HP Hin.
  destruct HP as [s branches Hb Hs|branches python typescript t s tail q Hb Hcount Ep Et Ha];
    [destruct Hin|].
  destruct Ha as [? ? ? _ Hc|n _ _|payload Payload t' ? ? ? _ _ Hsel Hc
                  |payload _ _ Hsel
                  |error cause structured t' _ _ _|error cause t' _ _ _];
    try destruct Hc; try (now destruct Hin);
    destruct Hin as [[= <-]|[]]; (split; [reflexivity|]); split.
  - exists (entry 0 TrackExecutionInfos input :: entry 0 DocGen (tracked world input)
            :: branches
            ++ [entry t AnySuccess (withResults [python; typescript] (tracked world input));
                entry t AnyFailure (withResults [python; typescript] (tracked world input))]),
      t.
    simpl. rewrite <- app_assoc. reflexivity.
  - left. exists [python; typescript]. now left.
  - eexists (entry 0 TrackExecutionInfos input :: entry 0 DocGen (tracked world input)
             :: branches
             ++ entry t AnySuccess (withResults [python; typescript] (tracked world input))
             :: entry t AddToCatalog (withResults [python; typescript] (tracked world input))
             :: catalogInvocations world t (S (catalogSettledAt world))
             ++ [entry t' AnyFailure _]), t'.
    simpl. rewrite <- !app_assoc. simpl. rewrite <- !app_assoc. reflexivity.
  - left. exists [python; typescript]. right. eauto.
  - eexists (entry 0 TrackExecutionInfos input :: entry 0 DocGen (tracked world input)
             :: branches
             ++ entry t AnySuccess (withResults [python; typescript] (tracked world input))
             :: entry t AddToCatalog (withResults [python; typescript] (tracked world input))
             :: catalogInvocations world t (S (catalogSettledAt world))
             ++ [entry t' FailedToAddToCatalog (errorOutput error cause)]), t'.
    simpl. rewrite <- !app_assoc. simpl. rewrite <- !app_assoc. reflexivity.
  - right. eauto.
Qed.

(** X9.  A work item whose keys are distinct gives messages whose keys
    are distinct: a state that writes under a key the document already has
    replaces the field and never adds a second one. *)
Theorem messages_keep_keys_distinct world input message :
  NoDup (map fst input) ->
  In (JObject message) (messages (stateMachine world input)) ->
  NoDup (map fst message).
Proof.
  intros Hnd Hin.
  destruct (path_message _ _ _ _ _ _ (stateMachine_path world input) Hin)
    as (_ & _ & [[results [->|[Payload ->]]]|(error & cause & structured & ->)]).
  - unfold withResults, tracked. now do 2 apply put_keeps_keys_distinct.
  - unfold withCatalog, withResults, tracked. now do 3 apply put_keeps_keys_distinct.
  - unfold caughtDocument, errorOutput. apply put_keeps_keys_distinct.
    simpl. repeat constructor; simpl; intuition discriminate.
Qed.

Lemma messages_keep_keys_distinct_witness :
  NoDup (map fst Scenarios.redriven).
Proof.
  apply (messages_keep_keys_distinct Scenarios.bothFail Scenarios.workItem).
  - simpl. repeat constructor; simpl; intuition discriminate.
  - vm_compute. left. reflexivity.
Defined.

(** X10.  Sending the message is the last thing an execution does: when
    there is a message, the execution ends with 'Send to Dead Letter Queue'
    and 'Fail', both entered with the very document that is the message, so
    no state changes the document after it was sent. *)
Theorem message_is_the_last_document world input message :
  let execution := stateMachine world input in
  In (JObject message) (messages execution) ->
  messages execution = [JObject message]
  /\ exists before t,
       events execution
       = before ++ [entry t SendToDeadLetterQueue message; entry t FailState message].
Proof.
  cbn zeta. intros Hin.
  destruct (path_message _ _ _ _ _ _ (stateMachine_path world input) Hin)
    as (Hq & Hlast & _).
  split; assumption.
Qed.

Lemma message_is_the_last_document_witness :
  messages (stateMachine Scenarios.bothFail Scenarios.workItem)
  = [JObject Scenarios.redriven].
Proof.
  apply (message_is_the_last_document Scenarios.bothFail Scenarios.workItem).
  vm_compute. left. reflexivity.
Defined.

(** ** Time *)

Section KeepingTime.

Lemma keepsTime_ret {A : Type} (a : A) : keepsTime (ret a).
Proof. intros m Hm. simpl. splits; [exact Hm|lia|discriminate]. Qed.

Lemma keepsTime_stop {A : Type} status :
  status <> TIMED_OUT -> keepsTime (@stop A status).
Proof.
  intros Hs m Hm. simpl. splits; [exact Hm|lia|].
  intros [= H]. now elim Hs.
Qed.

Lemma keepsTime_bind {A B : Type} (c : Exec A) (k : A -> Exec B) :
  keepsTime c -> (forall a, keepsTime (k a)) -> keepsTime (bind c k).
Proof.
  intros Hc Hk m Hm. unfold bind.
  destruct (Hc m Hm) as (H1 & H2 & H3).
  destruct (c m) as [[a|s] m1]; simpl in *.
  - destruct (Hk a m1 H1) as (H4 & H5 & H6). splits; [assumption|lia|assumption].
  - splits; [assumption|assumption|].
    intros [= ->]. now apply H3.
Qed.

Lemma onTime_add e m :
  onTime m -> timeOf e = clock m ->
  onTime (mkMachine (clock m) (history m ++ [e]) (deadLetterQueue m)).
Proof.
  intros [H1 H2] He. split; simpl; [assumption|].
  intros e' Hin. apply in_app_iff in Hin as [Hin|[<-|[]]]; [auto|lia].
Qed.

Lemma keepsTime_enter name input : keepsTime (enter name input).
Proof.
  intros m Hm. unfold enter. simpl.
  splits; [now apply onTime_add|lia|discriminate].
Qed.

Lemma keepsTime_invokeLambda fn : keepsTime (invokeLambda fn).
Proof.
  intros m Hm. unfold invokeLambda. simpl.
  splits; [now apply onTime_add|lia|discriminate].
Qed.

Lemma keepsTime_sendMessage body : keepsTime (sendMessage body).
Proof. intros m Hm. unfold sendMessage. simpl. splits; [exact Hm|lia|discriminate]. Qed.

Lemma keepsTime_advance seconds : keepsTime (advance seconds).
Proof.
  intros m [H1 H2]. unfold advance.
  destruct (N.ltb_spec timeout (clock m + seconds)); simpl.
  - splits; [split; simpl|assumption|reflexivity]; [lia|].
    intros e He. specialize (H2 e He). lia.
  - splits; [split; simpl|lia|discriminate]; [lia|].
    intros e He. specialize (H2 e He). lia.
Qed.

Lemma invoke_turn {P : Type} fn (oracle : nat -> Invocation P) retry attempt retries :
  invoke fn oracle retry attempt retries
  = (invokeLambda fn ;;
     advance (elapsed (oracle attempt)) ;;
     match outcome (oracle attempt) with
     | Returned payload => ret (Returned payload)
     | Threw error cause =>
         match retryAfter error retry, retries with
         | Some (wait, retry'), S retries' =>
             advance wait ;;
             invoke fn oracle retry' (S attempt) retries'
         | _, _ => ret (Threw error cause)
         end
     end)%exec.
Proof. destruct retries; reflexivity. Qed.

Lemma keepsTime_invoke {P : Type} fn (oracle : nat -> Invocation P) retries :
  forall retry attempt, keepsTime (invoke fn oracle retry attempt retries).
Proof.
  induction retries as [|r IH]; intros retry attempt; rewrite invoke_turn;
    (apply keepsTime_bind; [apply keepsTime_invokeLambda|intros _]);
    (apply keepsTime_bind; [apply keepsTime_advance|intros _]);
    destruct (outcome (oracle attempt)) as [p|e c]; try apply keepsTime_ret;
    destruct (retryAfter e retry) as [[wait retry']|]; try apply keepsTime_ret.
  apply keepsTime_bind; [apply keepsTime_advance|intros _]. apply IH.
Qed.

(** The runs of the branches of a Parallel state. *)
Lemma earliestFailure_is_a_run {A : Type} (runs : list (Result A * Machine)) t :
  earliestFailure runs = Some t ->
  exists run, In run runs /\ t = clock (snd run).
Proof.
  revert t.
  induction runs as [|[[a|[| |]] m] rest IH]; intros t; simpl; try discriminate;
    try (intros H; destruct (IH t H) as (run & Hin & Ht); eauto).
  destruct (earliestFailure rest) as [t'|].
  - intros [= <-]. destruct (IH t' eq_refl) as (run & Hin & Ht).
    destruct (N.min_spec (clock m) t') as [[_ ->]|[_ ->]].
    + exists (Stop FAILED, m). auto.
    + exists run. auto.
  - intros [= <-]. exists (Stop FAILED, m). auto.
Qed.

Lemma latest_bounds {A : Type} (runs : list (Result A * Machine)) t0 :
  (t0 <= latest runs t0)%N
  /\ (forall run, In run runs -> clock (snd run) <= latest runs t0)%N
  /\ (forall bound,
         (t0 <= bound)%N ->
         (forall run, In run runs -> clock (snd run) <= bound)%N ->
         (latest runs t0 <= bound)%N).
Proof.
  unfold latest. induction runs as [|run rest (IH1 & IH2 & IH3)]; simpl.
  - splits; [lia|intros ? []|auto].
  - splits.
    + lia.
    + intros r [<-|Hin]; [lia|]. specialize (IH2 r Hin). lia.
    + intros bound H0 Hall.
      apply N.max_lub; [apply Hall; now left|].
      apply IH3; [assumption|]. intros r Hin. apply Hall. now right.
Qed.

Lemma collect_stopped {A : Type} (runs : list (Result A * Machine)) status :
  collect runs = Stop status -> exists run, In run runs /\ fst run = Stop status.
Proof.
  induction runs as [|[[a|s] m] rest IH]; simpl; try discriminate.
  - destruct (collect rest) as [l|s]; [discriminate|].
    intros [= <-]. destruct (IH eq_refl) as (run & Hin & Hs). eauto.
  - intros [= <-]. exists (Stop s, m). auto.
Qed.

Lemma keepsTime_parallel {A : Type} (branches : list (Exec A)) :
  (forall branch, In branch branches -> keepsTime branch) ->
  keepsTime (parallel branches).
Proof.
  intros Hall m [Hm1 Hm2]. unfold parallel.
  set (runs := map (runBranch m) branches).
  assert (Hruns : forall run,
             In run runs ->
             onTime (snd run) /\ (clock m <= clock (snd run))%N
             /\ (fst run = Stop TIMED_OUT -> clock (snd run) = timeout)).
  { intros run Hin. apply in_map_iff in Hin as (branch & <- & Hb).
    apply (Hall branch Hb (mkMachine (clock m) [] (deadLetterQueue m))).
    split; simpl; [assumption|intros e []]. }
  assert (Hevents : forall e,
             In e (List.concat (map (fun run => history (snd run)) runs)) ->
             exists run, In run runs /\ In e (history (snd run))).
  { intros e He. apply in_concat in He as (h & Hh & He).
    apply in_map_iff in Hh as (run & <- & Hrun). eauto. }
  destruct (earliestFailure runs) as [t|] eqn:Ef; simpl.
  - apply earliestFailure_is_a_run in Ef as (run & Hrun & ->).
    destruct (Hruns run Hrun) as ([H1 _] & H2 & _).
    splits; [split; simpl|assumption|discriminate]; [assumption|].
    intros e He. apply in_app_iff in He as [He|He].
    + specialize (Hm2 e He). lia.
    + apply filter_In in He as [_ He]. now apply N.leb_le in He.
  - destruct (latest_bounds runs (clock m)) as (L1 & L2 & L3).
    assert (Hle : (latest runs (clock m) <= timeout)%N).
    { apply L3; [assumption|]. intros run Hrun. now apply (Hruns run Hrun). }
    splits; [split; simpl|assumption|]; [assumption| |].
    + intros e He. apply in_app_iff in He as [He|He].
      * specialize (Hm2 e He). lia.
      * apply Hevents in He as (run & Hrun & He).
        destruct (Hruns run Hrun) as ([_ H1] & _ & _).
        specialize (H1 e He). specialize (L2 run Hrun). lia.
    + intros Hstop. apply collect_stopped in Hstop as (run & Hrun & Hs).
      destruct (Hruns run Hrun) as (_ & _ & H3).
      specialize (H3 Hs). specialize (L2 run Hrun). lia.
Qed.

End KeepingTime.

Section StatesKeepTime.

Variable world : World.

Ltac keeps :=
  repeat lazymatch goal with
         | |- keepsTime (bind _ _) => apply keepsTime_bind; [|intros ?]
         | |- keepsTime (task _ _ _) => unfold task; apply keepsTime_invoke
         | |- keepsTime (enter _ _) => apply keepsTime_enter
         | |- keepsTime (sendMessage _) => apply keepsTime_sendMessage
         | |- keepsTime (ret _) => apply keepsTime_ret
         | |- keepsTime (stop _) => apply keepsTime_stop; discriminate
         end.

Lemma keepsTime_sendToDeadLetterQueue input : keepsTime (sendToDeadLetterQueue input).
Proof. unfold sendToDeadLetterQueue, fail. keeps. Qed.

Lemma keepsTime_sendToDlqIfNeeded input : keepsTime (sendToDlqIfNeeded input).
Proof.
  unfold sendToDlqIfNeeded. keeps.
  destruct (anyBranch isPresent input);
    [apply keepsTime_sendToDeadLetterQueue|unfold succeed; keeps].
Qed.

Lemma keepsTime_addToCatalog input : keepsTime (addToCatalog world input).
Proof.
  unfold addToCatalog. keeps.
  match goal with |- keepsTime (match ?r with _ => _ end) => destruct r as [p|e c] end.
  - destruct (select _ _); [apply keepsTime_sendToDlqIfNeeded|keeps].
  - destruct (matches [ALL] e); [|keeps].
    unfold failedToAddToCatalog. keeps.
    destruct (StringToJsonAt _ _); [apply keepsTime_sendToDeadLetterQueue|keeps].
Qed.

Lemma keepsTime_anySuccess input : keepsTime (anySuccess world input).
Proof.
  unfold anySuccess. keeps.
  destruct (anyBranch isNotPresent input);
    [apply keepsTime_addToCatalog|apply keepsTime_sendToDlqIfNeeded].
Qed.

Lemma keepsTime_generateDocs language input :
  keepsTime (generateDocs world language input).
Proof.
  unfold generateDocs. keeps.
  match goal with |- keepsTime (match ?r with _ => _ end) => destruct r as [p|e c] end.
  - simpl. keeps.
  - destruct (matches [ALL] e); [|keeps].
    unfold failedLanguage. keeps.
    destruct (StringToJsonAt _ _); keeps.
Qed.

Lemma keepsTime_definition input : keepsTime (definition world input).
Proof.
  unfold definition. keeps.
  destruct (select _ _) as [infos|]; [|keeps].
  unfold docGen. keeps.
  - apply keepsTime_parallel. intros branch Hin.
    destruct Hin as [<-|[<-|[]]]; apply keepsTime_generateDocs.
  - apply keepsTime_anySuccess.
Qed.

End StatesKeepTime.

(** X11.  No execution lasts longer than the hour of its timeout, and
    nothing in its history happens after its end; an execution that is
    stopped by the timeout ends exactly at the hour. *)
Theorem execution_ends_within_the_hour world input :
  let execution := stateMachine world input in
  (clock (snd execution) <= 3600)%N
  /\ (forall e, In e (events execution) -> (timeOf e <= clock (snd execution))%N)
  /\ (status execution = TIMED_OUT -> clock (snd execution) = 3600%N).
Proof.
  cbn zeta. unfold status, events, stateMachine.
  destruct (keepsTime_definition world input (mkMachine 0 [] []))
    as ([H1 H2] & _ & H3).
  { split; simpl; [discriminate|intros e []]. }
  destruct (definition world input (mkMachine 0 [] [])) as [[output|s] m]; simpl in *.
  - splits; [assumption|assumption|discriminate].
  - splits; [assumption|assumption|]. intros ->. now apply H3.
Qed.

Lemma execution_ends_within_the_hour_witness :
  clock (snd (stateMachine Scenarios.branchStuck Scenarios.workItem)) = 3600%N.
Proof.
  apply (execution_ends_within_the_hour Scenarios.branchStuck Scenarios.workItem).
  vm_compute. reflexivity.
Defined.

Section DoneInTime.

Lemma inTime_weaken {A : Type} a b (c : Exec A) :
  inTime a c -> (a <= b)%N -> inTime b c.
Proof.
  intros Hc Hab m Hm. destruct (Hc m) as [H1 H2]; [lia|]. split; [assumption|lia].
Qed.

Lemma inTime_ret {A : Type} (a : A) : inTime 0 (ret a).
Proof. intros m Hm. simpl. split; [discriminate|lia]. Qed.

Lemma inTime_stop {A : Type} status : status <> TIMED_OUT -> inTime 0 (@stop A status).
Proof.
  intros Hs m Hm. simpl. split; [|lia]. intros [= H]. now elim Hs.
Qed.

Lemma inTime_bind {A B : Type} a b (c : Exec A) (k : A -> Exec B) :
  inTime a c -> (forall x, inTime b (k x)) -> inTime (a + b) (bind c k).
Proof.
  intros Hc Hk m Hm. unfold bind.
  destruct (Hc m) as [H1 H2]; [lia|].
  destruct (c m) as [[x|s] m1]; simpl in *.
  - destruct (Hk x m1) as [H3 H4]; [lia|]. split; [assumption|lia].
  - split; [|lia]. intros [= ->]. now apply H1.
Qed.

Lemma inTime_enter name input : inTime 0 (enter name input).
Proof. intros m Hm. unfold enter. simpl. split; [discriminate|lia]. Qed.

Lemma inTime_invokeLambda fn : inTime 0 (invokeLambda fn).
Proof. intros m Hm. unfold invokeLambda. simpl. split; [discriminate|lia]. Qed.

Lemma inTime_sendMessage body : inTime 0 (sendMessage body).
Proof. intros m Hm. unfold sendMessage. simpl. split; [discriminate|lia]. Qed.

Lemma inTime_advance seconds : inTime seconds (advance seconds).
Proof.
  intros m Hm. unfold advance.
  destruct (N.ltb_spec timeout (clock m + seconds)); simpl; [lia|].
  split; [discriminate|lia].
Qed.

(** A state that takes no time, then the rest. *)
Lemma inTime_then {A B : Type} cost (c : Exec A) (k : A -> Exec B) :
  inTime 0 c -> (forall x, inTime cost (k x)) -> inTime cost (bind c k).
Proof.
  intros Hc Hk. apply (inTime_weaken (0 + cost)); [|lia].
  now apply inTime_bind.
Qed.

(** A task whose invocations run [longest] seconds at most is done after
    all its invocations and all its waits. *)
Lemma inTime_invoke {P : Type} fn (oracle : nat -> Invocation P) longest :
  (forall k, (elapsed (oracle k) <= longest)%N) ->
  forall retries retry attempt,
    inTime (N.of_nat (S (retriesLeft retry)) * longest + waitsLeft retry)
           (invoke fn oracle retry attempt retries).
Proof.
  intros Hlong. induction retries as [|r IH]; intros retry attempt;
    rewrite invoke_turn;
    (apply inTime_then; [apply inTime_invokeLambda|intros _]);
    pose proof (Hlong attempt) as Hl;
    rewrite Nat2N.inj_succ, N.mul_succ_l.
  - apply (inTime_weaken (elapsed (oracle attempt) + 0)); [|lia].
    apply inTime_bind; [apply inTime_advance|intros _].
    destruct (outcome (oracle attempt)) as [p|e c]; [apply inTime_ret|].
    destruct (retryAfter e retry) as [[wait retry']|]; apply inTime_ret.
  - destruct (outcome (oracle attempt)) as [p|e c].
    { apply (inTime_weaken (elapsed (oracle attempt) + 0)); [|lia].
      apply inTime_bind; [apply inTime_advance|intros _]. apply inTime_ret. }
    destruct (retryAfter e retry) as [[wait retry']|] eqn:E.
    2:{ apply (inTime_weaken (elapsed (oracle attempt) + 0)); [|lia].
        apply inTime_bind; [apply inTime_advance|intros _]. apply inTime_ret. }
    destruct (retryAfter_left _ _ _ _ E) as [Hleft Hwaits].
    rewrite Hleft, Hwaits.
    apply (inTime_weaken
             (elapsed (oracle attempt)
              + (wait + (N.of_nat (S (retriesLeft retry')) * longest
                         + waitsLeft retry')))); [|lia].
    apply inTime_bind; [apply inTime_advance|intros _].
    apply inTime_bind; [apply inTime_advance|intros _]. apply IH.
Qed.

Lemma inTime_parallel {A : Type} cost (branches : list (Exec A)) :
  (forall branch, In branch branches -> inTime cost branch) ->
  inTime cost (parallel branches).
Proof.
  intros Hall m Hm. unfold parallel.
  set (runs := map (runBranch m) branches).
  assert (Hruns : forall run,
             In run runs ->
             fst run <> Stop TIMED_OUT /\ (clock (snd run) <= clock m + cost)%N).
  { intros run Hin. apply in_map_iff in Hin as (branch & <- & Hb).
    apply (Hall branch Hb (mkMachine (clock m) [] (deadLetterQueue m))).
    exact Hm. }
  destruct (earliestFailure runs) as [t|] eqn:Ef; simpl.
  - apply earliestFailure_is_a_run in Ef as (run & Hrun & ->).
    split; [discriminate|]. exact (proj2 (Hruns run Hrun)).
  - split.
    + intros Hstop. apply collect_stopped in Hstop as (run & Hrun & Hs).
      exact (proj1 (Hruns run Hrun) Hs).
    + apply latest_bounds; [lia|]. intros run Hrun. exact (proj2 (Hruns run Hrun)).
Qed.

End DoneInTime.

Section StatesInTime.

Variable world : World.

(** No invocation of a function runs longer than [longest] seconds. *)
Variable longest : N.
Hypothesis transliterator_runs :
  forall language k, (elapsed (transliterator world language k) <= longest)%N.
Hypothesis catalogBuilder_runs :
  forall k, (elapsed (catalogBuilder world k) <= longest)%N.

Ltac instant :=
  repeat lazymatch goal with
         | |- inTime _ (bind (enter _ _) _) =>
             apply inTime_then; [apply inTime_enter|intros ?]
         | |- inTime _ (bind (sendMessage _) _) =>
             apply inTime_then; [apply inTime_sendMessage|intros ?]
         | |- inTime 0 (ret _) => apply inTime_ret
         | |- inTime 0 (stop _) => apply inTime_stop; discriminate
         end.

Lemma inTime_sendToDeadLetterQueue input : inTime 0 (sendToDeadLetterQueue input).
Proof. unfold sendToDeadLetterQueue, fail. instant. Qed.

Lemma inTime_sendToDlqIfNeeded input : inTime 0 (sendToDlqIfNeeded input).
Proof.
  unfold sendToDlqIfNeeded. instant.
  destruct (anyBranch isPresent input);
    [apply inTime_sendToDeadLetterQueue|unfold succeed; instant].
Qed.

Lemma inTime_addToCatalog input :
  inTime (12 * longest + 1056) (addToCatalog world input).
Proof.
  unfold addToCatalog, task. instant.
  apply (inTime_weaken
           (N.of_nat (S (retriesLeft (fresh addToCatalogRetry))) * longest
            + waitsLeft (fresh addToCatalogRetry) + 0)).
  2:{ change (waitsLeft (fresh addToCatalogRetry)) with 1056%N.
      change (N.of_nat (S (retriesLeft (fresh addToCatalogRetry)))) with 12%N. lia. }
  apply inTime_bind; [now apply inTime_invoke|intros [p|e c]].
  - destruct (select _ _); [apply inTime_sendToDlqIfNeeded|instant].
  - destruct (matches [ALL] e); [|instant].
    unfold failedToAddToCatalog. instant.
    destruct (StringToJsonAt _ _); [apply inTime_sendToDeadLetterQueue|instant].
Qed.

Lemma inTime_anySuccess input :
  inTime (12 * longest + 1056) (anySuccess world input).
Proof.
  unfold anySuccess. instant.
  destruct (anyBranch isNotPresent input); [apply inTime_addToCatalog|].
  eapply inTime_weaken; [apply inTime_sendToDlqIfNeeded|lia].
Qed.

Lemma inTime_generateDocs language input :
  inTime (10 * longest + 336) (generateDocs world language input).
Proof.
  unfold generateDocs, task. instant.
  apply (inTime_weaken
           (N.of_nat (S (retriesLeft (fresh docGenRetry))) * longest
            + waitsLeft (fresh docGenRetry) + 0)).
  2:{ change (waitsLeft (fresh docGenRetry)) with 336%N.
      change (N.of_nat (S (retriesLeft (fresh docGenRetry)))) with 10%N. lia. }
  apply inTime_bind; [now apply inTime_invoke|intros [p|e c]].
  - simpl. instant.
  - destruct (matches [ALL] e); [|instant].
    unfold failedLanguage. instant.
    destruct (StringToJsonAt _ _); instant.
Qed.

Lemma inTime_definition input :
  inTime (22 * longest + 1392) (definition world input).
Proof.
  unfold definition. instant.
  destruct (select _ _) as [infos|].
  2:{ eapply inTime_weaken; [apply inTime_stop; discriminate|lia]. }
  unfold docGen. instant.
  apply (inTime_weaken ((10 * longest + 336) + (12 * longest + 1056))); [|lia].
  apply inTime_bind.
  - apply inTime_parallel. intros branch Hin.
    destruct Hin as [<-|[<-|[]]]; apply inTime_generateDocs.
  - intros results. apply inTime_anySuccess.
Qed.

End StatesInTime.

(** X12.  When no invocation of a function runs longer than [longest]
    seconds, an execution is over after the ten invocations and the waits
    a branch can make (2, 4, 8, 16, 32 and 64 seconds after service
    exceptions, 30, 60 and 120 seconds after other errors) and the twelve
    invocations and the waits the catalog update can make (the same after
    service exceptions, 30, 60, 120, 240 and 480 seconds after throttling)
    at the latest; when that fits within the hour, the timeout never stops
    it. *)
Theorem fast_functions_never_time_out world input (longest : N) :
  (forall language k, (elapsed (transliterator world language k) <= longest)%N) ->
  (forall k, (elapsed (catalogBuilder world k) <= longest)%N) ->
  (22 * longest + 1392 <= 3600)%N ->
  let execution := stateMachine world input in
  status execution <> TIMED_OUT
  /\ (clock (snd execution) <= 22 * longest + 1392)%N.
Proof.
  intros Hbranch Hcatalog Hfits. cbn zeta. unfold status, stateMachine.
  destruct (inTime_definition world longest Hbranch Hcatalog input (mkMachine 0 [] []))
    as [H1 H2].
  { simpl. exact Hfits. }
  destruct (definition world input (mkMachine 0 [] [])) as [[output|s] m]; simpl in *.
  - split; [discriminate|assumption].
  - split; [|assumption]. intros ->. now apply H1.
Qed.

Lemma fast_functions_never_time_out_witness :
  status (stateMachine Scenarios.throttledFourTimes Scenarios.workItem) <> TIMED_OUT
  /\ (clock (snd (stateMachine Scenarios.throttledFourTimes Scenarios.workItem))
      <= 22 * 60 + 1392)%N.
Proof.
  apply (fast_functions_never_time_out
           Scenarios.throttledFourTimes Scenarios.workItem 60).
  - intros language k. simpl. lia.
  - intros k. simpl. destruct (Nat.ltb k 4); simpl; lia.
  - lia.
Defined.

(* ===================================================================== *)
(** * Properties of the generated function constructs *)
(* ===================================================================== *)

Section ObjectLiterals.

Import Functions.

Lemma get_assign_same key value o : get key (assign key value o) = Some value.
Proof.
  induction o as [|[k v] rest IH]; simpl.
  - now rewrite String.eqb_refl.
  - destruct (String.eqb k key) eqn:E; simpl; rewrite E; auto.
Qed.

Lemma get_assign_other key key' value o :
  key <> key' -> get key' (assign key value o) = get key' o.
Proof.
  intros Hne. induction o as [|[k v] rest IH]; simpl.
  - destruct (String.eqb_spec key key'); congruence.
  - destruct (String.eqb_spec k key) as [->|Hk]; simpl.
    + destruct (String.eqb_spec key key'); congruence.
    + now rewrite IH.
Qed.

Lemma get_absent key o : ~ In key (keys o) -> get key o = None.
Proof.
  induction o as [|[k v] rest IH]; simpl; [reflexivity|].
  intros Hnotin. destruct (String.eqb_spec k key) as [->|Hk].
  - elim Hnotin. now left.
  - apply IH. intros Hin. apply Hnotin. now right.
Qed.

(** Spreading an object that has no [key] leaves [key] as it is. *)
Lemma get_spread_absent key source :
  get key source = None -> forall o, get key (spread source o) = get key o.
Proof.
  unfold spread.
  induction source as [|[k v] rest IH]; simpl; intros Hnone o; [reflexivity|].
  destruct (String.eqb_spec k key) as [->|Hk]; [discriminate|].
  rewrite (IH Hnone). now apply get_assign_other.
Qed.

(** Spreading an object that has [key] gives [key] its value. *)
Lemma get_spread_present key value source :
  NoDup (keys source) -> get key source = Some value ->
  forall o, get key (spread source o) = Some value.
Proof.
  unfold spread.
  induction source as [|[k v] rest IH]; simpl; intros Hnd Hget o; [discriminate|].
  inversion Hnd as [|? ? Hnotin Hrest]; subst.
  destruct (String.eqb_spec k key) as [->|Hk].
  - injection Hget as ->.
    rewrite (get_spread_absent key rest (get_absent key rest Hnotin)).
    apply get_assign_same.
  - now apply IH.
Qed.

(** The literal of the three constructors: a description, the properties
    given, and three properties of the construct's own. *)
Lemma literal_of_a_construct description props runtime handler code :
  objectLiteral [Property "description" description;
                 Spread props;
                 Property "runtime" runtime;
                 Property "handler" handler;
                 Property "code" code]
  = assign "code" code
      (assign "handler" handler
         (assign "runtime" runtime
            (define [("description", description)] (Spread props)))).
Proof. reflexivity. Qed.

Lemma get_own_property key value description props runtime handler code :
  In (key, value) [("runtime", runtime); ("handler", handler); ("code", code)] ->
  get key (objectLiteral [Property "description" description;
                          Spread props;
                          Property "runtime" runtime;
                          Property "handler" handler;
                          Property "code" code]) = Some value.
Proof.
  rewrite literal_of_a_construct.
  intros [[= <- <-]|[[= <- <-]|[[= <- <-]|[]]]].
  - rewrite !get_assign_other by discriminate. apply get_assign_same.
  - rewrite get_assign_other by discriminate. apply get_assign_same.
  - apply get_assign_same.
Qed.

Lemma get_given_property key description props runtime handler code :
  wellFormed props ->
  ~ In key ["runtime"; "handler"; "code"] ->
  get key (objectLiteral [Property "description" description;
                          Spread props;
                          Property "runtime" runtime;
                          Property "handler" handler;
                          Property "code" code])
  = match given key props with
    | Some value => Some value
    | None => if String.eqb "description" key then Some description else None
    end.
Proof.
  intros Hwf Hkey. rewrite literal_of_a_construct.
  rewrite !get_assign_other
    by (intros <-; apply Hkey; simpl; auto).
  destruct props as [source|]; cbn [define given].
  - destruct (get key source) as [value|] eqn:Eg.
    + now apply get_spread_present.
    + rewrite (get_spread_absent key source Eg). simpl.
      now destruct (String.eqb "description" key).
  - simpl. now destruct (String.eqb "description" key).
Qed.

End ObjectLiterals.

(** X13.  Whatever properties a caller passes, also ones named [runtime],
    [handler] or [code], each generated construct creates its function
    with the Node.js 16 runtime, the handler [index.handler] and, as code,
    the asset at the path [path.join] makes of [__dirname] and the name of
    its own bundle, whatever [path.join] and [__dirname] are where the
    construct is synthesized. *)
Theorem constructs_fix_runtime_handler_and_code
    (join : string -> string -> string) dirname props :
  let own construct bundle :=
    Functions.get "runtime" (construct join dirname props)
    = Some Functions.NODEJS_16_X
    /\ Functions.get "handler" (construct join dirname props)
       = Some (Functions.Text "index.handler")
    /\ Functions.get "code" (construct join dirname props)
       = Some (Functions.fromAsset (join dirname bundle)) in
  own Functions.Ingestion "/ingestion.lambda.bundle"
  /\ own Functions.HttpGetFunction "/http-get-function.lambda.bundle"
  /\ own Functions.ReleaseNotesTrigger "/release-notes-trigger.lambda.bundle".
Proof.
  cbn zeta.
  unfold Functions.Ingestion, Functions.HttpGetFunction, Functions.ReleaseNotesTrigger.
  splits; apply get_own_property; simpl; auto.
Qed.

(** X14.  The description of a generated construct is the one the caller
    passes, also when it is [undefined]; without one it is the path of the
    handler's source. *)
Theorem constructs_take_the_description_given
    (join : string -> string -> string) dirname props :
  Functions.wellFormed props ->
  let described construct source :=
    Functions.get "description" (construct join dirname props)
    = match Functions.given "description" props with
      | Some description => Some description
      | None => Some (Functions.Text source)
      end in
  described Functions.Ingestion "backend/ingestion/ingestion.lambda.ts"
  /\ described Functions.HttpGetFunction "monitoring/http-get-function.lambda.ts"
  /\ described Functions.ReleaseNotesTrigger
               "backend/release-notes/release-notes-trigger.lambda.ts".
Proof.
  intros Hwf. cbn zeta.
  unfold Functions.Ingestion, Functions.HttpGetFunction, Functions.ReleaseNotesTrigger.
  splits; rewrite get_given_property; try assumption; try reflexivity;
    simpl; intros [H|[H|[H|[]]]]; discriminate.
Qed.

Example overriding_props_keep_the_runtime :
  Functions.Ingestion String.append "/var/task" (Some Functions.overriding)
  = [("description", Functions.Text "backend/ingestion/ingestion.lambda.ts");
     ("runtime", Functions.NODEJS_16_X);
     ("handler", Functions.Text "index.handler");
     ("code", Functions.Code "/var/task/ingestion.lambda.bundle")].
Proof. reflexivity. Qed.

Lemma constructs_take_the_description_given_witness :
  Functions.get "description"
                (Functions.Ingestion String.append "/var/task" (Some Functions.tuned))
  = Some (Functions.Text "Ingests new package versions").
Proof.
  apply (constructs_take_the_description_given
           String.append "/var/task" (Some Functions.tuned)).
  simpl. repeat constructor; simpl; intuition discriminate.
Defined.

(** X15.  Every other property reaches the function as the caller passed
    it, and a property the caller did not pass is not set. *)
Theorem constructs_pass_other_properties_through
    (join : string -> string -> string) dirname props key :
  Functions.wellFormed props ->
  ~ In key ["description"; "runtime"; "handler"; "code"] ->
  Functions.get key (Functions.Ingestion join dirname props)
  = Functions.given key props
  /\ Functions.get key (Functions.HttpGetFunction join dirname props)
     = Functions.given key props
  /\ Functions.get key (Functions.ReleaseNotesTrigger join dirname props)
     = Functions.given key props.
Proof.
  intros Hwf Hkey.
  assert (Hd : String.eqb "description" key = false).
  { apply String.eqb_neq. intros <-. apply Hkey. simpl. auto. }
  assert (Hown : ~ In key ["runtime"; "handler"; "code"]).
  { intros Hin. apply Hkey. simpl in *. tauto. }
  unfold Functions.Ingestion, Functions.HttpGetFunction, Functions.ReleaseNotesTrigger.
  splits; rewrite get_given_property, Hd by assumption;
    now destruct (Functions.given key props).
Qed.

Lemma constructs_pass_other_properties_through_witness :
  Functions.get "memorySize"
                (Functions.Ingestion String.append "/var/task" (Some Functions.tuned))
  = Some (Functions.Number 1024).
Proof.
  apply (constructs_pass_other_properties_through
           String.append "/var/task" (Some Functions.tuned) "memorySize").
  - simpl. repeat constructor; simpl; intuition discriminate.
  - simpl. intuition discriminate.
Defined.
